(** * Expense extraction: a shallow embedding of the extraction engine

    The two source files embedded here are

    - [src/utility/getEmailExpense.ts]: [extractAmounts], [determineCategory],
      [createTitle] and [handleGetEmailExpense] (the text pipeline);
    - the bill-scanning module ([handleGetInvoiceData]): the validation and
      normalisation that follows [extractJSON] (the structured pipeline).

    Three callers of the text pipeline are embedded with them:

    - [src/utility/emailReader.ts]: [extractEmailBody] and
      [readEmailsFromSender], the latter as a function of the collection of
      processed emails, with the mail service and the collection as
      parameters;
    - [src/utility/cronScheduler.ts]: [keywordToCategory] and [getSpendType],
      which gives a stored expense its type;
    - [src/model/user.model.ts]: the [enum] of that type.

    JavaScript values are modelled as follows.

    - A [number] is an IEEE-754 binary64 value, taken from the Standard
      Library's [SpecFloat] with [prec = 53] and [emax = 1024].
    - A string is a Rocq [string], one [ascii] per UTF-16 code unit: the
      texts covered are those whose code units lie below 256 (ISO 8859-1).
    - A regular expression is a syntax tree run by a backtracking matcher
      with JavaScript's priorities (greedy quantifiers, left alternative
      first). *)

From Stdlib Require Import ZArith List String Ascii Bool Lia.
From Stdlib Require Import Permutation Sorted.
From Stdlib Require Import Floats.SpecFloat.
Import ListNotations.

Local Open Scope string_scope.
Local Open Scope list_scope.

(** ** Numbers *)

Module Num.

Definition prec : Z := 53.
Definition emax : Z := 1024.

Definition number : Type := spec_float.

Definition NaN : number := S754_nan.
Definition zero : number := S754_zero false.
Definition Infinity : number := S754_infinity false.

Definition add : number -> number -> number := SFadd prec emax.
Definition sub : number -> number -> number := SFsub prec emax.
Definition abs : number -> number := SFabs.
Definition ltb : number -> number -> bool := SFltb.
Definition leb : number -> number -> bool := SFleb.
Definition eqb : number -> number -> bool := SFeqb.

Definition isNaN (x : number) : bool :=
  match x with S754_nan => true | _ => false end.

Definition isFinite (x : number) : bool :=
  match x with S754_zero _ | S754_finite _ _ _ => true | _ => false end.

(** The integer [z] as a number (exact below 2^53). *)
Definition of_Z (z : Z) : number := binary_normalize prec emax z 0 false.

(** The number nearest to the fraction [n / d] (ties to even), for [0 <= n]
    and [0 < d]: the value of a decimal literal or of a parsed decimal
    string. The quotient is taken with the bits that the division of the
    library takes, then rounded as the library rounds. *)
Definition round_ratio (n d : Z) : number :=
  match n with
  | Z0 => zero
  | Zpos _ =>
      let '(q, e, l) := SFdiv_core_binary prec emax n 0 d 0 in
      binary_round_aux prec emax false q e l
  | Zneg _ => NaN
  end.

Definition neg (x : number) : number := SFopp x.

(** The least exponent of a number, and the size of a non-negative number
    in units of [2 ^ emin]; [None] stands for [Infinity]. *)
Definition emin : Z := SpecFloat.emin prec emax.

Definition units (x : number) : option Z :=
  match x with
  | S754_zero _ => Some 0%Z
  | S754_finite _ m e => Some (Zpos m * 2 ^ (e - emin))%Z
  | _ => None
  end.

Definition units_lt (a b : option Z) : Prop :=
  match a, b with
  | Some x, Some y => (x < y)%Z
  | Some _, None => True
  | None, _ => False
  end.

(** The exponent of a finite number is not below [emin]. *)
Definition exponent_ok (x : number) : Prop :=
  match x with
  | S754_finite _ _ e => (emin <= e)%Z
  | _ => True
  end.

(** A number that the scan can record: positive, with a regular
    exponent. *)
Definition recordable (x : number) : Prop :=
  ltb zero x = true /\ exponent_ok x.

End Num.

Import Num.

(** ** Strings *)

Module Str.

Definition code (c : ascii) : nat := nat_of_ascii c.

Definition between (lo hi : nat) (c : ascii) : bool :=
  (lo <=? code c)%nat && (code c <=? hi)%nat.

Definition isDigit (c : ascii) : bool := between 48 57 c.
Definition isUpper (c : ascii) : bool := between 65 90 c.
Definition isLower (c : ascii) : bool := between 97 122 c.

(** White space and line terminators ([\s], [trim]): TAB, LF, VT, FF, CR,
    SP and NBSP are the ones below 256. *)
Definition isSpace (c : ascii) : bool :=
  between 9 13 c || (code c =? 32)%nat || (code c =? 160)%nat.

(** [toLowerCase] on one code unit: A-Z, and the upper-case letters of the
    Latin-1 supplement (U+00C0..U+00DE but U+00D7), move 32 up. *)
Definition lowerChar (c : ascii) : ascii :=
  if isUpper c || (between 192 222 c && negb (code c =? 215)%nat)
  then ascii_of_nat (code c + 32) else c.

(** The upper-case form that the matcher compares under the [i] flag.
    U+00B5 and U+00FF, whose upper case lies beyond U+00FF, are left as
    they are: they can only be compared with the letters of a pattern,
    which are all in A-Z and a-z here. *)
Definition canonChar (c : ascii) : ascii :=
  if isLower c || (between 224 254 c && negb (code c =? 247)%nat)
  then ascii_of_nat (code c - 32) else c.

Fixpoint toLowerCase (s : string) : string :=
  match s with
  | EmptyString => EmptyString
  | String c s' => String (lowerChar c) (toLowerCase s')
  end.

Fixpoint take (n : nat) (s : string) : string :=
  match n, s with
  | S n', String c s' => String c (take n' s')
  | _, _ => EmptyString
  end.

Fixpoint drop (n : nat) (s : string) : string :=
  match n, s with
  | S n', String _ s' => drop n' s'
  | _, _ => s
  end.

(** [s.substring(start, end)]: both ends are clamped to [0, s.length] and
    swapped when [start > end]. *)
Definition substring (s : string) (i j : Z) : string :=
  let clamp := fun k : Z =>
    Z.to_nat (Z.min (Z.max 0 k) (Z.of_nat (String.length s))) in
  let lo := Nat.min (clamp i) (clamp j) in
  let hi := Nat.max (clamp i) (clamp j) in
  take (hi - lo) (drop lo s).

(** [text.includes(keyword)]. *)
Fixpoint includes (text keyword : string) : bool :=
  if prefix keyword text then true
  else match text with
       | EmptyString => false
       | String _ text' => includes text' keyword
       end.

(** [text.replace(pattern, "")] with a string pattern: the first occurrence
    of [pattern] is removed. *)
Fixpoint remove_first (text pattern : string) : string :=
  if prefix pattern text then drop (String.length pattern) text
  else match text with
       | EmptyString => EmptyString
       | String c text' => String c (remove_first text' pattern)
       end.

Fixpoint trimStart (s : string) : string :=
  match s with
  | String c s' => if isSpace c then trimStart s' else s
  | EmptyString => EmptyString
  end.

Fixpoint trimEnd (s : string) : string :=
  match s with
  | EmptyString => EmptyString
  | String c s' =>
      match trimEnd s' with
      | EmptyString => if isSpace c then EmptyString else String c EmptyString
      | t => String c t
      end
  end.

Definition trim (s : string) : string := trimEnd (trimStart s).

(** [s.replace(/,/g, "")]. *)
Fixpoint remove_commas (s : string) : string :=
  match s with
  | EmptyString => EmptyString
  | String c s' =>
      if (code c =? 44)%nat then remove_commas s'
      else String c (remove_commas s')
  end.

(** The longest prefix of decimal digits, as (value, how many, rest). *)
Fixpoint digits (acc : Z) (count : nat) (s : string) : Z * nat * string :=
  match s with
  | String c s' =>
      if isDigit c
      then digits (10 * acc + Z.of_nat (code c - 48)) (S count) s'
      else (acc, count, s)
  | EmptyString => (acc, count, s)
  end.

(** [parseFloat(s)]: leading white space is skipped, then the longest prefix
    that is a decimal literal (sign, [Infinity], digits, fraction,
    exponent) is converted; [NaN] when there is none. *)
Definition parseFloat (s : string) : number :=
  let s0 := trimStart s in
  let '(negative, s1) :=
    match s0 with
    | String "-" r => (true, r)
    | String "+" r => (false, r)
    | _ => (false, s0)
    end in
  let signed := fun x : number => if negative then neg x else x in
  if prefix "Infinity" s1 then signed Infinity
  else
    let '(ip, ni, s2) := digits 0 0 s1 in
    let '(m, nf, s3) :=
      match s2 with
      | String "." r => let '(m, n, r') := digits ip 0 r in (m, n, r')
      | _ => (ip, 0%nat, s2)
      end in
    if (ni + nf =? 0)%nat then NaN
    else
      let ex : Z :=
        match s3 with
        | String e r =>
            if ((code e =? 101) || (code e =? 69))%nat then
              let '(sg, r1) :=
                match r with
                | String "-" r' => ((-1)%Z, r')
                | String "+" r' => (1%Z, r')
                | _ => (1%Z, r)
                end in
              let '(v, n, _) := digits 0 0 r1 in
              if (n =? 0)%nat then 0%Z else (sg * v)%Z
            else 0%Z
        | EmptyString => 0%Z
        end in
      let sh := (ex - Z.of_nat nf)%Z in
      signed (if (0 <=? sh)%Z then round_ratio (m * 10 ^ sh) 1
              else round_ratio m (10 ^ (- sh))).

End Str.

Import Str.

(** ** Regular expressions *)

Module Regex.

Inductive regex : Type :=
| Eps
| Chr (c : ascii)
| Cls (p : ascii -> bool)
| Seq (r1 r2 : regex)
| Alt (r1 r2 : regex)
| Star (r : regex)
| Grp (r : regex).

(** Derived forms. A bounded repetition is unrolled; this agrees with the
    matcher of the language whenever the repeated term consumes input. *)
Definition Opt (r : regex) : regex := Alt r Eps.
Definition Plus (r : regex) : regex := Seq r (Star r).

Fixpoint Times (n : nat) (r : regex) : regex :=
  match n with
  | O => Eps
  | S n' => Seq r (Times n' r)
  end.

Fixpoint UpTo (n : nat) (r : regex) : regex :=
  match n with
  | O => Eps
  | S n' => Opt (Seq r (UpTo n' r))
  end.

Definition Rep (lo hi : nat) (r : regex) : regex :=
  Seq (Times lo r) (UpTo (hi - lo) r).

Fixpoint Lit (s : string) : regex :=
  match s with
  | EmptyString => Eps
  | String c EmptyString => Chr c
  | String c s' => Seq (Chr c) (Lit s')
  end.

(** Concatenation and alternation of several terms, left to right. *)
Fixpoint Cat (l : list regex) : regex :=
  match l with
  | [] => Eps
  | [r] => r
  | r :: l' => Seq r (Cat l')
  end.

Fixpoint Any (l : list regex) : regex :=
  match l with
  | [] => Eps
  | [r] => r
  | r :: l' => Alt r (Any l')
  end.

(** The least number of code units a match of [r] consumes. *)
Fixpoint minLength (r : regex) : nat :=
  match r with
  | Eps => 0
  | Chr _ | Cls _ => 1
  | Seq r1 r2 => minLength r1 + minLength r2
  | Alt r1 r2 => Nat.min (minLength r1) (minLength r2)
  | Star _ => 0
  | Grp r1 => minLength r1
  end.

Record RegExp : Type := mkRegExp { source : regex; ignoreCase : bool }.

Definition capture : Type := option string.

Section Matcher.
Context {A : Type}.
Variable ic : bool.

Definition chr_match (c x : ascii) : bool :=
  if ic then Ascii.eqb (canonChar c) (canonChar x) else Ascii.eqb c x.

Definition cont : Type := string -> capture -> option A.

(** Greedy iteration: one more round of [body] that consumes input, or
    else the continuation. [n] bounds the rounds by the input left; a
    larger bound changes nothing (lemma [star_loop_bound]). *)
Fixpoint star_loop (body : string -> capture -> cont -> option A)
         (n : nat) (s : string) (c : capture) (k : cont) : option A :=
  match n with
  | O => k s c
  | S n' =>
      match body s c (fun s' c' =>
               if (String.length s' <? String.length s)%nat
               then star_loop body n' s' c' k else None) with
      | Some x => Some x
      | None => k s c
      end
  end.

(** [rmatch r s c k]: the first way, in the order of the language, to
    match [r] at the head of [s] such that the continuation [k] accepts
    what is left. Under the [i] flag letters are compared by their
    upper-case forms; the classes used here ([\d], [\s],
    [[A-Za-z0-9\s&]]) contain both cases of their letters and need no
    folding. [c] is capture group 1, the only group of every pattern
    here. *)
Fixpoint rmatch (r : regex) (s : string) (c : capture) (k : cont)
  {struct r} : option A :=
  match r with
  | Eps => k s c
  | Chr a =>
      match s with
      | String x s' => if chr_match a x then k s' c else None
      | EmptyString => None
      end
  | Cls p =>
      match s with
      | String x s' => if p x then k s' c else None
      | EmptyString => None
      end
  | Seq r1 r2 => rmatch r1 s c (fun s' c' => rmatch r2 s' c' k)
  | Alt r1 r2 =>
      match rmatch r1 s c k with
      | Some x => Some x
      | None => rmatch r2 s c k
      end
  | Star r1 =>
      star_loop (fun s' c' k' => rmatch r1 s' c' k') (String.length s) s c k
  | Grp r1 =>
      rmatch r1 s c
        (fun s' _ => k s' (Some (take (String.length s - String.length s') s)))
  end.
End Matcher.

(** A match of [re] that starts at the head of [s]: the length of the
    matched text and capture group 1. *)
Definition match_at (re : RegExp) (s : string) : option (nat * capture) :=
  rmatch (ignoreCase re) (source re) s None
    (fun s' c => Some ((String.length s - String.length s')%nat, c)).

(** What [exec] and [match] return: the matched text [match[0]], capture
    group 1 [match[1]], and [match.index]. *)
Record MatchResult : Type :=
  mkMatch { m0 : string; m1 : capture; index : Z }.

(** [text.match(re)] for a regular expression without the [g] flag: the
    leftmost match. [i] is the index of the head of [s] in the text. *)
Fixpoint search (re : RegExp) (s : string) (i : Z) : option MatchResult :=
  match match_at re s with
  | Some (n, c) => Some (mkMatch (take n s) c i)
  | None =>
      match s with
      | EmptyString => None
      | String _ s' => search re s' (i + 1)
      end
  end.

(** The matches that [while ((match = re.exec(text)) !== null)] visits
    with a [g] regular expression, and those of [matchAll]: after a match
    of length [n] the next attempt starts [n] code units further
    ([lastIndex]); [skip] counts the units still inside the last match.
    The patterns looped over with [exec] never match the empty string
    (lemma [amountRegexes_progress]), so [lastIndex] always moves on. *)
Fixpoint scan (re : RegExp) (s : string) (i : Z) (skip : nat)
  : list MatchResult :=
  match skip with
  | S skip' =>
      match s with
      | EmptyString => []
      | String _ s' => scan re s' (i + 1) skip'
      end
  | O =>
      match match_at re s with
      | Some (n, c) =>
          mkMatch (take n s) c i ::
          match s with
          | EmptyString => []
          | String _ s' => scan re s' (i + 1) (n - 1)
          end
      | None =>
          match s with
          | EmptyString => []
          | String _ s' => scan re s' (i + 1) 0
          end
      end
  end.

Definition execAll (re : RegExp) (text : string) : list MatchResult :=
  scan re text 0 0.

End Regex.

Import Regex.

(** ** src/utility/getEmailExpense.ts *)

(** [head] is the category label of the item. *)
Record ExpenseItem : Type :=
  mkItem { amount : number; title : string; head : string }.

Record ExpenseData : Type :=
  mkData { total : number; items : list ExpenseItem }.

Inductive result (A : Type) : Type :=
| Ok (a : A)
| Throw (message : string).
Arguments Ok {A} a.
Arguments Throw {A} message.

Definition categoryKeywords : list (string * list string) :=
  [ ("food", ["food"; "restaurant"; "meal"; "lunch"; "dinner"; "breakfast";
              "cafe"; "grocery"; "groceries"; "takeout"; "doordash";
              "uber eats"; "grubhub"]);
    ("rent", ["rent"; "lease"; "housing"; "apartment"; "mortgage"; "property"]);
    ("travel", ["travel"; "flight"; "hotel"; "airfare"; "airline"; "booking";
                "trip"; "vacation"; "uber"; "lyft"; "taxi"; "car rental"]);
    ("utility", ["utility"; "electric"; "water"; "gas"; "internet"; "phone";
                 "bill"; "cable"; "subscription"]);
    ("entertainment", ["entertainment"; "movie"; "theatre"; "concert"; "show";
                       "netflix"; "spotify"; "hulu"; "disney+"; "prime";
                       "subscription"]);
    ("shopping", ["shopping"; "purchase"; "amazon"; "store"; "retail"; "mall";
                  "online"; "buy"; "bought"]);
    ("health", ["health"; "medical"; "doctor"; "hospital"; "pharmacy";
                "medicine"; "prescription"; "dental"; "healthcare"]);
    ("education", ["education"; "tuition"; "school"; "college"; "university";
                   "course"; "class"; "book"; "textbook"]);
    ("gift", ["gift"; "present"; "donation"; "charity"]);
    ("fitness", ["fitness"; "gym"; "workout"; "exercise"; "sport";
                 "membership"]);
    ("investment", ["investment"; "stock"; "bond"; "mutual fund"; "etf";
                    "crypto"; "bitcoin"; "ethereum"; "trading"]) ].

(** *** The amount patterns *)

Definition digit : regex := Cls isDigit.
Definition ws : regex := Cls isSpace.

(** [(\d{1,3}(?:,\d{3})*(?:\.\d{2})?)] *)
Definition amountGroup : regex :=
  Grp (Cat [ Rep 1 3 digit;
             Star (Cat [Chr ","; Rep 3 3 digit]);
             Opt (Cat [Chr "."; Rep 2 2 digit]) ]).

(** [(?:USD|dollars|dollar)] *)
Definition currencyWord : regex := Any [Lit "USD"; Lit "dollars"; Lit "dollar"].

(** [\s*\$?\s*] and the amount group. *)
Definition amountTail : regex :=
  Cat [Star ws; Opt (Chr "$"); Star ws; amountGroup].

(** [(?::|\s+of)?] *)
Definition colonOrOf : regex := Opt (Any [Chr ":"; Cat [Plus ws; Lit "of"]]).

Definition amountRegexes : list RegExp :=
  [ (* /\$\s*(\d{1,3}(?:,\d{3})*(?:\.\d{2})?)/g *)
    mkRegExp (Cat [Chr "$"; Star ws; amountGroup]) false;
    (* /(\d{1,3}(?:,\d{3})*(?:\.\d{2})?)\s*(?:USD|dollars|dollar)/gi *)
    mkRegExp (Cat [amountGroup; Star ws; currencyWord]) true;
    (* /total\s*(?:amount|payment|charge|price)?(?:\s*:|\s+of)?\s*\$?\s*(..)/gi *)
    mkRegExp
      (Cat [ Lit "total"; Star ws;
             Opt (Any [Lit "amount"; Lit "payment"; Lit "charge"; Lit "price"]);
             Opt (Any [Cat [Star ws; Chr ":"]; Cat [Plus ws; Lit "of"]]);
             amountTail ]) true;
    (* /amount\s*(?::|\s+of)?\s*\$?\s*(..)/gi *)
    mkRegExp (Cat [Lit "amount"; Star ws; colonOrOf; amountTail]) true;
    (* /payment\s*(?:of|:)?\s*\$?\s*(..)/gi *)
    mkRegExp
      (Cat [ Lit "payment"; Star ws; Opt (Any [Lit "of"; Chr ":"]);
             amountTail ]) true;
    (* /charged\s*(?::|\s+of)?\s*\$?\s*(..)/gi *)
    mkRegExp (Cat [Lit "charged"; Star ws; colonOrOf; amountTail]) true;
    (* /price\s*(?::|\s+of)?\s*\$?\s*(..)/gi *)
    mkRegExp (Cat [Lit "price"; Star ws; colonOrOf; amountTail]) true;
    (* /cost\s*(?::|\s+of)?\s*\$?\s*(..)/gi *)
    mkRegExp (Cat [Lit "cost"; Star ws; colonOrOf; amountTail]) true;
    (* /bill\s*(?::|\s+of)?\s*\$?\s*(..)/gi *)
    mkRegExp (Cat [Lit "bill"; Star ws; colonOrOf; amountTail]) true;
    (* /invoice\s*(?::|\s+of)?\s*\$?\s*(..)/gi *)
    mkRegExp (Cat [Lit "invoice"; Star ws; colonOrOf; amountTail]) true;
    (* /(?:USD|dollars|dollar)\s*(..)/gi *)
    mkRegExp (Cat [currencyWord; Star ws; amountGroup]) true ].

(** An element of [results]: [{ amount, text, index }]. *)
Record AmountMatch : Type :=
  mkAmount { m_amount : number; m_text : string; m_index : Z }.

(** The body of the [while] loop for one match. *)
Definition candidate (m : MatchResult) : list AmountMatch :=
  let fullMatch := m0 m in
  let numericPart := match m1 m with Some g => g | None => "" end in
  let amount := parseFloat (remove_commas numericPart) in
  if negb (isNaN amount) && ltb zero amount
  then [mkAmount amount fullMatch (index m)]
  else [].

Definition extractAmounts (text : string) : list AmountMatch :=
  flat_map (fun regex => flat_map candidate (execAll regex text)) amountRegexes.

(** The first category, in table order, one of whose keywords occurs in
    [text]. *)
Definition determineCategory (text : string) : string :=
  match find (fun entry => existsb (includes text) (snd entry))
             categoryKeywords with
  | Some (category, _) => category
  | None => "unknown"
  end.

(** [[A-Za-z0-9\s&]] *)
Definition nameChar (c : ascii) : bool :=
  isUpper c || isLower c || isDigit c || isSpace c || (code c =? 38)%nat.

Definition merchantPatterns : list RegExp :=
  [ (* /(?:purchase|payment|transaction|charge)\s+(?:at|to|from)\s+([A-Za-z0-9\s&]+)/i *)
    mkRegExp
      (Cat [ Any [Lit "purchase"; Lit "payment"; Lit "transaction"; Lit "charge"];
             Plus ws; Any [Lit "at"; Lit "to"; Lit "from"]; Plus ws;
             Grp (Plus (Cls nameChar)) ]) true;
    (* /(?:from|at|to)\s+([A-Za-z0-9\s&]+)\s+(?:on|for)/i *)
    mkRegExp
      (Cat [ Any [Lit "from"; Lit "at"; Lit "to"]; Plus ws;
             Grp (Plus (Cls nameChar)); Plus ws; Any [Lit "on"; Lit "for"] ])
      true;
    (* /([A-Za-z0-9\s&]+)\s+(?:store|restaurant|shop|market)/i *)
    mkRegExp
      (Cat [ Grp (Plus (Cls nameChar)); Plus ws;
             Any [Lit "store"; Lit "restaurant"; Lit "shop"; Lit "market"] ])
      true ].

(** [/([A-Z][A-Za-z0-9\s&]{2,20})/g] *)
Definition businessNamePattern : RegExp :=
  mkRegExp (Grp (Cat [Cls isUpper; Rep 2 20 (Cls nameChar)])) false.

(** The [for] loop over the merchant patterns: the first pattern that
    matches with a non-empty group 1 gives the title. *)
Fixpoint merchantTitle (patterns : list RegExp) (textWithoutAmount : string)
  : option string :=
  match patterns with
  | [] => None
  | pattern :: rest =>
      match search pattern textWithoutAmount 0 with
      | Some m =>
          match m1 m with
          | Some g =>
              if (String.length g =? 0)%nat then merchantTitle rest textWithoutAmount
              else Some (trim g)
          | None => merchantTitle rest textWithoutAmount
          end
      | None => merchantTitle rest textWithoutAmount
      end
  end.

Definition createTitle (text amountText : string) : string :=
  let textWithoutAmount := remove_first text amountText in
  match merchantTitle merchantPatterns textWithoutAmount with
  | Some t => t
  | None =>
      match execAll businessNamePattern textWithoutAmount with
      | m :: _ => trim (match m1 m with Some g => g | None => m0 m end)
      | [] => "Expense"
      end
  end.

(** [Array.prototype.sort] is a stable sort by the comparator: [y] goes
    before [x] when [compare x y > 0]. *)
Fixpoint insert {A : Type} (compare : A -> A -> number) (x : A) (l : list A)
  : list A :=
  match l with
  | [] => [x]
  | y :: l' => if ltb zero (compare x y) then y :: insert compare x l'
               else x :: l
  end.

Definition sort {A : Type} (compare : A -> A -> number) (l : list A) : list A :=
  fold_right (insert compare) [] l.

(** The literal [0.01]. *)
Definition cent : number := round_ratio 1 100.

(** The lower-cased window of 50 code units around a match. *)
Definition surroundingText (emailText : string) (m : AmountMatch) : string :=
  let start := Z.max 0 (m_index m - 50) in
  let end_ := Z.min (Z.of_nat (String.length emailText))
                    (m_index m + Z.of_nat (String.length (m_text m)) + 50) in
  toLowerCase (substring emailText start end_).

Definition lineItem (emailText : string) (m : AmountMatch) : ExpenseItem :=
  let surrounding := surroundingText emailText m in
  let head := determineCategory surrounding in
  let title := createTitle surrounding (m_text m) in
  mkItem (m_amount m) title head.

(** The [for] loop over [amountMatches], with its [continue]. *)
Definition lineItems (emailText : string) (amountMatches : list AmountMatch)
           (totalAmount : number) : list ExpenseItem :=
  flat_map
    (fun m =>
       if (2 <? List.length amountMatches)%nat && eqb (m_amount m) totalAmount
       then []
       else [lineItem emailText m])
    amountMatches.

Definition sumAmounts (items : list ExpenseItem) : number :=
  fold_left (fun sum item => add sum (amount item)) items zero.

Definition failed : string := "Failed to process the email text".

Definition sortedAmounts (amountMatches : list AmountMatch) : list AmountMatch :=
  sort (fun a b => sub (m_amount b) (m_amount a)) amountMatches.

(** The item pushed when the loop left [items] empty. *)
Definition wholeEmail (totalAmount : number) : ExpenseItem :=
  mkItem totalAmount "Expense from email" "unknown".

(** [items] as it stands before the total is computed. *)
Definition expenseItems (emailText : string) (amountMatches : list AmountMatch)
           (totalAmount : number) : list ExpenseItem :=
  let items :=
    if (1 <? List.length amountMatches)%nat
    then lineItems emailText amountMatches totalAmount
    else [] in
  if (List.length items =? 0)%nat then [wholeEmail totalAmount] else items.

Definition finalTotal (items : list ExpenseItem) (totalAmount : number) : number :=
  let calculatedTotal := sumAmounts items in
  if ltb (abs (sub calculatedTotal totalAmount)) cent
     || (1 <? List.length items)%nat
  then calculatedTotal
  else totalAmount.

Definition handleGetEmailExpense (emailText : string) : result ExpenseData :=
  let amountMatches := extractAmounts emailText in
  if (List.length amountMatches =? 0)%nat then Throw failed
  else
    match sortedAmounts amountMatches with
    | [] => Throw failed
    | largest :: _ =>
        let totalAmount := m_amount largest in
        let items := expenseItems emailText amountMatches totalAmount in
        Ok (mkData (finalTotal items totalAmount) items)
    end.

(** ** The bill-scanning module: [handleGetInvoiceData]

    [extractJSON] returns [null], the object built from the markdown form,
    or whatever [JSON.parse] returned: a value of the type below. *)

#[local] Set Warnings "-register-all".

Inductive jsval : Type :=
| JUndefined
| JNull
| JBool (b : bool)
| JNum (x : number)
| JStr (s : string)
| JArr (elements : list jsval)
| JObj (properties : list (string * jsval)).

Module Js.

(** [!!v] *)
Definition truthy (v : jsval) : bool :=
  match v with
  | JUndefined | JNull => false
  | JBool b => b
  | JNum x => negb (isNaN x || eqb x zero)
  | JStr s => negb (String.length s =? 0)%nat
  | JArr _ | JObj _ => true
  end.

Fixpoint lookup (key : string) (properties : list (string * jsval)) : jsval :=
  match properties with
  | [] => JUndefined
  | (k, v) :: rest => if String.eqb k key then v else lookup key rest
  end.

(** [v.key] for the keys read here ([total], [items], [amount], [head]),
    none of which is inherited: an own property of an object, [undefined]
    otherwise. *)
Definition get (v : jsval) (key : string) : jsval :=
  match v with
  | JObj properties => lookup key properties
  | _ => JUndefined
  end.

Fixpoint assign (key : string) (x : jsval) (properties : list (string * jsval))
  : list (string * jsval) :=
  match properties with
  | [] => [(key, x)]
  | (k, v) :: rest =>
      if String.eqb k key then (k, x) :: rest else (k, v) :: assign key x rest
  end.

(** [v.key = x] on an object. *)
Definition set (v : jsval) (key : string) (x : jsval) : jsval :=
  match v with
  | JObj properties => JObj (assign key x properties)
  | _ => v
  end.

Definition isArray (v : jsval) : bool :=
  match v with JArr _ => true | _ => false end.

Definition elements_of (v : jsval) : list jsval :=
  match v with JArr l => l | _ => [] end.

(** [l.map(f)] where [f] may throw. *)
Fixpoint mapM {A B : Type} (f : A -> option B) (l : list A) : option (list B) :=
  match l with
  | [] => Some []
  | x :: l' =>
      match f x with
      | None => None
      | Some y =>
          match mapM f l' with
          | None => None
          | Some ys => Some (y :: ys)
          end
      end
  end.

End Js.

Import Js.

Definition validHeads : list string :=
  [ "food"; "rent"; "travel"; "utility"; "entertainment"; "shopping";
    "health"; "education"; "gift"; "fitness"; "investment"; "unknown" ].

Definition billFailed : string := "Failed to process the bill image".

Section Invoice.

(** The conversions of the language that [Number(v)] goes through for a
    string and for an object or array: the second may throw
    ([None]). *)
Variable StringToNumber : string -> number.
Variable ObjectToNumber : jsval -> option number.

(** [Number(v)] *)
Definition Number (v : jsval) : option number :=
  match v with
  | JUndefined => Some NaN
  | JNull => Some zero
  | JBool b => Some (if b then of_Z 1 else zero)
  | JNum x => Some x
  | JStr s => Some (StringToNumber s)
  | JArr _ | JObj _ => ObjectToNumber v
  end.

(** The callback of [parsedData.items.map]:
    [{...item, amount: Number(item.amount), head: ...}]; [None] when it
    throws ([item.head] is not a string). *)
Definition normalizeItem (item : jsval) : option jsval :=
  match Number (get item "amount") with
  | None => None
  | Some a =>
      match get item "head" with
      | JStr h =>
          let lowered := toLowerCase h in
          let head' :=
            if existsb (String.eqb lowered) validHeads
            then lowered else "unknown" in
          Some (set (set item "amount" (JNum a)) "head" (JStr head'))
      | _ => None
      end
  end.

(** [handleGetInvoiceData] from the value [parsedData] that [extractJSON]
    returned on; every exception is caught and thrown again as one
    error. *)
Definition handleGetInvoiceData (parsedData : jsval) : result jsval :=
  if negb (truthy parsedData)
     || negb (truthy (get parsedData "total"))
     || negb (isArray (get parsedData "items"))
     || (List.length (elements_of (get parsedData "items")) =? 0)%nat
  then Throw billFailed
  else
    match Number (get parsedData "total") with
    | None => Throw billFailed
    | Some t =>
        match mapM normalizeItem (elements_of (get parsedData "items")) with
        | None => Throw billFailed
        | Some items' =>
            Ok (set (set parsedData "total" (JNum t)) "items" (JArr items'))
        end
    end.

End Invoice.

(** ** Inputs used below *)

Definition paymentEmail : string := "Your payment of $45.00 was successful".

Definition repeatedTotalEmail : string :=
  "Order $10.00, tip $3.00, card $10.00".

Definition receiptEmail : string := "Coffee $4.50, bagel $2.25, total $6.75".

Definition equalPairEmail : string := "Ticket $7.00, refund fee $7.00".

Definition sameTwiceEmail : string := "Two charges: $5 and $5".

Definition sameThriceEmail : string := "$5 then $5 then $5".

(** What [JSON.parse] makes of
    [{"total": -5, "items": [{"amount": 5, "title": "Refund", "head": "shopping"}]}]. *)
Definition refundBill : jsval :=
  JObj [ ("total", JNum (of_Z (-5)));
         ("items", JArr [ JObj [ ("amount", JNum (of_Z 5));
                                 ("title", JStr "Refund");
                                 ("head", JStr "shopping") ] ]) ].

Fixpoint repeat_string (n : nat) (s : string) : string :=
  match n with
  | O => EmptyString
  | S n' => s ++ repeat_string n' s
  end.

(** An amount of 310 digits. *)
Definition hugeEmail : string := "$1" ++ repeat_string 103 ",000".

(** What [JSON.parse] makes of
    [{"total": "n/a", "items": [{"amount": 12, "title": "Lunch", "head": "Groceries"}]}]. *)
Definition unreadableTotalBill : jsval :=
  JObj [ ("total", JStr "n/a");
         ("items", JArr [ JObj [ ("amount", JNum (of_Z 12));
                                 ("title", JStr "Lunch");
                                 ("head", JStr "Groceries") ] ]) ].

(** An item of the parsed list that the callback of [map] accepts: its
    amount converts and its category is a string. *)
Definition wellFormedItem (s2n : string -> number) (o2n : jsval -> option number)
           (item : jsval) : Prop :=
  Number s2n o2n (get item "amount") <> None
  /\ exists h, get item "head" = JStr h.

(** What [JSON.parse] makes of
    [{"total": 18.5, "items": [{"amount": 12, "title": "Lunch", "head": "FOOD"},
                               {"amount": 6.5, "title": "Parking", "head": "parking"}]}]. *)
Definition lunchBill : jsval :=
  JObj [ ("total", JNum (round_ratio 185 10));
         ("items", JArr [ JObj [ ("amount", JNum (of_Z 12));
                                 ("title", JStr "Lunch");
                                 ("head", JStr "FOOD") ];
                          JObj [ ("amount", JNum (round_ratio 65 10));
                                 ("title", JStr "Parking");
                                 ("head", JStr "parking") ] ]) ].

(** No code unit of [s] is one of A-Z. *)
Fixpoint noUpper (s : string) : bool :=
  match s with
  | EmptyString => true
  | String c s' => negb (isUpper c) && noUpper s'
  end.

Definition dinerEmail : string :=
  "Lunch payment to Joes Diner for $12.50, coffee at Starbucks on Monday $4.25. Total: $16.75".

(** ** Words and groups of a pattern *)

Local Infix "+++" := String.append (right associativity, at level 60).

(** What a pattern accepts: [accepts ic r w c c'] when [r] can match the
    word [w], group 1 going from [c] to [c']. *)
Inductive accepts (ic : bool) : regex -> string -> capture -> capture -> Prop :=
| acc_Eps c : accepts ic Eps "" c c
| acc_Chr a x c :
    chr_match ic a x = true -> accepts ic (Chr a) (String x "") c c
| acc_Cls (p : ascii -> bool) x c :
    p x = true -> accepts ic (Cls p) (String x "") c c
| acc_Seq r1 r2 w1 w2 c c1 c2 :
    accepts ic r1 w1 c c1 -> accepts ic r2 w2 c1 c2 ->
    accepts ic (Seq r1 r2) (w1 +++ w2) c c2
| acc_Alt_l r1 r2 w c c' : accepts ic r1 w c c' -> accepts ic (Alt r1 r2) w c c'
| acc_Alt_r r1 r2 w c c' : accepts ic r2 w c c' -> accepts ic (Alt r1 r2) w c c'
| acc_Star_nil r c : accepts ic (Star r) "" c c
| acc_Star_cons r w1 w2 c c1 c2 :
    accepts ic r w1 c c1 -> w1 <> "" -> accepts ic (Star r) w2 c1 c2 ->
    accepts ic (Star r) (w1 +++ w2) c c2
| acc_Grp r w c c' : accepts ic r w c c' -> accepts ic (Grp r) w c (Some w).

(** [every p s]: all code units of [s] satisfy [p]. *)
Fixpoint every (p : ascii -> bool) (s : string) : bool :=
  match s with
  | EmptyString => true
  | String c s' => p c && every p s'
  end.

(** [infix g s]: [g] occurs in [s]. *)
Definition infix (g s : string) : Prop :=
  exists pre post, s = pre +++ g +++ post.

(** The code units that one step of a pattern can consume all satisfy
    [p]. *)
Fixpoint wordsOver (ic : bool) (p : ascii -> bool) (r : regex) : Prop :=
  match r with
  | Eps => True
  | Chr a => forall x, chr_match ic a x = true -> p x = true
  | Cls q => forall x, q x = true -> p x = true
  | Seq r1 r2 | Alt r1 r2 => wordsOver ic p r1 /\ wordsOver ic p r2
  | Star r1 | Grp r1 => wordsOver ic p r1
  end.

(** Every group of the pattern only consumes code units that satisfy
    [p]. *)
Fixpoint groupsOver (ic : bool) (p : ascii -> bool) (r : regex) : Prop :=
  match r with
  | Eps | Chr _ | Cls _ => True
  | Seq r1 r2 | Alt r1 r2 => groupsOver ic p r1 /\ groupsOver ic p r2
  | Star r1 => groupsOver ic p r1
  | Grp r1 => wordsOver ic p r1
  end.

(** No code unit of [s] is a decimal digit. *)
Definition noDigit (s : string) : bool := every (fun c => negb (isDigit c)) s.

(** A pattern that accepts no word without a decimal digit. *)
Definition needsDigit (ic : bool) (r : regex) : Prop :=
  forall w c c', accepts ic r w c c' -> noDigit w = false.

(** Every match of a group of [r] satisfies [Q]. *)
Fixpoint groupsSat (ic : bool) (Q : string -> Prop) (r : regex) : Prop :=
  match r with
  | Eps | Chr _ | Cls _ => True
  | Seq r1 r2 | Alt r1 r2 => groupsSat ic Q r1 /\ groupsSat ic Q r2
  | Star r1 => groupsSat ic Q r1
  | Grp r1 => forall w c c', accepts ic r1 w c c' -> Q w
  end.

(** The value of a string of decimal digits, continuing from [acc]. *)
Fixpoint decimal (acc : Z) (s : string) : Z :=
  match s with
  | EmptyString => acc
  | String c s' => decimal (10 * acc + Z.of_nat (code c - 48)) s'
  end.

(** What is left of a matched amount when the commas are removed: digits,
    then nothing or a point and two digits. *)
Definition amountLiteral (g : string) : Prop :=
  exists whole cents,
    remove_commas g = whole +++ cents
    /\ every isDigit whole = true /\ whole <> ""
    /\ (cents = ""
        \/ exists d1 d2,
             isDigit d1 = true /\ isDigit d2 = true
             /\ cents = String "." (String d1 (String d2 ""))).

(** A decimal digit or a comma. *)
Definition digitOrComma (c : ascii) : bool := isDigit c || (code c =? 44)%nat.

(** Any code unit but the dollar sign. *)
Definition notDollar (c : ascii) : bool := negb (code c =? 36)%nat.

(** A code unit that is one of A-Z or that [toLowerCase] leaves as it is. *)
Definition upperOrStable (c : ascii) : bool :=
  isUpper c || Ascii.eqb (lowerChar c) c.

(** [key in properties] *)
Definition has_key (key : string) (properties : list (string * jsval)) : bool :=
  existsb (fun entry => String.eqb (fst entry) key) properties.

(** ** src/utility/cronScheduler.ts *)

(** The table [keywordToCategory], in the order of its keys. *)
Definition keywordToCategory : list (string * list string) :=
  [ ("food", ["pizza"; "burger"; "sandwich"; "pasta"; "coffee"; "snack";
              "dinner"; "lunch"; "breakfast"; "food"]);
    ("rent", ["rent"; "lease"; "mortgage"]);
    ("utility", ["electricity"; "water"; "gas"; "internet"; "phone";
                 "heating"; "cooling"; "electric bill"; "water bill";
                 "gas bill"; "internet bill"; "phone bill"; "utility"]);
    ("travel", ["flight"; "train"; "bus"; "taxi"; "uber"; "lyft";
                "car rental"; "airfare"; "metro"; "travel"]);
    ("entertainment", ["movie"; "netflix"; "concert"; "game"; "party"; "show";
                       "theater"; "cinema"; "entertainment"]);
    ("shopping", ["clothes"; "shoes"; "electronics"; "makeup"; "accessories";
                  "jewelry"; "furniture"; "appliances"; "shopping"]);
    ("health", ["medicine"; "doctor"; "hospital"; "pharmacy"; "checkup";
                "therapy"; "surgery"; "health"]);
    ("education", ["books"; "tuition"; "course"; "workshop"; "seminar";
                   "study material"; "online class"; "education"]);
    ("gift", ["gift"; "present"; "donation"; "charity"; "wedding"; "birthday"]);
    ("fitness", ["gym"; "yoga"; "workout"; "trainer"; "sports"; "exercise";
                 "fitness"]);
    ("investment", ["stocks"; "shares"; "mutual funds"; "crypto"; "savings";
                    "bonds"; "investment"]);
    ("unknown", []) ].

(** [getSpendType]: the first key of the table one of whose keywords occurs
    in the lower-cased head; [category || "unknown"]. *)
Definition getSpendType (transactionHead : string) : string :=
  let lowerCaseHead := toLowerCase transactionHead in
  match find (fun cat => existsb (includes lowerCaseHead) (snd cat))
             keywordToCategory with
  | Some (category, _) =>
      if (String.length category =? 0)%nat then "unknown" else category
  | None => "unknown"
  end.

(** ** src/model/user.model.ts *)

(** The [enum] of [expenses.type] in [UserSchema]. *)
Definition expenseTypeEnum : list string :=
  [ "food"; "rent"; "travel"; "utility"; "entertainment"; "shopping";
    "health"; "education"; "gift"; "fitness"; "investment"; "unknown" ].

(** ** src/utility/emailReader.ts *)

(** How a call ends: with a value, or with an exception. The exceptions
    met in this file are caught and logged, or thrown again as they are;
    their values are never looked at. *)
Inductive completion (A : Type) : Type :=
| Returns (a : A)
| Raises.
Arguments Returns {A} a.
Arguments Raises {A}.

(** An exception of the first step ends the whole. *)
Definition bind {A B : Type} (m : completion A) (f : A -> completion B)
  : completion B :=
  match m with
  | Returns a => f a
  | Raises => Raises
  end.

Notation "x <- m ;; k" := (bind m (fun x => k))
  (at level 61, m at next level, right associativity).

(** [v.key] where [v] may be [null] or [undefined], for the keys read in
    this file ([payload], [parts], [mimeType], [body], [data]). *)
Definition member (v : jsval) (key : string) : completion jsval :=
  match v with
  | JUndefined | JNull => Raises
  | _ => Returns (get v key)
  end.

(** What [for (const x of v)] goes through: the elements of an array, the
    characters of a string; nothing else among these values is iterable. *)
Definition iterate (v : jsval) : completion (list jsval) :=
  match v with
  | JArr elements => Returns elements
  | JStr s => Returns (map (fun c => JStr (String c "")) (list_ascii_of_string s))
  | _ => Raises
  end.

(** [part.mimeType === "text/plain" && part.body && part.body.data]: the
    data when the test is truthy. *)
Definition plainTextData (part : jsval) : completion (option jsval) :=
  mimeType <- member part "mimeType" ;;
  match mimeType with
  | JStr s =>
      if String.eqb s "text/plain" && truthy (get part "body")
         && truthy (get (get part "body") "data")
      then Returns (Some (get (get part "body") "data"))
      else Returns None
  | _ => Returns None
  end.

(** The loop over a list of parts: the data of the first part that passes
    the test. *)
Fixpoint firstPlainText (parts : list jsval) : completion (option jsval) :=
  match parts with
  | [] => Returns None
  | part :: rest =>
      found <- plainTextData part ;;
      match found with
      | Some data => Returns (Some data)
      | None => firstPlainText rest
      end
  end.

(** The loop over the parts of the parts. *)
Fixpoint nestedPlainText (parts : list jsval) : completion (option jsval) :=
  match parts with
  | [] => Returns None
  | part :: rest =>
      nested <- member part "parts" ;;
      if truthy nested then
        nestedParts <- iterate nested ;;
        found <- firstPlainText nestedParts ;;
        match found with
        | Some data => Returns (Some data)
        | None => nestedPlainText rest
        end
      else nestedPlainText rest
  end.

(** [if (message.payload.parts) { for (const part of ...) ... }] *)
Definition overParts (payload : jsval)
           (loop : list jsval -> completion (option jsval))
  : completion (option jsval) :=
  if truthy (get payload "parts")
  then parts <- iterate (get payload "parts") ;; loop parts
  else Returns None.

Section EmailReader.

(** [Buffer.from(data, "base64").toString("utf-8")], which may throw (on
    data that is not a string, say). *)
Variable base64ToUtf8 : jsval -> completion string.

(** [return Buffer.from(data, "base64").toString("utf-8")] *)
Definition decoded (data : jsval) : completion (option string) :=
  s <- base64ToUtf8 data ;; Returns (Some s).

(** [extractEmailBody]: [Returns None] is [null]. *)
Definition extractEmailBody (message : jsval) : completion (option string) :=
  payload <- member message "payload" ;;
  if negb (truthy payload) then Returns None
  else
    found <- overParts payload firstPlainText ;;
    match found with
    | Some data => decoded data
    | None =>
        if truthy (get payload "body")
           && truthy (get (get payload "body") "data")
        then decoded (get (get payload "body") "data")
        else
          found' <- overParts payload nestedPlainText ;;
          match found' with
          | Some data => decoded data
          | None => Returns None
          end
    end.

End EmailReader.

(** A part that passes the test of [extractEmailBody], with its data. *)
Definition plainTextPart (part data : jsval) : Prop :=
  get part "mimeType" = JStr "text/plain"
  /\ data = get (get part "body") "data"
  /\ truthy data = true.

(** A part that does not pass it. *)
Definition noPlainText (part : jsval) : Prop :=
  forall data, ~ plainTextPart part data.

(** An object whose type is not text/plain. *)
Definition otherPart (part : jsval) : Prop :=
  (exists properties, part = JObj properties)
  /\ get part "mimeType" <> JStr "text/plain".

(** A stand-in for the decoder: the data taken as the text. *)
Definition plainDecoder (data : jsval) : completion string :=
  match data with
  | JStr s => Returns s
  | _ => Raises
  end.

(** A text/plain part with its data. *)
Definition textPart (data : string) : jsval :=
  JObj [ ("mimeType", JStr "text/plain");
         ("body", JObj [("data", JStr data)]) ].

(** A part of type [kind] made of [parts]. *)
Definition multipart (kind : string) (parts : list jsval) : jsval :=
  JObj [ ("mimeType", JStr kind); ("parts", JArr parts) ].

(** A message whose only text/plain part lies three levels deep. *)
Definition deepMessage : jsval :=
  JObj [ ("payload",
          multipart "multipart/mixed"
            [ multipart "multipart/related"
                [ multipart "multipart/alternative"
                    [ textPart "Total: $5.00" ] ] ]) ].

(** A message with a text/plain and a text/html alternative. *)
Definition alternativeMessage : jsval :=
  JObj [ ("payload",
          multipart "multipart/alternative"
            [ textPart "Total: $5.00";
              JObj [ ("mimeType", JStr "text/html");
                     ("body", JObj [("data", JStr "<b>Total: $5.00</b>")]) ] ]) ].

(** [s.split(",")] *)
Fixpoint splitComma (s : string) : list string :=
  match s with
  | EmptyString => [EmptyString]
  | String c s' =>
      if (code c =? 44)%nat then EmptyString :: splitComma s'
      else match splitComma s' with
           | [] => [String c EmptyString]
           | w :: ws => String c w :: ws
           end
  end.

(** [l.join(sep)] *)
Fixpoint join (sep : string) (l : list string) : string :=
  match l with
  | [] => EmptyString
  | [x] => x
  | x :: rest => String.append x (String.append sep (join sep rest))
  end.

(** The query sent to the mail service. *)
Definition emailQuery (fromEmail : string) : string :=
  let emailAddresses := map trim (splitComma fromEmail) in
  join " OR " (map (fun email => String.append "from:" email) emailAddresses).

(** The default value of [fromEmail]. *)
Definition defaultFromEmail : string :=
  "onlinebanking@ealerts.bankofamerica.com,harbanstoor01@gmail.com".

(** An element of [processedExpenses]. *)
Record ProcessedExpense : Type :=
  mkProcessed { messageId : string; expense : ExpenseData }.

Section Reader.

Variable base64ToUtf8 : jsval -> completion string.

(** The collection of processed emails, with the two operations used on
    it: [findOne({messageId, userId})], as the truthiness of its result,
    and [new ProcessedEmailModel({messageId, userId, ...}).save()]. Both
    may throw; a [save] that throws is taken to have recorded nothing. *)
Variable store : Type.
Variable findOne : store -> string -> string -> completion bool.
Variable save : store -> string -> string -> completion store.

(** The mail service: [users.messages.list] with the query and
    [maxResults], giving the ids of [response.data.messages] ([None] when
    the field is missing), and [users.messages.get], giving
    [fullMessage.data]. The ids are strings, as the types of the service
    have them, and within one run the service answers the request for one
    message in one way. *)
Variable listMessages : string -> number -> completion (option (list string)).
Variable getMessage : string -> completion jsval.

(** The [for] loop over the listed messages. An exception of [findOne]
    leaves the function; everything after it is inside a [try] whose
    [catch] only logs. *)
Fixpoint processMessages (userId : string) (messages : list string)
         (db : store) (processedExpenses : list ProcessedExpense)
  : store * completion (list ProcessedExpense) :=
  match messages with
  | [] => (db, Returns processedExpenses)
  | id :: rest =>
      match findOne db id userId with
      | Raises => (db, Raises)
      | Returns true => processMessages userId rest db processedExpenses
      | Returns false =>
          match getMessage id with
          | Raises => processMessages userId rest db processedExpenses
          | Returns fullMessage =>
              match extractEmailBody base64ToUtf8 fullMessage with
              | Returns (Some emailBody) =>
                  if (String.length emailBody =? 0)%nat
                  then processMessages userId rest db processedExpenses
                  else
                    match handleGetEmailExpense emailBody with
                    | Throw _ =>
                        processMessages userId rest db processedExpenses
                    | Ok expenseData =>
                        match save db id userId with
                        | Raises =>
                            processMessages userId rest db processedExpenses
                        | Returns db' =>
                            processMessages userId rest db'
                              (processedExpenses
                                 ++ [mkProcessed id expenseData])
                        end
                    end
              | _ => processMessages userId rest db processedExpenses
              end
          end
      end
  end.

(** [readEmailsFromSender(userId, auth, fromEmail, maxResults)] run on the
    collection [db]: the collection afterwards, and the result. *)
Definition readEmailsFromSender (userId fromEmail : string)
           (maxResults : number) (db : store)
  : store * completion (list ProcessedExpense) :=
  match listMessages (emailQuery fromEmail) maxResults with
  | Raises => (db, Raises)
  | Returns response =>
      let messages := match response with Some l => l | None => [] end in
      if (List.length messages =? 0)%nat then (db, Returns [])
      else processMessages userId messages db []
  end.

End Reader.

(** What the proofs ask of the collection: [findOne] tells whether a pair
    is recorded, and a [save] that succeeds records its pair and nothing
    else. *)
Definition storeSound (store : Type)
           (findOne : store -> string -> string -> completion bool)
           (save : store -> string -> string -> completion store)
           (stored : store -> string -> string -> Prop) : Prop :=
  (forall db id u b, findOne db id u = Returns b ->
                     (b = true <-> stored db id u))
  /\ (forall db id u db', save db id u = Returns db' ->
        forall id' u', stored db' id' u'
                       <-> stored db id' u' \/ (id' = id /\ u' = u)).

(** A collection kept as a list, for the examples. *)
Definition listFindOne (db : list (string * string)) (id u : string)
  : completion bool :=
  Returns (existsb (fun e => String.eqb (fst e) id && String.eqb (snd e) u) db).

(** [save] appends the pair. *)
Definition listSave (db : list (string * string)) (id u : string)
  : completion (list (string * string)) :=
  Returns (db ++ [(id, u)]).

(** The pairs recorded in the list. *)
Definition listStored (db : list (string * string)) (id u : string) : Prop :=
  In (id, u) db.

(** A mailbox with three messages: a receipt, a greeting without amounts,
    and a message that cannot be fetched. *)
Definition sampleList (q : string) (maxResults : number)
  : completion (option (list string)) :=
  Returns (Some ["m1"; "m2"; "m3"]).

(** The messages of that mailbox; the data stand for themselves under
    [plainDecoder]. *)
Definition sampleGet (id : string) : completion jsval :=
  if String.eqb id "m1"
  then Returns (JObj [("payload", JObj [("body", JObj [("data", JStr receiptEmail)])])])
  else if String.eqb id "m2"
  then Returns (JObj [("payload", JObj [("body", JObj [("data", JStr "hello")])])])
  else Raises.

(** An entry of the result that carries the expense which the text
    pipeline reads from the decoded body of its message. *)
Definition fromPipeline (base64ToUtf8 : jsval -> completion string)
           (getMessage : string -> completion jsval)
           (messages : list string) (r : ProcessedExpense) : Prop :=
  In (messageId r) messages
  /\ exists fullMessage emailBody,
       getMessage (messageId r) = Returns fullMessage
       /\ extractEmailBody base64ToUtf8 fullMessage = Returns (Some emailBody)
       /\ emailBody <> ""
       /\ handleGetEmailExpense emailBody = Ok (expense r).

(** The same mailbox later: the receipt is still listed, and a new payment
    notice has arrived. *)
Definition laterList (q : string) (maxResults : number)
  : completion (option (list string)) :=
  Returns (Some ["m4"; "m1"]).

(** Its messages. *)
Definition laterGet (id : string) : completion jsval :=
  if String.eqb id "m4"
  then Returns (JObj [("payload", JObj [("body", JObj [("data", JStr paymentEmail)])])])
  else sampleGet id.

(** ** The digits of a matched text *)

(** The code units of [s] that satisfy [p], in their order. *)
Fixpoint keep (p : ascii -> bool) (s : string) : string :=
  match s with
  | EmptyString => EmptyString
  | String c s' => if p c then String c (keep p s') else keep p s'
  end.

(** The code unit [a] occurs in [s]. *)
Fixpoint occurs (a : ascii) (s : string) : bool :=
  match s with
  | EmptyString => false
  | String c s' => Ascii.eqb c a || occurs a s'
  end.

(** Neither a decimal digit nor the point. *)
Definition notDigitPoint (c : ascii) : bool :=
  negb (isDigit c) && negb (Ascii.eqb c ".").

(** A pattern without a group. *)
Fixpoint noGroup (r : regex) : bool :=
  match r with
  | Eps | Chr _ | Cls _ => true
  | Seq r1 r2 | Alt r1 r2 => noGroup r1 && noGroup r2
  | Star r1 => noGroup r1
  | Grp _ => false
  end.

(** Every match of [r] sets group 1, to a piece of the matched word, and
    the code units of the word before and after that piece satisfy [p]. *)
Definition groupAmid (ic : bool) (p : ascii -> bool) (r : regex) : Prop :=
  forall w c c',
    accepts ic r w c c' ->
    exists a g b,
      w = a +++ g +++ b
      /\ every p a = true /\ every p b = true /\ c' = Some g.

(** ** Upper and lower case *)

(** A pattern that cannot tell a code unit from its lower-case form. *)
Fixpoint caseBlind (ic : bool) (r : regex) : Prop :=
  match r with
  | Eps => True
  | Chr a => forall x, chr_match ic a (lowerChar x) = chr_match ic a x
  | Cls p => forall x, p (lowerChar x) = p x
  | Seq r1 r2 | Alt r1 r2 => caseBlind ic r1 /\ caseBlind ic r2
  | Star r1 | Grp r1 => caseBlind ic r1
  end.

(** A match and a candidate, with their texts in lower case. *)
Definition lowerMatch (m : MatchResult) : MatchResult :=
  mkMatch (toLowerCase (m0 m)) (option_map toLowerCase (m1 m)) (index m).

Definition lowerAmount (m : AmountMatch) : AmountMatch :=
  mkAmount (m_amount m) (toLowerCase (m_text m)) (m_index m).

(** What an expense says apart from the titles of its items. *)
Definition amountsAndHeads (r : result ExpenseData)
  : result (number * list (number * string)) :=
  match r with
  | Ok d => Ok (total d, map (fun item => (amount item, head item)) (items d))
  | Throw message => Throw message
  end.

(** A receipt with capitals: two amounts, more than 50 code units apart. *)
Definition capitalEmail : string :=
  "LUNCH at Subway $12.50. Thank you for your visit, we hope to see you again soon. TAXI to the airport $30.00".

(** A collection whose [findOne] fails on the message "m2". *)
Definition failingFindOne (db : list (string * string)) (id u : string)
  : completion bool :=
  if String.eqb id "m2" then Raises else listFindOne db id u.

(** * Properties *)

(** ** Numbers *)

Section NumberFacts.

Lemma positive_cases (x : number) :
  ltb zero x = true ->
  x = S754_infinity false \/ exists m e, x = S754_finite false m e.
Proof.
  destruct x as [s|[|]| |[|] m e]; cbn; try discriminate; eauto.
Qed.

Lemma positive_not_NaN (x : number) : ltb zero x = true -> isNaN x = false.
Proof. destruct x; cbn; congruence. Qed.

Lemma positive_nonneg (x : number) : ltb zero x = true -> leb zero x = true.
Proof.
  unfold ltb, leb, SFltb, SFleb. destruct (SFcompare zero x) as [[| |]|]; congruence.
Qed.

Lemma compare_cont_refl (m : positive) : Pos.compare_cont Eq m m = Eq.
Proof. exact (Pos.compare_refl m). Qed.

Lemma eqb_refl_positive (x : number) : ltb zero x = true -> eqb x x = true.
Proof.
  intros H. destruct (positive_cases x H) as [->|(m & e & ->)]; [reflexivity|].
  unfold eqb, SFeqb, SFcompare.
  now rewrite Z.compare_refl, compare_cont_refl.
Qed.

(** On positive numbers [===] is equality of representations. *)
Lemma eqb_positive_eq (x y : number) :
  ltb zero x = true -> eqb x y = true -> x = y.
Proof.
  intros H. destruct (positive_cases x H) as [->|(m & e & ->)].
  - destruct y as [?|[|]| |[|] ? ?]; cbn; congruence.
  - destruct y as [?|[|]| |[|] m' e']; cbn; try congruence.
    destruct (Z.compare e e') eqn:He; try discriminate.
    destruct (Pos.compare_cont Eq m m') eqn:Hm; try discriminate. intros _.
    apply Z.compare_eq in He. apply Pos.compare_eq in Hm. now subst.
Qed.

Lemma add_zero_positive (x : number) : ltb zero x = true -> add zero x = x.
Proof.
  intros H. destruct (positive_cases x H) as [->|(m & e & ->)]; reflexivity.
Qed.

End NumberFacts.

(** ** Rounding *)

Section RoundingFacts.

Lemma fexp_emin (e : Z) : (emin <= fexp prec emax e)%Z.
Proof. unfold fexp, emin. lia. Qed.

(** The exponent that comes out of a right shift to [fexp]. *)
Lemma shr_fexp_exponent (m e : Z) (l : location) :
  (emin <= snd (shr_fexp prec emax m e l))%Z.
Proof.
  unfold shr_fexp, shr.
  pose proof (fexp_emin (Zdigits2 m + e)) as H.
  destruct (fexp prec emax (Zdigits2 m + e) - e)%Z eqn:E; cbn [snd]; lia.
Qed.

Lemma binary_round_aux_exponent (s : bool) (m e : Z) (l : location) :
  exponent_ok (binary_round_aux prec emax s m e l).
Proof.
  unfold binary_round_aux.
  destruct (shr_fexp prec emax m e l) as [r1 e1].
  pose proof (shr_fexp_exponent
                (round_nearest_even (shr_m r1) (loc_of_shr_record r1)) e1
                loc_Exact) as H.
  destruct (shr_fexp prec emax _ e1 loc_Exact) as [r2 e2]. cbn [snd] in H.
  destruct (shr_m r2); cbn [exponent_ok]; auto.
  destruct (Z.leb e2 (emax - prec)); cbn [exponent_ok]; auto.
Qed.

(** A right shift keeps a mantissa from going negative. *)
Lemma shr_1_nonneg (r : shr_record) :
  (0 <= shr_m r)%Z -> (0 <= shr_m (shr_1 r))%Z.
Proof.
  destruct r as [[|[p|p|]|[p|p|]] b c]; cbn; intros; lia.
Qed.

Lemma shr_1_digits (r : shr_record) :
  (0 <= shr_m r)%Z ->
  Zdigits2 (shr_m (shr_1 r)) = Z.max 0 (Zdigits2 (shr_m r) - 1).
Proof.
  destruct r as [[|[p|p|]|p] b c];
    cbn [shr_1 shr_m Zdigits2 digits2_pos]; intros;
    rewrite ?Pos2Z.inj_succ; lia.
Qed.

Lemma iter_shr_1_digits (n : positive) :
  forall r : shr_record,
    (0 <= shr_m r)%Z ->
    (0 <= shr_m (iter_pos shr_1 n r))%Z
    /\ Zdigits2 (shr_m (iter_pos shr_1 n r))
       = Z.max 0 (Zdigits2 (shr_m r) - Zpos n).
Proof.
  induction n as [n IH|n IH|]; intros r Hr; cbn [iter_pos].
  - pose proof (shr_1_nonneg r Hr) as H0. pose proof (shr_1_digits r Hr) as D0.
    destruct (IH _ H0) as [H1 D1]. destruct (IH _ H1) as [H2 D2].
    split; [exact H2|]. rewrite D2, D1, D0. lia.
  - destruct (IH _ Hr) as [H1 D1]. destruct (IH _ H1) as [H2 D2].
    split; [exact H2|]. rewrite D2, D1. lia.
  - split; [now apply shr_1_nonneg|now apply shr_1_digits].
Qed.

Lemma Zdigits2_positive (m : Z) : (0 <= m)%Z -> (0 < Zdigits2 m)%Z -> (0 < m)%Z.
Proof. destruct m; cbn; lia. Qed.

Lemma Zdigits2_nonneg (m : Z) : (0 <= Zdigits2 m)%Z.
Proof. destruct m; cbn; lia. Qed.

(** A positive mantissa with an exponent not below [emin] survives the
    shift. *)
Lemma shr_fexp_positive (m e : Z) (l : location) :
  (0 < m)%Z -> (emin <= e)%Z ->
  (0 < shr_m (fst (shr_fexp prec emax m e l)))%Z.
Proof.
  intros Hm He. unfold shr_fexp, shr.
  assert (shr_m (shr_record_of_loc m l) = m) as Hrec
      by (destruct l as [|[| |]]; reflexivity).
  destruct (fexp prec emax (Zdigits2 m + e) - e)%Z as [|n|n] eqn:E;
    cbn [fst]; try (rewrite Hrec; exact Hm).
  destruct (iter_shr_1_digits n (shr_record_of_loc m l)) as [H0 D];
    [rewrite Hrec; lia|].
  rewrite Hrec in D. apply Zdigits2_positive; [exact H0|].
  rewrite D. unfold fexp in E. fold emin in E. unfold prec in *. lia.
Qed.

Lemma round_nearest_even_positive (m : Z) (l : location) :
  (0 < m)%Z -> (0 < round_nearest_even m l)%Z.
Proof.
  intros H. destruct l as [|[| |]]; cbn; try lia.
  destruct (Z.even m); lia.
Qed.

Lemma binary_round_aux_positive (m e : Z) (l : location) :
  (0 < m)%Z -> (emin <= e)%Z ->
  ltb zero (binary_round_aux prec emax false m e l) = true.
Proof.
  intros Hm He. unfold binary_round_aux.
  pose proof (shr_fexp_positive m e l Hm He) as H1.
  pose proof (shr_fexp_exponent m e l) as E1.
  destruct (shr_fexp prec emax m e l) as [r1 e1]. cbn [fst snd] in H1, E1.
  pose proof (shr_fexp_positive _ e1 loc_Exact
                (round_nearest_even_positive _ (loc_of_shr_record r1) H1) E1)
    as H2.
  destruct (shr_fexp prec emax _ e1 loc_Exact) as [r2 e2]. cbn [fst] in H2.
  destruct (shr_m r2) as [|p|p]; try lia.
  destruct (Z.leb e2 (emax - prec)); reflexivity.
Qed.

Lemma binary_round_aux_negative (m e : Z) (l : location) :
  ltb zero (binary_round_aux prec emax true m e l) = false.
Proof.
  unfold binary_round_aux.
  destruct (shr_fexp prec emax m e l) as [r1 e1].
  destruct (shr_fexp prec emax _ e1 loc_Exact) as [r2 e2].
  destruct (shr_m r2) as [|p|p]; try reflexivity.
  destruct (Z.leb e2 (emax - prec)); reflexivity.
Qed.

Lemma shl_align_exponent (m : positive) (e e' : Z) :
  (emin <= e)%Z -> (emin <= e')%Z -> (emin <= snd (shl_align m e e'))%Z.
Proof.
  intros. unfold shl_align. destruct (e' - e)%Z; cbn [snd]; lia.
Qed.

Lemma iter_xO_value (d : positive) (m : positive) :
  Zpos (Pos.iter xO m d) = (Zpos m * 2 ^ Zpos d)%Z.
Proof.
  pose proof (Zpower.shift_pos_correct d m) as H.
  unfold Zpower.shift_pos in H. rewrite H. apply Z.mul_comm.
Qed.

Lemma shl_align_value (m : positive) (e e' : Z) :
  (e' <= e)%Z ->
  Zpos (fst (shl_align m e e')) = (Zpos m * 2 ^ (e - e'))%Z.
Proof.
  intros H. unfold shl_align.
  destruct (e' - e)%Z as [|d|d] eqn:E; cbn [fst]; try lia.
  - replace (e - e')%Z with 0%Z by lia. cbn. lia.
  - rewrite iter_xO_value. f_equal. f_equal. lia.
Qed.

Lemma binary_round_positive (m : positive) (e : Z) :
  (emin <= e)%Z -> ltb zero (binary_round prec emax false m e) = true.
Proof.
  intros He. unfold binary_round.
  pose proof (shl_align_exponent m e
                (fexp prec emax (Zpos (digits2_pos m) + e)) He (fexp_emin _)) as H.
  destruct (shl_align m e _) as [mz ez]. cbn [snd] in H.
  apply binary_round_aux_positive; [lia|exact H].
Qed.

Lemma binary_round_negative (m : positive) (e : Z) :
  ltb zero (binary_round prec emax true m e) = false.
Proof.
  unfold binary_round. destruct (shl_align m e _) as [mz ez].
  apply binary_round_aux_negative.
Qed.

(** The comparator of the sort: [b - a > 0] exactly when [a] is the
    smaller of two positive numbers. *)
Lemma sub_positive_iff (a b : number) :
  ltb zero a = true -> ltb zero b = true ->
  exponent_ok a -> exponent_ok b ->
  (ltb zero (sub b a) = true <-> units_lt (units a) (units b)).
Proof.
  intros Ha Hb Ea Eb.
  destruct (positive_cases a Ha) as [->|(ma & ea & ->)],
           (positive_cases b Hb) as [->|(mb & eb & ->)];
    cbn [exponent_ok] in Ea, Eb.
  - cbn. intuition congruence.
  - cbn. intuition congruence.
  - cbn. intuition congruence.
  - unfold sub, SFsub. cbn [cond_Zopp units units_lt].
    set (ez := Z.min eb ea).
    rewrite (shl_align_value mb eb ez) by (unfold ez; lia).
    rewrite (shl_align_value ma ea ez) by (unfold ez; lia).
    assert (emin <= ez)%Z as Hez by (unfold ez; lia).
    replace (ea - emin)%Z with ((ea - ez) + (ez - emin))%Z by lia.
    replace (eb - emin)%Z with ((eb - ez) + (ez - emin))%Z by lia.
    rewrite !Z.pow_add_r by (unfold ez; lia).
    assert (0 < 2 ^ (ez - emin))%Z as Hp by (apply Z.pow_pos_nonneg; lia).
    set (x := (Zpos ma * 2 ^ (ea - ez))%Z).
    set (y := (Zpos mb * 2 ^ (eb - ez))%Z).
    rewrite !Z.mul_assoc. fold x. fold y.
    destruct (y - x)%Z as [|d|d] eqn:E; cbn [binary_normalize].
    + replace (ltb zero (S754_zero false)) with false by reflexivity.
      split; [discriminate|]. intros H. nia.
    + rewrite (binary_round_positive d ez Hez). split; [intros _|reflexivity]. nia.
    + rewrite binary_round_negative. split; [discriminate|]. intros H. nia.
Qed.

Lemma binary_round_exponent (sx : bool) (m : positive) (e : Z) :
  exponent_ok (binary_round prec emax sx m e).
Proof.
  unfold binary_round. destruct (shl_align m e _) as [mz ez].
  apply binary_round_aux_exponent.
Qed.

(** Adding a positive number to [0] or to a positive number gives a
    positive number (possibly [Infinity]), never [NaN]. *)
Lemma add_positive (a b : number) :
  a = zero \/ (ltb zero a = true /\ exponent_ok a) ->
  ltb zero b = true -> exponent_ok b ->
  ltb zero (add a b) = true /\ exponent_ok (add a b).
Proof.
  intros [->|[Ha Ea]] Hb Eb.
  - rewrite (add_zero_positive b Hb). now split.
  - destruct (positive_cases a Ha) as [->|(ma & ea & ->)],
             (positive_cases b Hb) as [->|(mb & eb & ->)];
      try (split; [reflexivity|exact I]).
    cbn [exponent_ok] in Ea, Eb. unfold add, SFadd. cbn [cond_Zopp].
    destruct (shl_align ma ea _) as [m1 e1], (shl_align mb eb _) as [m2 e2].
    cbn [fst]. cbn [Z.add binary_normalize]. split.
    + apply binary_round_positive. lia.
    + apply binary_round_exponent.
Qed.

Lemma round_ratio_exponent (n d : Z) : exponent_ok (round_ratio n d).
Proof.
  unfold round_ratio. destruct n; cbn [exponent_ok zero NaN]; auto.
  destruct (SFdiv_core_binary prec emax _ 0 d 0) as [[q e] l].
  apply binary_round_aux_exponent.
Qed.

Lemma neg_exponent (x : number) : exponent_ok x -> exponent_ok (neg x).
Proof. destruct x; cbn; auto. Qed.

Lemma parseFloat_exponent (s : string) : exponent_ok (parseFloat s).
Proof.
  unfold parseFloat.
  assert (forall (b : bool) (x : number),
             exponent_ok x -> exponent_ok (if b then neg x else x)) as Hsigned
      by (intros [|] x Hx; auto using neg_exponent).
  repeat match goal with
         | |- context [let '(_, _) := ?p in _] => destruct p
         | |- context [if prefix ?a ?b then _ else _] => destruct (prefix a b)
         | |- context [if (?a =? ?b)%nat then _ else _] =>
             destruct (a =? b)%nat
         end;
    try (apply Hsigned);
    try (destruct (_ <=? _)%Z);
    auto using round_ratio_exponent; exact I.
Qed.

End RoundingFacts.

(** ** The matcher *)

Section MatcherFacts.
Context {A : Type} (ic : bool).

(** Every match of [r] consumes at least [minLength r] code units. *)
Lemma star_loop_consumes
      (body : string -> capture -> cont -> option A)
      (Hbody : forall s c k x,
          body s c k = Some x -> exists s' c', k s' c' = Some x)
      (n : nat) (s : string) (c : capture) (k : cont) (x : A) :
  star_loop body n s c k = Some x ->
  exists s' c',
    k s' c' = Some x /\ (String.length s' <= String.length s)%nat.
Proof.
  revert s c. induction n as [|n IH]; intros s c; cbn [star_loop].
  - intros H. exists s, c. split; [exact H|lia].
  - destruct (body s c _) as [y|] eqn:E.
    + intros [= ->]. apply Hbody in E as (s1 & c1 & E).
      destruct (String.length s1 <? String.length s)%nat eqn:Hlt;
        [|discriminate].
      apply Nat.ltb_lt in Hlt.
      destruct (IH _ _ E) as (s' & c' & Hk & Hle).
      exists s', c'. split; [exact Hk|lia].
    + intros H. exists s, c. split; [exact H|lia].
Qed.

Lemma rmatch_consumes (r : regex) :
  forall (s : string) (c : capture) (k : cont) (x : A),
    rmatch ic r s c k = Some x ->
    exists s' c',
      k s' c' = Some x
      /\ (String.length s' + minLength r <= String.length s)%nat.
Proof.
  induction r as [|a|p|r1 IH1 r2 IH2|r1 IH1 r2 IH2|r1 IH1|r1 IH1];
    intros s c k x; cbn [rmatch minLength].
  - intros H. exists s, c. split; [exact H|lia].
  - destruct s as [|y s]; [discriminate|].
    destruct (chr_match ic a y); [|discriminate].
    intros H. exists s, c. split; [exact H|cbn; lia].
  - destruct s as [|y s]; [discriminate|].
    destruct (p y); [|discriminate].
    intros H. exists s, c. split; [exact H|cbn; lia].
  - intros H. apply IH1 in H as (s1 & c1 & H & H1).
    apply IH2 in H as (s2 & c2 & H & H2).
    exists s2, c2. split; [exact H|lia].
  - destruct (rmatch ic r1 s c k) as [y|] eqn:E.
    + intros [= ->]. apply IH1 in E as (s' & c' & H & Hle).
      exists s', c'. split; [exact H|lia].
    + intros H. apply IH2 in H as (s' & c' & H & Hle).
      exists s', c'. split; [exact H|lia].
  - intros H. apply star_loop_consumes in H as (s' & c' & H & Hle).
    + exists s', c'. split; [exact H|lia].
    + intros s0 c0 k0 x0 H0. apply IH1 in H0 as (s' & c' & H0 & _). eauto.
  - intros H. apply IH1 in H as (s' & c' & H & Hle). eauto.
Qed.

(** The matcher only looks at what its continuation answers. *)
Lemma star_loop_ext
      (body body' : string -> capture -> cont -> option A) (k k' : @cont A)
      (Hbody : forall s c k1 k2,
          (forall s' c', k1 s' c' = k2 s' c') -> body s c k1 = body' s c k2)
      (Hk : forall s c, k s c = k' s c) (n : nat) :
  forall s c, star_loop body n s c k = star_loop body' n s c k'.
Proof.
  induction n as [|n IH]; intros s c; cbn [star_loop]; [apply Hk|].
  rewrite (Hbody s c _ (fun s' c' =>
             if (String.length s' <? String.length s)%nat
             then star_loop body' n s' c' k' else None)).
  - now rewrite Hk.
  - intros s' c'. now rewrite IH.
Qed.

Lemma rmatch_ext (r : regex) :
  forall (s : string) (c : capture) (k k' : @cont A),
    (forall s' c', k s' c' = k' s' c') ->
    rmatch ic r s c k = rmatch ic r s c k'.
Proof.
  induction r as [|a|p|r1 IH1 r2 IH2|r1 IH1 r2 IH2|r1 IH1|r1 IH1];
    intros s c k k' Hk; cbn [rmatch]; auto.
  - destruct s as [|y s]; [reflexivity|]. now rewrite Hk.
  - destruct s as [|y s]; [reflexivity|]. now rewrite Hk.
  - now rewrite (IH1 s c k k' Hk), (IH2 s c k k' Hk).
  - apply star_loop_ext; auto.
Qed.

Lemma rmatch_rejected (r : regex) (s : string) (c : capture) (k : @cont A) :
  (forall s' c', k s' c' = None) -> rmatch ic r s c k = None.
Proof.
  intros Hk. destruct (rmatch ic r s c k) as [x|] eqn:E; [|reflexivity].
  apply rmatch_consumes in E as (s' & c' & E & _). now rewrite Hk in E.
Qed.

(** The bound on the rounds of an iteration is never what ends it: any
    bound that is at least the length of the input gives the same
    result. *)
Lemma star_loop_bound (r : regex) (k : @cont A) (n : nat) :
  forall (m : nat) (s : string) (c : capture),
    (String.length s <= n)%nat -> (String.length s <= m)%nat ->
    star_loop (fun s' c' k' => rmatch ic r s' c' k') n s c k
    = star_loop (fun s' c' k' => rmatch ic r s' c' k') m s c k.
Proof.
  assert (forall (m : nat) (c : capture),
             star_loop (fun s' c' k' => rmatch ic r s' c' k') m "" c k = k "" c)
    as Hempty.
  { intros [|m] c; cbn [star_loop]; [reflexivity|].
    rewrite rmatch_rejected; [reflexivity|].
    intros s' c'. cbn. now destruct (String.length s'). }
  induction n as [|n IH]; intros m s c Hn Hm.
  - destruct s; [|cbn in Hn; lia]. now rewrite !Hempty.
  - destruct m as [|m].
    + destruct s; [|cbn in Hm; lia]. now rewrite !Hempty.
    + cbn [star_loop].
      rewrite (rmatch_ext r s c _
                 (fun s' c' =>
                    if (String.length s' <? String.length s)%nat
                    then star_loop (fun s0 c0 k0 => rmatch ic r s0 c0 k0)
                                   m s' c' k
                    else None)); [reflexivity|].
      intros s' c'.
      destruct (String.length s' <? String.length s)%nat eqn:E; [|reflexivity].
      apply Nat.ltb_lt in E. apply IH; lia.
Qed.

End MatcherFacts.

Lemma match_at_minLength (re : RegExp) (s : string) (n : nat) (c : capture) :
  match_at re s = Some (n, c) ->
  (minLength (source re) <= n)%nat /\ (n <= String.length s)%nat.
Proof.
  unfold match_at. intros H.
  apply rmatch_consumes in H as (s' & c' & [= <- _] & Hle). lia.
Qed.

(** No amount pattern matches the empty string: after each match
    [lastIndex] moves on, and the [while] loop of [extractAmounts] ends. *)
Lemma amountRegexes_progress (re : RegExp) (s : string) (n : nat) (c : capture) :
  In re amountRegexes -> match_at re s = Some (n, c) -> (1 <= n)%nat.
Proof.
  intros Hin H. apply match_at_minLength in H as [H _].
  assert (Forall (fun re => 1 <= minLength (source re))%nat amountRegexes) as Hall
      by (repeat constructor).
  rewrite Forall_forall in Hall. specialize (Hall _ Hin). lia.
Qed.

(** ** The amount scan *)

Section ScanFacts.

(** Only positive amounts are recorded. *)
Lemma candidate_positive (r : MatchResult) (m : AmountMatch) :
  In m (candidate r) -> ltb zero (m_amount m) = true.
Proof.
  unfold candidate.
  destruct (negb _ && ltb zero _) eqn:E; [|contradiction].
  intros [<-|[]]. cbn. now apply andb_true_iff in E.
Qed.

Lemma extractAmounts_positive (text : string) (m : AmountMatch) :
  In m (extractAmounts text) -> ltb zero (m_amount m) = true.
Proof.
  unfold extractAmounts. intros H.
  apply in_flat_map in H as (re & _ & H).
  apply in_flat_map in H as (r & _ & H).
  eauto using candidate_positive.
Qed.

Lemma extractAmounts_exponent (text : string) (m : AmountMatch) :
  In m (extractAmounts text) -> exponent_ok (m_amount m).
Proof.
  unfold extractAmounts. intros H.
  apply in_flat_map in H as (re & _ & H).
  apply in_flat_map in H as (r & _ & H).
  unfold candidate in H.
  destruct (negb _ && ltb zero _); [|contradiction].
  destruct H as [<-|[]]. cbn [m_amount]. apply parseFloat_exponent.
Qed.

End ScanFacts.

(** ** Sorting *)

Section SortFacts.
Context {A : Type} (compare : A -> A -> number).

Lemma insert_In (x y : A) (l : list A) :
  In y (insert compare x l) <-> y = x \/ In y l.
Proof.
  induction l as [|z l IH]; cbn.
  - intuition congruence.
  - destruct (ltb zero (compare x z)); cbn; rewrite ?IH; intuition congruence.
Qed.

Lemma sort_In (y : A) (l : list A) : In y (sort compare l) <-> In y l.
Proof.
  induction l as [|x l IH]; cbn; [tauto|].
  rewrite insert_In, IH. intuition congruence.
Qed.

Lemma sort_head (l : list A) :
  l <> [] -> exists x rest, sort compare l = x :: rest /\ In x l.
Proof.
  intros Hl. destruct (sort compare l) as [|x rest] eqn:E.
  - destruct l as [|y l]; [congruence|].
    assert (In y (sort compare (y :: l))) as H by (apply sort_In; now left).
    rewrite E in H. contradiction.
  - exists x, rest. split; [reflexivity|].
    apply sort_In. rewrite E. now left.
Qed.

End SortFacts.

Section SortMax.
Context {A : Type} (compare : A -> A -> number) (rank : A -> option Z).
Variable P : A -> Prop.
Hypothesis compare_rank :
  forall x y, P x -> P y ->
    (ltb zero (compare x y) = true <-> units_lt (rank x) (rank y)).

Lemma units_lt_irrefl (a : option Z) : ~ units_lt a a.
Proof. destruct a; cbn; [lia|tauto]. Qed.

Lemma units_lt_asym (a b : option Z) : units_lt a b -> ~ units_lt b a.
Proof. destruct a, b; cbn; try tauto; lia. Qed.

Lemma units_lt_cotrans (a b c : option Z) :
  ~ units_lt a b -> ~ units_lt b c -> ~ units_lt a c.
Proof. destruct a, b, c; cbn; try tauto; lia. Qed.

(** The head of the sorted list is not below any element. *)
Lemma sort_head_max (l : list A) :
  Forall P l ->
  forall x rest, sort compare l = x :: rest ->
  forall y, In y l -> ~ units_lt (rank x) (rank y).
Proof.
  induction 1 as [|a l Ha Hl IH]; intros x rest Hs y Hy; [contradiction|].
  cbn [sort fold_right] in Hs. fold (sort compare l) in Hs.
  destruct (sort compare l) as [|h t] eqn:E.
  - assert (l = []) as ->.
    { destruct l as [|b l]; [reflexivity|].
      assert (In b (sort compare (b :: l))) as Hb
          by (apply sort_In; now left).
      rewrite E in Hb. contradiction. }
    cbn in Hs. injection Hs as <- _. destruct Hy as [<-|[]].
    apply units_lt_irrefl.
  - assert (P h) as Hh.
    { rewrite Forall_forall in Hl. apply Hl. apply (sort_In compare).
      rewrite E. now left. }
    cbn [insert] in Hs.
    destruct (ltb zero (compare a h)) eqn:C.
    + injection Hs as <- _. apply (compare_rank a h Ha Hh) in C.
      destruct Hy as [<-|Hy]; [now apply units_lt_asym|].
      now apply (IH h t).
    + injection Hs as <- _.
      assert (~ units_lt (rank a) (rank h)) as Hah.
      { intros H. apply (compare_rank a h Ha Hh) in H. congruence. }
      destruct Hy as [<-|Hy]; [apply units_lt_irrefl|].
      apply (units_lt_cotrans _ (rank h)); [exact Hah|].
      now apply (IH h t).
Qed.

End SortMax.

(** ** The text pipeline *)

Section PipelineFacts.

Lemma length_zero_nil {A : Type} (l : list A) :
  (List.length l =? 0)%nat = true <-> l = [].
Proof. destruct l; cbn; intuition congruence. Qed.

Lemma filter_none {A : Type} (f : A -> bool) (l : list A) :
  (forall x, In x l -> f x = false) -> filter f l = [].
Proof.
  induction l as [|x l IH]; cbn; intros H; [reflexivity|].
  rewrite (H x) by now left. apply IH. intros y Hy. apply H. now right.
Qed.

(** What [handleGetEmailExpense] returns once an amount was found. *)
Lemma handleGetEmailExpense_found (emailText : string) :
  extractAmounts emailText <> [] ->
  exists largest rest,
    sortedAmounts (extractAmounts emailText) = largest :: rest /\
    In largest (extractAmounts emailText) /\
    let items :=
      expenseItems emailText (extractAmounts emailText) (m_amount largest) in
    handleGetEmailExpense emailText
    = Ok (mkData (finalTotal items (m_amount largest)) items).
Proof.
  intros Hne. unfold handleGetEmailExpense.
  destruct (sort_head (fun a b => sub (m_amount b) (m_amount a)) _ Hne)
    as (largest & rest & Hs & Hin).
  exists largest, rest. fold (sortedAmounts (extractAmounts emailText)) in Hs.
  rewrite Hs. repeat split; auto.
  destruct (List.length (extractAmounts emailText) =? 0)%nat eqn:E; [|reflexivity].
  apply length_zero_nil in E. contradiction.
Qed.

Lemma handleGetEmailExpense_none (emailText : string) :
  extractAmounts emailText = [] -> handleGetEmailExpense emailText = Throw failed.
Proof. unfold handleGetEmailExpense. now intros ->. Qed.

(** The loop keeps, in order, the candidates that are not skipped. *)
Lemma lineItems_filter (emailText : string) (ms : list AmountMatch)
      (totalAmount : number) :
  lineItems emailText ms totalAmount
  = map (lineItem emailText)
        (filter (fun m => negb ((2 <? List.length ms)%nat
                                && eqb (m_amount m) totalAmount)) ms).
Proof.
  unfold lineItems. generalize (2 <? List.length ms)%nat as b. intros b.
  induction ms as [|m ms IH]; cbn; [reflexivity|].
  rewrite IH. destruct (b && eqb (m_amount m) totalAmount); reflexivity.
Qed.

Lemma lineItems_few (emailText : string) (ms : list AmountMatch)
      (totalAmount : number) :
  (List.length ms <= 2)%nat ->
  lineItems emailText ms totalAmount = map (lineItem emailText) ms.
Proof.
  intros H. rewrite lineItems_filter.
  replace (2 <? List.length ms)%nat with false
    by (symmetry; apply Nat.ltb_ge; exact H).
  cbn. f_equal. induction ms as [|m ms IH]; cbn; [reflexivity|].
  f_equal. apply IH. cbn in H. lia.
Qed.

Lemma lineItems_many (emailText : string) (ms : list AmountMatch)
      (totalAmount : number) :
  (2 < List.length ms)%nat ->
  lineItems emailText ms totalAmount
  = map (lineItem emailText)
        (filter (fun m => negb (eqb (m_amount m) totalAmount)) ms).
Proof.
  intros H. rewrite lineItems_filter.
  replace (2 <? List.length ms)%nat with true
    by (symmetry; apply Nat.ltb_lt; exact H).
  reflexivity.
Qed.

Lemma sumAmounts_from (items : list ExpenseItem) (acc : number) :
  recordable acc ->
  Forall (fun it => recordable (amount it)) items ->
  recordable (fold_left (fun sum item => add sum (amount item)) items acc).
Proof.
  intros Hacc H. revert acc Hacc.
  induction H as [|it items [Hp He] _ IH]; intros acc Hacc; cbn; [exact Hacc|].
  apply IH. apply add_positive; auto.
Qed.

(** The sum of the items is positive, and never [NaN]. *)
Lemma sumAmounts_positive (items : list ExpenseItem) :
  items <> [] ->
  Forall (fun it => recordable (amount it)) items ->
  ltb zero (sumAmounts items) = true.
Proof.
  intros Hne H. destruct H as [|it items [Hp He] H]; [congruence|].
  unfold sumAmounts. cbn [fold_left].
  apply sumAmounts_from; [|exact H].
  apply add_positive; auto.
Qed.

Lemma expenseItems_nonempty (emailText : string) (ms : list AmountMatch)
      (totalAmount : number) :
  expenseItems emailText ms totalAmount <> [].
Proof.
  unfold expenseItems.
  destruct (List.length _ =? 0)%nat eqn:E; [discriminate|].
  intros H. apply length_zero_nil in H. congruence.
Qed.

Lemma expenseItems_amounts (Q : number -> Prop) (emailText : string)
      (ms : list AmountMatch) (totalAmount : number) :
  Q totalAmount ->
  Forall (fun m => Q (m_amount m)) ms ->
  Forall (fun it => Q (amount it)) (expenseItems emailText ms totalAmount).
Proof.
  intros Ht Hms. unfold expenseItems.
  destruct (List.length _ =? 0)%nat; [repeat constructor; exact Ht|].
  destruct (1 <? List.length ms)%nat; [|constructor].
  rewrite lineItems_filter. apply Forall_map. cbn.
  apply Forall_forall. intros m Hm. apply filter_In in Hm as [Hm _].
  rewrite Forall_forall in Hms. auto.
Qed.

Lemma extractAmounts_recordable (text : string) (m : AmountMatch) :
  In m (extractAmounts text) -> recordable (m_amount m).
Proof.
  intros H. split.
  - now apply (extractAmounts_positive text).
  - now apply (extractAmounts_exponent text).
Qed.

(** The provisional total is a maximum of the candidate amounts: in the
    sense of the comparator of the sort ([m.amount - totalAmount > 0] is
    false for every candidate) and as exact values. *)
Lemma provisional_total_maximal (text : string) (largest : AmountMatch)
      (rest : list AmountMatch) :
  sortedAmounts (extractAmounts text) = largest :: rest ->
  forall m, In m (extractAmounts text) ->
    ltb zero (sub (m_amount m) (m_amount largest)) = false
    /\ ~ units_lt (units (m_amount largest)) (units (m_amount m)).
Proof.
  intros Hs m Hm.
  set (P := fun m : AmountMatch =>
              ltb zero (m_amount m) = true /\ exponent_ok (m_amount m)).
  assert (forall x y, P x -> P y ->
            (ltb zero (sub (m_amount y) (m_amount x)) = true
             <-> units_lt (units (m_amount x)) (units (m_amount y)))) as Hcmp.
  { intros x y [Hx Ex] [Hy Ey]. now apply sub_positive_iff. }
  assert (forall x, In x (extractAmounts text) -> P x) as HP.
  { intros x Hx. split.
    - now apply (extractAmounts_positive text).
    - now apply (extractAmounts_exponent text). }
  assert (~ units_lt (units (m_amount largest)) (units (m_amount m))) as Hmax.
  { apply (sort_head_max (fun a b => sub (m_amount b) (m_amount a))
                         (fun m => units (m_amount m)) P Hcmp
                         (extractAmounts text)
                         (proj2 (Forall_forall _ _) HP) largest rest Hs m Hm). }
  split; [|exact Hmax].
  destruct (ltb zero (sub (m_amount m) (m_amount largest))) eqn:C;
    [|reflexivity].
  exfalso. apply Hmax. apply Hcmp; auto.
  apply HP. apply (sort_In (fun a b => sub (m_amount b) (m_amount a))).
  fold (sortedAmounts (extractAmounts text)). rewrite Hs. now left.
Qed.

End PipelineFacts.

(** ** The structured pipeline *)

Section InvoiceFacts.
Variable s2n : string -> number.
Variable o2n : jsval -> option number.

Lemma lookup_assign_same (key : string) (x : jsval)
      (properties : list (string * jsval)) :
  lookup key (assign key x properties) = x.
Proof.
  induction properties as [|[k v] rest IH]; cbn.
  - now rewrite String.eqb_refl.
  - destruct (String.eqb k key) eqn:E; cbn; rewrite E; auto.
Qed.

Lemma lookup_assign_other (key key' : string) (x : jsval)
      (properties : list (string * jsval)) :
  key' <> key ->
  lookup key' (assign key x properties) = lookup key' properties.
Proof.
  intros Hne. induction properties as [|[k v] rest IH]; cbn.
  - apply String.eqb_neq in Hne. rewrite String.eqb_sym. now rewrite Hne.
  - destruct (String.eqb k key) eqn:E; cbn.
    + apply String.eqb_eq in E. subst k.
      apply String.eqb_neq in Hne. rewrite String.eqb_sym. now rewrite Hne.
    + destruct (String.eqb k key'); auto.
Qed.

Lemma get_defined_object (v : jsval) (key : string) :
  get v key <> JUndefined -> exists properties, v = JObj properties.
Proof. destruct v; cbn; try congruence. eauto. Qed.

Lemma truthy_get_object (v : jsval) (key : string) :
  truthy (get v key) = true -> exists properties, v = JObj properties.
Proof.
  intros H. apply (get_defined_object v key). intros E. now rewrite E in H.
Qed.

Lemma mapM_Forall2 {A B : Type} (f : A -> option B) (l : list A) (l' : list B) :
  mapM f l = Some l' <-> Forall2 (fun x y => f x = Some y) l l'.
Proof.
  revert l'. induction l as [|x l IH]; intros l'; cbn.
  - split.
    + intros [= <-]. constructor.
    + intros H. inversion H. reflexivity.
  - split.
    + destruct (f x) as [y|] eqn:E; [|discriminate].
      destruct (mapM f l) as [ys|]; [|discriminate].
      intros [= <-]. constructor; [exact E|]. now apply IH.
    + intros H. inversion H as [|? y ? ys Hy Hys]; subst.
      rewrite Hy. apply IH in Hys. now rewrite Hys.
Qed.

Lemma mapM_total {A B : Type} (f : A -> option B) (l : list A) :
  Forall (fun x => f x <> None) l -> exists l', mapM f l = Some l'.
Proof.
  induction 1 as [|x l Hx _ (l' & IH)]; cbn; [eauto|].
  destruct (f x) as [y|]; [|congruence]. rewrite IH. eauto.
Qed.

(** One item: the callback succeeds exactly when the amount converts and
    the category is a string, and then the category is lower-cased and
    kept if it is in the vocabulary, and "unknown" otherwise. *)
Lemma normalizeItem_Some (item item' : jsval) :
  normalizeItem s2n o2n item = Some item' <->
  exists a h,
    Number s2n o2n (get item "amount") = Some a
    /\ get item "head" = JStr h
    /\ item' = set (set item "amount" (JNum a)) "head"
                   (JStr (if existsb (String.eqb (toLowerCase h)) validHeads
                          then toLowerCase h else "unknown")).
Proof.
  unfold normalizeItem. split.
  - destruct (Number s2n o2n (get item "amount")) as [a|]; [|discriminate].
    destruct (get item "head") as [| | | |h| |]; try discriminate.
    intros [= <-]. eauto.
  - intros (a & h & -> & -> & ->). reflexivity.
Qed.

Lemma normalizeItem_head (item item' : jsval) :
  normalizeItem s2n o2n item = Some item' ->
  exists h, get item' "head" = JStr h /\ In h validHeads.
Proof.
  intros H. apply normalizeItem_Some in H as (a & h & _ & Hh & ->).
  destruct (get_defined_object item "head") as (properties & ->);
    [now rewrite Hh|].
  cbn [set get]. rewrite lookup_assign_same.
  eexists. split; [reflexivity|].
  destruct (existsb _ validHeads) eqn:E.
  - apply existsb_exists in E as (x & Hx & E).
    apply String.eqb_eq in E. now subst.
  - cbn. tauto.
Qed.

(** The call succeeds exactly on these conditions, with this value. *)
Lemma handleGetInvoiceData_Ok (parsedData out : jsval) :
  handleGetInvoiceData s2n o2n parsedData = Ok out <->
  exists t its its',
    truthy parsedData = true
    /\ truthy (get parsedData "total") = true
    /\ get parsedData "items" = JArr its
    /\ its <> []
    /\ Number s2n o2n (get parsedData "total") = Some t
    /\ mapM (normalizeItem s2n o2n) its = Some its'
    /\ out = set (set parsedData "total" (JNum t)) "items" (JArr its').
Proof.
  unfold handleGetInvoiceData. split.
  - destruct (truthy parsedData); [|discriminate].
    destruct (truthy (get parsedData "total")); [|discriminate].
    destruct (get parsedData "items") as [| | | | |its|]; try discriminate.
    cbn [negb orb isArray elements_of].
    destruct its as [|i its]; [discriminate|].
    cbn [List.length Nat.eqb].
    destruct (Number _ _ _) as [t|]; [|discriminate].
    destruct (mapM _ _) as [its'|] eqn:E; [|discriminate].
    intros [= <-]. exists t, (i :: its), its'. repeat split; auto. discriminate.
  - intros (t & its & its' & -> & -> & -> & Hne & -> & Hm & ->).
    destruct its as [|i its]; [congruence|].
    cbn [negb orb isArray elements_of List.length Nat.eqb]. now rewrite Hm.
Qed.

Lemma handleGetInvoiceData_Throw (parsedData : jsval) (message : string) :
  handleGetInvoiceData s2n o2n parsedData = Throw message ->
  message = billFailed.
Proof.
  unfold handleGetInvoiceData.
  destruct (_ || _); [congruence|].
  destruct (Number _ _ _); [|congruence].
  destruct (mapM _ _); congruence.
Qed.

End InvoiceFacts.

(** The complete condition of success. *)
Lemma handleGetInvoiceData_succeeds_iff
      (s2n : string -> number) (o2n : jsval -> option number)
      (parsedData : jsval) :
  (exists out, handleGetInvoiceData s2n o2n parsedData = Ok out) <->
  truthy parsedData = true
  /\ truthy (get parsedData "total") = true
  /\ Number s2n o2n (get parsedData "total") <> None
  /\ exists its,
       get parsedData "items" = JArr its
       /\ its <> []
       /\ Forall (wellFormedItem s2n o2n) its.
Proof.
  split.
  - intros (out & Hok).
    apply handleGetInvoiceData_Ok in Hok
      as (t & its & its' & Hp & Ht & Hitems & Hne & Hnum & Hmap & _).
    repeat split; auto; [congruence|].
    exists its. repeat split; auto.
    apply mapM_Forall2 in Hmap. clear Hitems Hne.
    induction Hmap as [|item item' its its' H _ IH]; constructor; auto.
    apply normalizeItem_Some in H as (a & h & Ha & Hh & _).
    split; [congruence|eauto].
  - intros (Hp & Ht & Hnum & its & Hitems & Hne & Hall).
    destruct (Number s2n o2n (get parsedData "total")) as [t|] eqn:Et;
      [|congruence].
    destruct (mapM_total (normalizeItem s2n o2n) its) as (its' & Hmap).
    { eapply Forall_impl; [|exact Hall]. cbn.
      intros item (Ha & h & Hh). unfold normalizeItem.
      destruct (Number s2n o2n (get item "amount")); [|congruence].
      rewrite Hh. discriminate. }
    eexists. apply handleGetInvoiceData_Ok.
    exists t, its, its'. repeat split; eauto.
Qed.

(** ** Lower case and titles *)

Lemma lowerChar_idempotent (c : ascii) : lowerChar (lowerChar c) = lowerChar c.
Proof. destruct c as [[] [] [] [] [] [] [] []]; reflexivity. Qed.

Lemma toLowerCase_idempotent (s : string) :
  toLowerCase (toLowerCase s) = toLowerCase s.
Proof.
  induction s as [|c s IH]; cbn; [reflexivity|].
  now rewrite lowerChar_idempotent, IH.
Qed.

Section TitleFacts.

Lemma lowerChar_not_upper (c : ascii) : isUpper (lowerChar c) = false.
Proof. destruct c as [[] [] [] [] [] [] [] []]; reflexivity. Qed.

Lemma toLowerCase_noUpper (s : string) : noUpper (toLowerCase s) = true.
Proof.
  induction s as [|c s IH]; cbn; [reflexivity|].
  now rewrite lowerChar_not_upper, IH.
Qed.

Lemma drop_noUpper (n : nat) (s : string) :
  noUpper s = true -> noUpper (drop n s) = true.
Proof.
  revert s. induction n as [|n IH]; intros [|c s] H; cbn; auto.
  cbn in H. apply andb_true_iff in H as [_ H]. auto.
Qed.

Lemma remove_first_noUpper (s pattern : string) :
  noUpper s = true -> noUpper (remove_first s pattern) = true.
Proof.
  induction s as [|c s IH]; intros H.
  - cbn [remove_first]. destruct (prefix pattern ""); [|reflexivity].
    now apply drop_noUpper.
  - cbn [remove_first]. destruct (prefix pattern (String c s)).
    + now apply drop_noUpper.
    + cbn in *. apply andb_true_iff in H as [Hc H].
      now rewrite Hc, IH.
Qed.

(** The business-name pattern starts with [[A-Z]]: it matches nowhere in
    a text without upper-case letters. *)
Lemma businessNamePattern_needs_upper (s : string) :
  match s with
  | EmptyString => True
  | String c _ => isUpper c = false
  end ->
  match_at businessNamePattern s = None.
Proof.
  unfold match_at, businessNamePattern.
  cbn [source ignoreCase Cat rmatch].
  destruct s as [|c s]; [reflexivity|]. now intros ->.
Qed.

Lemma businessNamePattern_scan (s : string) (i : Z) :
  noUpper s = true -> scan businessNamePattern s i 0 = [].
Proof.
  revert i. induction s as [|c s IH]; intros i H.
  - cbn [scan]. now rewrite businessNamePattern_needs_upper.
  - cbn in H. apply andb_true_iff in H as [Hc H].
    apply negb_true_iff in Hc.
    cbn [scan]. rewrite businessNamePattern_needs_upper by exact Hc.
    now apply IH.
Qed.

Lemma merchantTitle_Some (patterns : list RegExp) (s t : string) :
  merchantTitle patterns s = Some t ->
  exists pattern r g,
    In pattern patterns /\ search pattern s 0 = Some r /\ m1 r = Some g
    /\ t = trim g.
Proof.
  induction patterns as [|p ps IH]; cbn [merchantTitle]; [discriminate|].
  intros H.
  assert (merchantTitle ps s = Some t ->
          exists pattern r g,
            In pattern (p :: ps) /\ search pattern s 0 = Some r
            /\ m1 r = Some g /\ t = trim g) as Hrest.
  { intros H'. destruct (IH H') as (q & r & g & Hq & Hr).
    exists q, r, g. split; [now right|exact Hr]. }
  destruct (search p s 0) as [r|] eqn:Er; [|auto].
  destruct (m1 r) as [g|] eqn:Eg; [|auto].
  destruct (String.length g =? 0)%nat; [auto|].
  injection H as <-. exists p, r, g. repeat split; auto. now left.
Qed.

(** How [createTitle] ends on a text without upper-case letters. *)
Lemma createTitle_lowercase (text amountText : string) :
  noUpper text = true ->
  execAll businessNamePattern (remove_first text amountText) = []
  /\ (createTitle text amountText = "Expense"
      \/ exists pattern r g,
           In pattern merchantPatterns
           /\ search pattern (remove_first text amountText) 0 = Some r
           /\ m1 r = Some g
           /\ createTitle text amountText = trim g).
Proof.
  intros H.
  assert (execAll businessNamePattern (remove_first text amountText) = [])
    as Hnone
      by (apply businessNamePattern_scan; now apply remove_first_noUpper).
  split; [exact Hnone|].
  unfold createTitle. rewrite Hnone.
  destruct (merchantTitle merchantPatterns _) as [t|] eqn:E; [|now left].
  right. now apply merchantTitle_Some.
Qed.

End TitleFacts.

(** * The claims *)

(** ** C1: one payment notice *)

(** C1, as stated, fails: for the text "Your payment of $45.00 was
    successful" the pipeline does not return the single item
    [{amount: 45, title: "Expense from email", category: "unknown"}] with
    total 45. *)
Lemma payment_email_not_single_item :
  handleGetEmailExpense paymentEmail
  <> Ok (mkData (of_Z 45) [mkItem (of_Z 45) "Expense from email" "unknown"]).
Proof. vm_compute. discriminate. Qed.

(** C1, amended: the scan of "Your payment of $45.00 was successful" finds
    the amount twice, as "$45.00" at index 16 (currency-symbol pattern) and
    as "payment of $45.00" at index 5 (payment pattern); with two
    candidates both become line items, titled "Expense" and of category
    "unknown", and the total is their sum, 90. *)
Theorem payment_email_two_items :
  extractAmounts paymentEmail
  = [ mkAmount (of_Z 45) "$45.00" 16;
      mkAmount (of_Z 45) "payment of $45.00" 5 ]
  /\ handleGetEmailExpense paymentEmail
     = Ok (mkData (of_Z 90)
                  [ mkItem (of_Z 45) "Expense" "unknown";
                    mkItem (of_Z 45) "Expense" "unknown" ]).
Proof. split; vm_compute; reflexivity. Qed.

(** ** C2: more than two candidates *)

(** C2, as stated, fails: "Order $10.00, tip $3.00, card $10.00" has three
    candidates (10, 3, 10); both candidates equal to the provisional total
    10 are skipped and one line item of 3 is retained, yet the returned
    total is 10, not the sum 3 of the retained amounts. *)
Lemma single_retained_total_not_sum :
  map m_amount (extractAmounts repeatedTotalEmail) = [of_Z 10; of_Z 3; of_Z 10]
  /\ exists data,
       handleGetEmailExpense repeatedTotalEmail = Ok data
       /\ map amount (items data) = [of_Z 3]
       /\ sumAmounts (items data) = of_Z 3
       /\ total data = of_Z 10
       /\ total data <> sumAmounts (items data).
Proof.
  split; [vm_compute; reflexivity|].
  eexists. split; [vm_compute; reflexivity|].
  repeat split; try (vm_compute; reflexivity).
  vm_compute. discriminate.
Qed.

(** C2, amended: when the scan yields more than two candidates, every
    candidate whose amount equals the provisional total (the amount of the
    first candidate after the descending sort, which no candidate exceeds)
    is skipped and the others become the line items, in scan order. The
    returned total is the sum of the line items when two or more are
    retained; with exactly one retained item it is that item's amount only
    if it lies within 0.01 of the provisional total, and the provisional
    total otherwise; with none retained the single item is the whole-email
    item and the total is the provisional total. *)
Theorem many_candidates_reconciliation (emailText : string) :
  (2 < List.length (extractAmounts emailText))%nat ->
  exists largest rest data,
    sortedAmounts (extractAmounts emailText) = largest :: rest
    /\ handleGetEmailExpense emailText = Ok data
    /\ let totalAmount := m_amount largest in
       let retained :=
         filter (fun m => negb (eqb (m_amount m) totalAmount))
                (extractAmounts emailText) in
       (forall m, In m (extractAmounts emailText) ->
                  ltb zero (sub (m_amount m) totalAmount) = false)
       /\ items data
       = match retained with
         | [] => [wholeEmail totalAmount]
         | _ :: _ => map (lineItem emailText) retained
         end
       /\ ((1 < List.length retained)%nat ->
           total data = sumAmounts (items data))
       /\ (forall m, retained = [m] ->
           total data
           = if ltb (abs (sub (m_amount m) totalAmount)) cent
             then m_amount m else totalAmount)
       /\ (retained = [] -> total data = totalAmount).
Proof.
  intros Hlen.
  assert (extractAmounts emailText <> []) as Hne
      by (intros E; rewrite E in Hlen; cbn in Hlen; lia).
  destruct (handleGetEmailExpense_found emailText Hne)
    as (largest & rest & Hs & Hin & Hres).
  exists largest, rest. eexists. split; [exact Hs|]. split; [exact Hres|].
  cbn [items total].
  pose proof (extractAmounts_positive _ _ Hin) as Hpos.
  set (totalAmount := m_amount largest) in *.
  assert (expenseItems emailText (extractAmounts emailText) totalAmount
          = match filter (fun m => negb (eqb (m_amount m) totalAmount))
                         (extractAmounts emailText) with
            | [] => [wholeEmail totalAmount]
            | _ :: _ =>
                map (lineItem emailText)
                    (filter (fun m => negb (eqb (m_amount m) totalAmount))
                            (extractAmounts emailText))
            end) as Hitems.
  { unfold expenseItems.
    replace (1 <? List.length (extractAmounts emailText))%nat with true
      by (symmetry; apply Nat.ltb_lt; lia).
    rewrite (lineItems_many _ _ _ Hlen).
    destruct (filter _ _); reflexivity. }
  rewrite Hitems.
  remember (filter (fun m => negb (eqb (m_amount m) totalAmount))
                   (extractAmounts emailText)) as retained eqn:Hret.
  split; [intros m Hm; apply (provisional_total_maximal _ _ _ Hs m Hm)|].
  split; [reflexivity|]. split; [|split].
  - intros H. destruct retained as [|m1 [|m2 r]]; cbn in H; try lia.
    unfold finalTotal. cbn [map List.length].
    replace (1 <? S (S _))%nat with true by reflexivity.
    now rewrite orb_true_r.
  - intros m E. rewrite E in *. unfold finalTotal. cbn [map List.length].
    assert (ltb zero (m_amount m) = true) as Hm.
    { apply (extractAmounts_positive emailText).
      assert (In m [m]) as H by now left.
      rewrite Hret in H. now apply filter_In in H. }
    unfold sumAmounts. cbn [fold_left lineItem amount].
    rewrite (add_zero_positive _ Hm).
    replace (1 <? 1)%nat with false by reflexivity.
    now rewrite orb_false_r.
  - intros E. rewrite E. unfold finalTotal, sumAmounts, wholeEmail.
    cbn [fold_left amount List.length].
    rewrite (add_zero_positive _ Hpos).
    destruct (ltb _ cent || _); reflexivity.
Qed.

Lemma many_candidates_reconciliation_witness :
  (2 < List.length (extractAmounts receiptEmail))%nat
  /\ exists largest rest data,
       sortedAmounts (extractAmounts receiptEmail) = largest :: rest
       /\ handleGetEmailExpense receiptEmail = Ok data.
Proof.
  assert (2 < List.length (extractAmounts receiptEmail))%nat as H
      by (vm_compute; lia).
  split; [exact H|].
  destruct (many_candidates_reconciliation receiptEmail H)
    as (largest & rest & data & Hs & Hres & _).
  exists largest, rest, data. split; assumption.
Defined.

(** The three distinct amounts of the receipt: the largest, found twice, is
    dropped and the total is the sum of the other two. *)
Example receipt_email_reconciled :
  map m_amount (extractAmounts receiptEmail)
  = [round_ratio 450 100; round_ratio 225 100; round_ratio 675 100;
     round_ratio 675 100]
  /\ exists data,
       handleGetEmailExpense receiptEmail = Ok data
       /\ map amount (items data) = [round_ratio 450 100; round_ratio 225 100]
       /\ total data = round_ratio 675 100.
Proof.
  split; [vm_compute; reflexivity|].
  eexists. repeat split; vm_compute; reflexivity.
Qed.

(** ** C3: exactly two candidates *)

(** C3: when the scan yields exactly two candidates, both become line
    items, in scan order and whatever their amounts (also when they are
    equal, or one equals the provisional total); the total is their sum. *)
Theorem two_candidates_both_retained (emailText : string) :
  List.length (extractAmounts emailText) = 2%nat ->
  exists data,
    handleGetEmailExpense emailText = Ok data
    /\ items data = map (lineItem emailText) (extractAmounts emailText)
    /\ map amount (items data) = map m_amount (extractAmounts emailText)
    /\ List.length (items data) = 2%nat
    /\ total data = sumAmounts (items data).
Proof.
  intros Hlen.
  assert (extractAmounts emailText <> []) as Hne
      by (intros E; rewrite E in Hlen; discriminate).
  destruct (handleGetEmailExpense_found emailText Hne)
    as (largest & rest & _ & _ & Hres).
  eexists. split; [exact Hres|]. cbn [items total].
  assert (expenseItems emailText (extractAmounts emailText) (m_amount largest)
          = map (lineItem emailText) (extractAmounts emailText)) as Hitems.
  { unfold expenseItems. rewrite Hlen. cbn [Nat.ltb Nat.leb].
    rewrite lineItems_few by lia.
    rewrite length_map, Hlen. reflexivity. }
  rewrite Hitems. split; [reflexivity|]. split; [|split].
  - rewrite map_map. reflexivity.
  - now rewrite length_map.
  - unfold finalTotal. rewrite length_map, Hlen.
    replace (1 <? 2)%nat with true by reflexivity.
    now rewrite orb_true_r.
Qed.

Lemma two_candidates_both_retained_witness :
  List.length (extractAmounts equalPairEmail) = 2%nat
  /\ exists data,
       handleGetEmailExpense equalPairEmail = Ok data
       /\ map amount (items data) = [of_Z 7; of_Z 7].
Proof.
  assert (List.length (extractAmounts equalPairEmail) = 2%nat) as H
      by (vm_compute; reflexivity).
  split; [exact H|].
  destruct (two_candidates_both_retained equalPairEmail H)
    as (data & Hres & _ & Hamounts & _).
  exists data. split; [exact Hres|].
  rewrite Hamounts. vm_compute. reflexivity.
Defined.

(** ** C4: one distinct value *)

(** C4, as stated, fails: in "Two charges: $5 and $5" both candidates
    have the value 5, yet two line items titled "Expense" come out (total
    10), not the single whole-email item. *)
Lemma equal_pair_not_single_item :
  Forall (fun m => m_amount m = of_Z 5) (extractAmounts sameTwiceEmail)
  /\ extractAmounts sameTwiceEmail <> []
  /\ handleGetEmailExpense sameTwiceEmail
     = Ok (mkData (of_Z 10)
                  [ mkItem (of_Z 5) "Expense" "unknown";
                    mkItem (of_Z 5) "Expense" "unknown" ])
  /\ handleGetEmailExpense sameTwiceEmail
     <> Ok (mkData (of_Z 5) [wholeEmail (of_Z 5)]).
Proof.
  split; [|split; [|split]].
  - vm_compute. repeat constructor.
  - vm_compute. discriminate.
  - vm_compute. reflexivity.
  - vm_compute. discriminate.
Qed.

(** C4, amended: when all candidates share one value [v] (each is [===]
    to [v]) and their number is not exactly two (one candidate, or three
    and more), the pipeline returns the single item [{amount: v, title:
    "Expense from email", category: "unknown"}] with total [v]. *)
Theorem single_value_whole_email (emailText : string) (v : number) :
  extractAmounts emailText <> [] ->
  List.length (extractAmounts emailText) <> 2%nat ->
  (forall m, In m (extractAmounts emailText) -> eqb (m_amount m) v = true) ->
  handleGetEmailExpense emailText = Ok (mkData v [wholeEmail v]).
Proof.
  intros Hne Hlen Hsame.
  assert (forall m, In m (extractAmounts emailText) -> m_amount m = v) as Hall.
  { intros m Hm. apply eqb_positive_eq; [|now apply Hsame].
    now apply (extractAmounts_positive emailText). }
  destruct (handleGetEmailExpense_found emailText Hne)
    as (largest & rest & _ & Hin & Hres).
  rewrite Hres. clear Hres.
  pose proof (extractAmounts_positive _ _ Hin) as Hpos.
  rewrite (Hall _ Hin) in *.
  assert (expenseItems emailText (extractAmounts emailText) v = [wholeEmail v])
    as Hitems.
  { unfold expenseItems.
    destruct (1 <? List.length (extractAmounts emailText))%nat eqn:E1;
      [|reflexivity].
    apply Nat.ltb_lt in E1. rewrite lineItems_many by lia.
    rewrite filter_none; [reflexivity|].
    intros m Hm. now rewrite (Hsame _ Hm). }
  rewrite Hitems. f_equal. f_equal.
  unfold finalTotal, sumAmounts, wholeEmail. cbn [fold_left amount List.length].
  rewrite (add_zero_positive _ Hpos).
  destruct (ltb _ cent || _); reflexivity.
Qed.

Lemma single_value_whole_email_witness :
  extractAmounts sameThriceEmail <> []
  /\ List.length (extractAmounts sameThriceEmail) = 3%nat
  /\ handleGetEmailExpense sameThriceEmail
     = Ok (mkData (of_Z 5) [wholeEmail (of_Z 5)]).
Proof.
  split; [vm_compute; discriminate|].
  split; [vm_compute; reflexivity|].
  apply (single_value_whole_email sameThriceEmail (of_Z 5)).
  - vm_compute. discriminate.
  - vm_compute. discriminate.
  - intros m Hm. vm_compute in Hm.
    repeat (destruct Hm as [<-|Hm]; [vm_compute; reflexivity|]).
    contradiction.
Defined.

(** ** C5: what a successful extraction guarantees *)

(** C5, as stated, fails on the structured path: a parsed bill whose total
    is -5 passes the validation and is returned with total -5, which is not
    greater than or equal to 0. *)
Lemma negative_total_returned :
  exists out,
    (forall s2n o2n, handleGetInvoiceData s2n o2n refundBill = Ok out)
    /\ get out "total" = JNum (of_Z (-5))
    /\ leb zero (of_Z (-5)) = false.
Proof.
  eexists. split; [intros; vm_compute; reflexivity|].
  split; vm_compute; reflexivity.
Qed.

(** On the text path the total is not always finite either: an amount
    beyond the range of a number is parsed as [Infinity]. *)
Example huge_amount_infinite_total :
  handleGetEmailExpense hugeEmail
  = Ok (mkData Infinity [wholeEmail Infinity])
  /\ isFinite Infinity = false.
Proof. split; vm_compute; reflexivity. Qed.

(** C5, amended: whenever either pipeline succeeds the items list is not
    empty. On the text path every item amount is positive and the total is
    positive, hence greater than or equal to 0, and not [NaN] (it may be
    [Infinity]). On the
    structured path the total is the numeric conversion of the parsed
    total, which was truthy; nothing bounds its sign or makes it finite. *)
Theorem successful_extraction_invariant :
  (forall emailText data,
      handleGetEmailExpense emailText = Ok data ->
      items data <> []
      /\ Forall (fun it => ltb zero (amount it) = true) (items data)
      /\ ltb zero (total data) = true
      /\ leb zero (total data) = true
      /\ isNaN (total data) = false)
  /\ (forall s2n o2n parsedData out,
         handleGetInvoiceData s2n o2n parsedData = Ok out ->
         exists t its,
           get out "total" = JNum t
           /\ get out "items" = JArr its
           /\ its <> []
           /\ truthy (get parsedData "total") = true
           /\ Number s2n o2n (get parsedData "total") = Some t).
Proof.
  split.
  - intros emailText data Hok.
    destruct (extractAmounts emailText) as [|m0 ms] eqn:E.
    { rewrite (handleGetEmailExpense_none _ E) in Hok. discriminate. }
    assert (extractAmounts emailText <> []) as Hne by (rewrite E; discriminate).
    destruct (handleGetEmailExpense_found emailText Hne)
      as (largest & rest & _ & Hin & Hres).
    rewrite Hres in Hok. injection Hok as <-. cbn [items total].
    pose proof (extractAmounts_recordable _ _ Hin) as Hrec.
    set (its := expenseItems emailText (extractAmounts emailText)
                             (m_amount largest)).
    assert (Forall (fun it => recordable (amount it)) its) as Hitems.
    { apply expenseItems_amounts; [exact Hrec|].
      apply Forall_forall. intros m. apply extractAmounts_recordable. }
    assert (its <> []) as Hnonempty by apply expenseItems_nonempty.
    assert (ltb zero (finalTotal its (m_amount largest)) = true) as Htotal.
    { unfold finalTotal. destruct (_ || _).
      - now apply sumAmounts_positive.
      - apply Hrec. }
    split; [exact Hnonempty|]. split; [|split; [exact Htotal|split]].
    + eapply Forall_impl; [|exact Hitems]. now intros it [H _].
    + now apply positive_nonneg.
    + now apply positive_not_NaN.
  - intros s2n o2n parsedData out Hok.
    apply handleGetInvoiceData_Ok in Hok
      as (t & its & its' & _ & Ht & Hitems & Hne & Hnum & Hmap & ->).
    destruct (truthy_get_object _ _ Ht) as (properties & ->).
    exists t, its'. cbn [set get].
    rewrite lookup_assign_same.
    rewrite lookup_assign_other by discriminate.
    rewrite lookup_assign_same.
    repeat split; auto.
    apply mapM_Forall2 in Hmap. intros ->. inversion Hmap. congruence.
Qed.

Lemma successful_extraction_invariant_witness :
  (exists data,
      handleGetEmailExpense receiptEmail = Ok data
      /\ items data <> [] /\ leb zero (total data) = true)
  /\ (exists out t its,
         (forall s2n o2n, handleGetInvoiceData s2n o2n refundBill = Ok out)
         /\ get out "total" = JNum t /\ get out "items" = JArr its /\ its <> []).
Proof.
  split.
  - eexists. split; [vm_compute; reflexivity|].
    destruct (proj1 successful_extraction_invariant receiptEmail _ eq_refl)
      as (H1 & _ & _ & H2 & _).
    split; assumption.
  - eexists.
    destruct (proj2 successful_extraction_invariant
                    (fun _ => NaN) (fun _ => None) refundBill _ eq_refl)
      as (t & its & H1 & H2 & H3 & _).
    exists t, its. split; [intros; vm_compute; reflexivity|].
    repeat split; assumption.
Defined.

(** ** C6: when the structured pipeline rejects *)

(** C6, as stated, fails: a parsed bill whose total is the string "n/a",
    which is not numeric, is not rejected; the total is converted and the
    call succeeds (with the category "Groceries" replaced by "unknown"). *)
Lemma non_numeric_total_accepted :
  get unreadableTotalBill "total" = JStr "n/a"
  /\ forall s2n o2n,
       handleGetInvoiceData s2n o2n unreadableTotalBill
       = Ok (JObj [ ("total", JNum (s2n "n/a"));
                    ("items", JArr [ JObj [ ("amount", JNum (of_Z 12));
                                            ("title", JStr "Lunch");
                                            ("head", JStr "unknown") ] ]) ]).
Proof. split; [reflexivity|]. intros. reflexivity. Qed.

(** A total that is present and is the number 0 is falsy: the bill
    [{"total": 0, "items": [{"amount": 0, "title": "Free sample", "head": "food"}]}]
    is rejected. *)
Example zero_total_rejected :
  forall s2n o2n,
    handleGetInvoiceData s2n o2n
      (JObj [ ("total", JNum zero);
              ("items", JArr [ JObj [ ("amount", JNum zero);
                                      ("title", JStr "Free sample");
                                      ("head", JStr "food") ] ]) ])
    = Throw billFailed.
Proof. intros. reflexivity. Qed.

(** C6, amended: take a parsed structure whose total is missing (absent or
    null) or truthy, and whose items, if they are a list, all carry a
    string category and an amount that converts. The call fails, with the
    one bill error, exactly when the total is missing, or its conversion
    to a number throws, or the items are not a non-empty list. A total
    that is not numeric is converted, not rejected. On success every
    category is lower-cased, kept if it belongs to the vocabulary and
    replaced by "unknown" otherwise. *)
Theorem invoice_validation
        (s2n : string -> number) (o2n : jsval -> option number)
        (parsedData : jsval) :
  (get parsedData "total" = JUndefined
   \/ get parsedData "total" = JNull
   \/ truthy (get parsedData "total") = true) ->
  (forall its, get parsedData "items" = JArr its ->
               Forall (wellFormedItem s2n o2n) its) ->
  ((exists out, handleGetInvoiceData s2n o2n parsedData = Ok out) <->
   get parsedData "total" <> JUndefined
   /\ get parsedData "total" <> JNull
   /\ Number s2n o2n (get parsedData "total") <> None
   /\ exists its, get parsedData "items" = JArr its /\ its <> [])
  /\ (forall message,
         handleGetInvoiceData s2n o2n parsedData = Throw message ->
         message = billFailed)
  /\ (forall out,
         handleGetInvoiceData s2n o2n parsedData = Ok out ->
         exists its its',
           get parsedData "items" = JArr its
           /\ get out "items" = JArr its'
           /\ Forall2
                (fun item item' =>
                   exists h,
                     get item "head" = JStr h
                     /\ get item' "head"
                        = JStr (if existsb (String.eqb (toLowerCase h)) validHeads
                                then toLowerCase h else "unknown"))
                its its'
           /\ Forall (fun item' =>
                        exists h, get item' "head" = JStr h /\ In h validHeads)
                     its').
Proof.
  intros Htotal Hitems. split; [|split].
  - rewrite handleGetInvoiceData_succeeds_iff. split.
    + intros (_ & Ht & Hnum & its & Hi & Hne & _).
      repeat split; eauto; intros E; rewrite E in Ht; discriminate.
    + intros (Hu & Hn & Hnum & its & Hi & Hne).
      destruct Htotal as [E|[E|Ht]]; try contradiction.
      destruct (truthy_get_object _ _ Ht) as (properties & ->).
      repeat split; eauto.
  - apply handleGetInvoiceData_Throw.
  - intros out Hok.
    apply handleGetInvoiceData_Ok in Hok
      as (t & its & its' & _ & Ht & Hi & _ & _ & Hmap & ->).
    destruct (truthy_get_object _ _ Ht) as (properties & ->).
    exists its, its'. split; [exact Hi|].
    cbn [set get]. rewrite lookup_assign_same. split; [reflexivity|].
    apply mapM_Forall2 in Hmap. clear Hi Hitems. split.
    + induction Hmap as [|item item' its its' H _ IH]; constructor; auto.
      apply normalizeItem_Some in H as (a & h & _ & Hh & ->).
      exists h. split; [exact Hh|].
      destruct (get_defined_object item "head") as (ps & ->);
        [now rewrite Hh|].
      cbn [set get]. now rewrite lookup_assign_same.
    + induction Hmap as [|item item' its its' H _ IH]; constructor; auto.
      eapply normalizeItem_head; eauto.
Qed.

Lemma invoice_validation_witness :
  exists out,
    handleGetInvoiceData (fun _ => NaN) (fun _ => None) lunchBill = Ok out
    /\ exists its',
         get out "items" = JArr its'
         /\ Forall (fun item' =>
                      exists h, get item' "head" = JStr h /\ In h validHeads)
                   its'.
Proof.
  assert (get lunchBill "total" = JUndefined
          \/ get lunchBill "total" = JNull
          \/ truthy (get lunchBill "total") = true) as H1
      by (right; right; vm_compute; reflexivity).
  assert (forall its, get lunchBill "items" = JArr its ->
                      Forall (wellFormedItem (fun _ => NaN) (fun _ => None)) its)
    as H2.
  { intros its [= <-].
    repeat constructor; try (cbn; discriminate); eexists; reflexivity. }
  destruct (invoice_validation (fun _ => NaN) (fun _ => None) lunchBill H1 H2)
    as (Hiff & _ & Hclamp).
  destruct (proj2 Hiff) as (out & Hok).
  { repeat split; try (cbn; discriminate).
    eexists. split; [reflexivity|discriminate]. }
  exists out. split; [exact Hok|].
  destruct (Hclamp out Hok) as (its & its' & _ & H & _ & Hall).
  exists its'. split; assumption.
Defined.

(** The same bill, evaluated: "FOOD" is lower-cased, "parking" is outside
    the vocabulary. *)
Example lunch_bill_normalised :
  forall s2n o2n,
    handleGetInvoiceData s2n o2n lunchBill
    = Ok (JObj [ ("total", JNum (round_ratio 185 10));
                 ("items", JArr [ JObj [ ("amount", JNum (of_Z 12));
                                         ("title", JStr "Lunch");
                                         ("head", JStr "food") ];
                                  JObj [ ("amount", JNum (round_ratio 65 10));
                                         ("title", JStr "Parking");
                                         ("head", JStr "unknown") ] ]) ]).
Proof. intros. reflexivity. Qed.

(** ** C7: the classifier is total and closed *)

(** C7: for every text [determineCategory] returns one of the twelve
    labels (it is a total function: nothing in it can throw), and when no
    keyword of the table occurs in the text the label is "unknown". *)
Theorem determineCategory_closed (text : string) :
  In (determineCategory text)
     [ "food"; "rent"; "travel"; "utility"; "entertainment"; "shopping";
       "health"; "education"; "gift"; "fitness"; "investment"; "unknown" ]
  /\ ((forall category keywords keyword,
          In (category, keywords) categoryKeywords ->
          In keyword keywords ->
          includes text keyword = false) ->
      determineCategory text = "unknown").
Proof.
  unfold determineCategory.
  destruct (find _ categoryKeywords) as [[category keywords]|] eqn:E.
  - apply find_some in E as [Hin Hex]. split.
    + apply (in_map fst) in Hin. cbn in Hin.
      repeat (destruct Hin as [<-|Hin]; [cbn; tauto|]). contradiction.
    + intros Hnone. apply existsb_exists in Hex as (keyword & Hk & Hinc).
      cbn [snd] in Hk. rewrite (Hnone _ _ _ Hin Hk) in Hinc. discriminate.
  - split; [cbn; tauto|reflexivity].
Qed.

Lemma determineCategory_closed_witness :
  determineCategory "thank you for your order" = "unknown".
Proof.
  apply (proj2 (determineCategory_closed "thank you for your order")).
  intros category keywords keyword Hc Hk. cbn in Hc.
  repeat (destruct Hc as [[= <- <-]|Hc];
          [cbn in Hk;
           repeat (destruct Hk as [<-|Hk]; [vm_compute; reflexivity|]);
           contradiction|]).
  contradiction.
Defined.

(** ** C9: four digits without a separator *)

(** C9: the scan of "$1234.56" yields exactly one candidate, "$123" at
    index 0 with value 123, which is not the number 1234.56. *)
Theorem unseparated_thousands_truncated :
  extractAmounts "$1234.56" = [mkAmount (of_Z 123) "$123" 0]
  /\ of_Z 123 <> parseFloat "1234.56".
Proof.
  split; [vm_compute; reflexivity|vm_compute; discriminate].
Qed.

(** With the separator the amount is read in full. *)
Example separated_thousands_parsed :
  extractAmounts "$1,234.56" = [mkAmount (parseFloat "1234.56") "$1,234.56" 0]
  /\ parseFloat "1234.56" = round_ratio 123456 100.
Proof. split; vm_compute; reflexivity. Qed.

(** ** C10: titles from a lower-cased window *)

(** C10: the window around an amount is lower-cased before the title is
    derived, so the business-name pattern, which starts with an upper-case
    letter, finds nothing in it; the title of every line item built from a
    candidate is therefore either the trimmed group 1 of a match of one of
    the three merchant patterns in the lower-cased window (the amount text
    removed), or the string "Expense". *)
Theorem lowercased_window_title
        (emailText : string) (totalAmount : number) (item : ExpenseItem) :
  In item (lineItems emailText (extractAmounts emailText) totalAmount) ->
  exists m,
    In m (extractAmounts emailText)
    /\ item = lineItem emailText m
    /\ let textWithoutAmount :=
         remove_first (surroundingText emailText m) (m_text m) in
       execAll businessNamePattern textWithoutAmount = []
       /\ (title item = "Expense"
           \/ exists pattern r g,
                In pattern merchantPatterns
                /\ search pattern textWithoutAmount 0 = Some r
                /\ m1 r = Some g
                /\ title item = trim g).
Proof.
  intros Hin. rewrite lineItems_filter in Hin.
  apply in_map_iff in Hin as (m & <- & Hm).
  apply filter_In in Hm as [Hm _].
  exists m. split; [exact Hm|]. split; [reflexivity|].
  cbn [lineItem title].
  apply createTitle_lowercase. apply toLowerCase_noUpper.
Qed.

Lemma lowercased_window_title_witness :
  exists item m,
    In item (lineItems dinerEmail (extractAmounts dinerEmail)
                       (parseFloat "16.75"))
    /\ item = lineItem dinerEmail m
    /\ title item = "joes diner for"
    /\ execAll businessNamePattern
               (remove_first (surroundingText dinerEmail m) (m_text m)) = [].
Proof.
  assert (In (mkItem (parseFloat "12.50") "joes diner for" "food")
             (lineItems dinerEmail (extractAmounts dinerEmail)
                        (parseFloat "16.75"))) as Hin
      by (vm_compute; left; reflexivity).
  destruct (lowercased_window_title dinerEmail _ _ Hin)
    as (m & _ & Hitem & Hnone & _).
  exists (mkItem (parseFloat "12.50") "joes diner for" "food"), m.
  repeat split; assumption.
Defined.

(** The same email through the whole pipeline. *)
Example diner_email_items :
  handleGetEmailExpense dinerEmail
  = Ok (mkData (parseFloat "16.75")
               [ mkItem (parseFloat "12.50") "joes diner for" "food";
                 mkItem (parseFloat "4.25") "starbucks" "unknown" ]).
Proof. vm_compute. reflexivity. Qed.

(** * Further properties *)

(** ** Strings and the matcher *)

Section StringFacts.

Lemma append_nil_r (s : string) : s +++ "" = s.
Proof. induction s; cbn; congruence. Qed.

Lemma append_assoc (a b c : string) : (a +++ b) +++ c = a +++ (b +++ c).
Proof. induction a; cbn; congruence. Qed.

Lemma length_append (a b : string) :
  String.length (a +++ b) = (String.length a + String.length b)%nat.
Proof. induction a; cbn; congruence. Qed.

Lemma take_append_length (w s : string) :
  take (String.length (w +++ s) - String.length s) (w +++ s) = w.
Proof.
  rewrite length_append.
  replace (String.length w + String.length s - String.length s)%nat
    with (String.length w) by lia.
  induction w as [|x w IH]; cbn.
  - now destruct s.
  - now rewrite IH.
Qed.

Lemma take_length_append (w s : string) : take (String.length w) (w +++ s) = w.
Proof.
  induction w as [|x w IH]; cbn; [now destruct s|now rewrite IH].
Qed.

Lemma drop_length_append (w s : string) : drop (String.length w) (w +++ s) = s.
Proof. induction w as [|x w IH]; cbn; auto. Qed.

Lemma take_drop (n : nat) (s : string) : take n s +++ drop n s = s.
Proof.
  revert s. induction n as [|n IH]; intros [|x s]; cbn; auto. now rewrite IH.
Qed.

Lemma length_take (n : nat) (s : string) :
  (n <= String.length s)%nat -> String.length (take n s) = n.
Proof.
  revert s. induction n as [|n IH]; intros [|x s]; cbn; intros; try lia.
  rewrite IH; lia.
Qed.

Lemma length_drop (n : nat) (s : string) :
  String.length (drop n s) = (String.length s - n)%nat.
Proof.
  revert s. induction n as [|n IH]; intros [|x s]; cbn; auto.
Qed.

Lemma drop_drop (n m : nat) (s : string) : drop n (drop m s) = drop (m + n) s.
Proof.
  revert s. induction m as [|m IH]; intros s; cbn [drop Nat.add]; [reflexivity|].
  destruct s as [|x s]; [now destruct n|]. apply IH.
Qed.

End StringFacts.

Section MatcherSound.
Context {A : Type} (ic : bool).

Lemma star_loop_sound (r : regex)
      (IH : forall s c (k : @cont A) x,
          rmatch ic r s c k = Some x ->
          exists w s' c', s = w +++ s' /\ accepts ic r w c c' /\ k s' c' = Some x)
      (n : nat) :
  forall s c (k : @cont A) x,
    star_loop (fun s' c' k' => rmatch ic r s' c' k') n s c k = Some x ->
    exists w s' c',
      s = w +++ s' /\ accepts ic (Star r) w c c' /\ k s' c' = Some x.
Proof.
  induction n as [|n IHn]; intros s c k x; cbn [star_loop].
  - intros H. exists "", s, c. repeat split; auto. constructor.
  - destruct (rmatch ic r s c _) as [y|] eqn:E.
    + intros [= ->]. apply IH in E as (w1 & s1 & c1 & -> & Hacc & E).
      destruct (String.length s1 <? String.length (w1 +++ s1))%nat eqn:Hlt;
        [|discriminate].
      apply Nat.ltb_lt in Hlt. rewrite length_append in Hlt.
      apply IHn in E as (w2 & s2 & c2 & -> & Hacc2 & E).
      exists (w1 +++ w2), s2, c2. split; [now rewrite append_assoc|].
      split; [|exact E].
      econstructor; eauto. intros ->. cbn in Hlt. lia.
    + intros H. exists "", s, c. repeat split; auto. constructor.
Qed.

(** The matcher is sound: what it hands to its continuation is what is
    left of the input after a word that the pattern accepts. *)
Lemma rmatch_sound (r : regex) :
  forall s c (k : @cont A) x,
    rmatch ic r s c k = Some x ->
    exists w s' c', s = w +++ s' /\ accepts ic r w c c' /\ k s' c' = Some x.
Proof.
  induction r as [|a|p|r1 IH1 r2 IH2|r1 IH1 r2 IH2|r1 IH1|r1 IH1];
    intros s c k x; cbn [rmatch].
  - intros H. exists "", s, c. repeat split; auto. constructor.
  - destruct s as [|y s]; [discriminate|].
    destruct (chr_match ic a y) eqn:E; [|discriminate].
    intros H. exists (String y ""), s, c. repeat split; auto. now constructor.
  - destruct s as [|y s]; [discriminate|].
    destruct (p y) eqn:E; [|discriminate].
    intros H. exists (String y ""), s, c. repeat split; auto. now constructor.
  - intros H. apply IH1 in H as (w1 & s1 & c1 & -> & H1 & H).
    apply IH2 in H as (w2 & s2 & c2 & -> & H2 & H).
    exists (w1 +++ w2), s2, c2. split; [now rewrite append_assoc|].
    split; [econstructor; eauto|exact H].
  - destruct (rmatch ic r1 s c k) as [y|] eqn:E.
    + intros [= ->]. apply IH1 in E as (w & s' & c' & -> & H1 & H).
      exists w, s', c'. repeat split; auto. now apply acc_Alt_l.
    + intros H. apply IH2 in H as (w & s' & c' & -> & H2 & H).
      exists w, s', c'. repeat split; auto. now apply acc_Alt_r.
  - apply star_loop_sound. exact IH1.
  - intros H. apply IH1 in H as (w & s' & c' & -> & H1 & H).
    rewrite take_append_length in H.
    exists w, s', (Some w). repeat split; auto. econstructor; eauto.
Qed.

End MatcherSound.

Lemma match_at_sound (re : RegExp) (s : string) (n : nat) (c : capture) :
  match_at re s = Some (n, c) ->
  exists w s', s = w +++ s' /\ n = String.length w
               /\ accepts (ignoreCase re) (source re) w None c.
Proof.
  unfold match_at. intros H.
  apply rmatch_sound in H as (w & s' & c' & -> & Hacc & [= <- <-]).
  exists w, s'. repeat split; auto. rewrite length_append. lia.
Qed.

Section WordFacts.

Lemma every_append (p : ascii -> bool) (a b : string) :
  every p (a +++ b) = every p a && every p b.
Proof. induction a as [|x a IH]; cbn; [reflexivity|]. now rewrite IH, andb_assoc. Qed.

Lemma every_take (p : ascii -> bool) (n : nat) (s : string) :
  every p s = true -> every p (take n s) = true.
Proof.
  revert s. induction n as [|n IH]; intros [|x s]; cbn; auto.
  intros H. apply andb_true_iff in H as [-> H]. now apply IH.
Qed.

Lemma every_drop (p : ascii -> bool) (n : nat) (s : string) :
  every p s = true -> every p (drop n s) = true.
Proof.
  revert s. induction n as [|n IH]; intros [|x s]; cbn; auto.
  intros H. apply andb_true_iff in H as [_ H]. now apply IH.
Qed.

Lemma every_infix (p : ascii -> bool) (g s : string) :
  infix g s -> every p s = true -> every p g = true.
Proof.
  intros (pre & post & ->). rewrite !every_append.
  intros H. apply andb_true_iff in H as [_ H].
  now apply andb_true_iff in H as [H _].
Qed.

Lemma infix_refl (s : string) : infix s s.
Proof. exists "", "". cbn. now rewrite append_nil_r. Qed.

Lemma infix_trans (a b c : string) : infix a b -> infix b c -> infix a c.
Proof.
  intros (p1 & q1 & ->) (p2 & q2 & ->).
  exists (p2 +++ p1), (q1 +++ q2). now rewrite !append_assoc.
Qed.

Lemma infix_append_l (g a b : string) : infix g a -> infix g (a +++ b).
Proof.
  intros (p & q & ->). exists p, (q +++ b). now rewrite !append_assoc.
Qed.

Lemma infix_append_r (g a b : string) : infix g b -> infix g (a +++ b).
Proof.
  intros (p & q & ->). exists (a +++ p), q. now rewrite !append_assoc.
Qed.

Lemma infix_take (n : nat) (s : string) : infix (take n s) s.
Proof. exists "", (drop n s). cbn. apply eq_sym, take_drop. Qed.

Lemma infix_drop (n : nat) (s : string) : infix (drop n s) s.
Proof.
  exists (take n s), "". rewrite append_nil_r. apply eq_sym, take_drop.
Qed.

Lemma infix_length (g s : string) :
  infix g s -> (String.length g <= String.length s)%nat.
Proof. intros (p & q & ->). rewrite !length_append. lia. Qed.

End WordFacts.

Section AcceptFacts.
Variable ic : bool.
Variable p : ascii -> bool.

Lemma accepts_wordsOver (r : regex) (w : string) (c c' : capture) :
  accepts ic r w c c' -> wordsOver ic p r -> every p w = true.
Proof.
  induction 1; cbn [wordsOver]; intros Hr; cbn [every];
    rewrite ?every_append; try reflexivity.
  - now rewrite (Hr _ H).
  - now rewrite (Hr _ H).
  - destruct Hr as [H1 H2]. now rewrite IHaccepts1, IHaccepts2.
  - apply IHaccepts, Hr.
  - apply IHaccepts, Hr.
  - now rewrite IHaccepts1, IHaccepts2.
  - now apply IHaccepts.
Qed.

(** After a match, group 1 is as before or is a piece of the matched word
    made of code units that satisfy [p]. *)
Lemma accepts_capture (r : regex) (w : string) (c c' : capture) :
  accepts ic r w c c' -> groupsOver ic p r ->
  c' = c \/ exists g, c' = Some g /\ infix g w /\ every p g = true.
Proof.
  induction 1; cbn [groupsOver]; intros Hr; auto.
  - destruct Hr as [H1 H2].
    destruct (IHaccepts2 H2) as [->|(g & -> & Hg & Hp)].
    + destruct (IHaccepts1 H1) as [->|(g & -> & Hg & Hp)]; [now left|].
      right. exists g. repeat split; auto. now apply infix_append_l.
    + right. exists g. repeat split; auto. now apply infix_append_r.
  - apply IHaccepts, Hr.
  - apply IHaccepts, Hr.
  - destruct (IHaccepts2 Hr) as [->|(g & -> & Hg & Hp)].
    + destruct (IHaccepts1 Hr) as [->|(g & -> & Hg & Hp)]; [now left|].
      right. exists g. repeat split; auto. now apply infix_append_l.
    + right. exists g. repeat split; auto. now apply infix_append_r.
  - right. exists w. repeat split; [apply infix_refl|].
    eapply accepts_wordsOver; eauto.
Qed.

End AcceptFacts.

(** Where [search] and [scan] find their matches. *)
Lemma search_found (re : RegExp) (s : string) (i : Z) (r : MatchResult) :
  search re s i = Some r ->
  exists off n,
    (off + n <= String.length s)%nat
    /\ index r = (i + Z.of_nat off)%Z
    /\ m0 r = take n (drop off s)
    /\ match_at re (drop off s) = Some (n, m1 r).
Proof.
  revert i. induction s as [|x s IH]; intros i; cbn [search].
  - destruct (match_at re "") as [[n c]|] eqn:E; [|discriminate].
    intros [= <-]. exists 0%nat, n. cbn [drop index m0 m1].
    pose proof (match_at_minLength _ _ _ _ E) as [_ H].
    repeat split; auto; lia.
  - destruct (match_at re (String x s)) as [[n c]|] eqn:E.
    + intros [= <-]. exists 0%nat, n. cbn [drop index m0 m1].
      pose proof (match_at_minLength _ _ _ _ E) as [_ H].
      repeat split; auto; lia.
    + intros H. apply IH in H as (off & n & Hb & Hi & Hm & Ha).
      exists (S off), n. cbn [drop String.length]. repeat split; auto; lia.
Qed.

Lemma scan_found (re : RegExp) (s : string) :
  forall (i : Z) (skip : nat) (r : MatchResult),
    In r (scan re s i skip) ->
    exists off n,
      (skip <= off)%nat /\ (off + n <= String.length s)%nat
      /\ index r = (i + Z.of_nat off)%Z
      /\ m0 r = take n (drop off s)
      /\ match_at re (drop off s) = Some (n, m1 r).
Proof.
  induction s as [|x s IH]; intros i skip r; cbn [scan].
  - destruct skip; [|contradiction].
    destruct (match_at re "") as [[n c]|] eqn:E; [|contradiction].
    intros [<-|[]]. exists 0%nat, n. cbn [drop index m0 m1].
    pose proof (match_at_minLength _ _ _ _ E) as [_ H].
    repeat split; auto; lia.
  - destruct skip as [|skip].
    + destruct (match_at re (String x s)) as [[n c]|] eqn:E.
      * intros [<-|H].
        -- exists 0%nat, n. cbn [drop index m0 m1].
           pose proof (match_at_minLength _ _ _ _ E) as [_ H].
           repeat split; auto; lia.
        -- apply IH in H as (off & k & Hs & Hb & Hi & Hm & Ha).
           exists (S off), k. cbn [drop String.length].
           repeat split; auto; lia.
      * intros H. apply IH in H as (off & k & Hs & Hb & Hi & Hm & Ha).
        exists (S off), k. cbn [drop String.length]. repeat split; auto; lia.
    + intros H. apply IH in H as (off & k & Hs & Hb & Hi & Hm & Ha).
      exists (S off), k. cbn [drop String.length]. repeat split; auto; lia.
Qed.

Section MatcherComplete.
Context {A : Type} (ic : bool).

(** Whenever a pattern accepts a prefix of the input after which the
    continuation succeeds, the matcher succeeds (possibly on an earlier
    alternative). *)
Lemma rmatch_complete (r : regex) (w : string) (c c' : capture) :
  accepts ic r w c c' ->
  forall (s' : string) (k : @cont A) (x : A),
    k s' c' = Some x ->
    exists y, rmatch ic r (w +++ s') c k = Some y.
Proof.
  induction 1 as [c|a x0 c Hx|p x0 c Hx|r1 r2 w1 w2 c c1 c2 H1 IH1 H2 IH2
                 |r1 r2 w c c' H1 IH1|r1 r2 w c c' H2 IH2
                 |r c|r w1 w2 c c1 c2 H1 IH1 Hne H2 IH2|r w c c' H1 IH1];
    intros s' k x Hk.
  - cbn. eauto.
  - cbn. rewrite Hx. eauto.
  - cbn. rewrite Hx. eauto.
  - rewrite append_assoc. cbn [rmatch].
    destruct (IH2 s' k x Hk) as (y & Hy).
    apply (IH1 (w2 +++ s') (fun s0 c0 => rmatch ic r2 s0 c0 k) y Hy).
  - cbn [rmatch]. destruct (IH1 s' k x Hk) as (y & ->). eauto.
  - cbn [rmatch]. destruct (rmatch ic r1 (w +++ s') c k); eauto.
  - cbn [rmatch String.append].
    destruct (String.length s'); cbn [star_loop]; [eauto|].
    destruct (rmatch ic r s' c _); eauto.
  - rewrite append_assoc. cbn [rmatch].
    destruct (IH2 s' k x Hk) as (y & Hy). cbn [rmatch] in Hy.
    destruct (String.length (w1 +++ w2 +++ s')) as [|n] eqn:En.
    { destruct w1; [congruence|discriminate]. }
    cbn [star_loop].
    assert (String.length (w2 +++ s') <= n)%nat as Hle.
    { rewrite length_append in En. destruct w1; [congruence|].
      cbn in En. lia. }
    destruct (IH1 (w2 +++ s')
                  (fun s0 c0 =>
                     if (String.length s0 <? String.length (w1 +++ w2 +++ s'))%nat
                     then star_loop (fun s1 c3 k' => rmatch ic r s1 c3 k')
                                    n s0 c0 k
                     else None) y) as (z & Hz).
    { replace (String.length (w2 +++ s') <? String.length (w1 +++ w2 +++ s'))%nat
        with true by (symmetry; apply Nat.ltb_lt; lia).
      rewrite (star_loop_bound ic r k n (String.length (w2 +++ s')))
        by lia.
      exact Hy. }
    rewrite Hz. eauto.
  - cbn [rmatch].
    apply (IH1 s' (fun s0 _ =>
                     k s0 (Some (take (String.length (w +++ s')
                                       - String.length s0) (w +++ s')))) x).
    now rewrite take_append_length.
Qed.

End MatcherComplete.

(** A match exists at the head of [s] exactly when the pattern accepts a
    prefix of [s]. *)
Lemma match_at_complete (re : RegExp) (w s' : string) (c' : capture) :
  accepts (ignoreCase re) (source re) w None c' ->
  exists n c, match_at re (w +++ s') = Some (n, c).
Proof.
  intros H. unfold match_at.
  destruct (rmatch_complete (ignoreCase re) _ _ _ _ H s'
              (fun s0 c0 =>
                 Some ((String.length (w +++ s') - String.length s0)%nat, c0))
              _ eq_refl) as ([n c] & Hy).
  eauto.
Qed.

(** ** The amount scan *)

Section ScanMore.

Lemma substring_slice (s : string) (off n : nat) :
  (off + n <= String.length s)%nat ->
  substring s (Z.of_nat off) (Z.of_nat off + Z.of_nat n) = take n (drop off s).
Proof.
  intros H. unfold substring.
  replace (Z.to_nat (Z.min (Z.max 0 (Z.of_nat off)) (Z.of_nat (String.length s))))
    with off by lia.
  replace (Z.to_nat (Z.min (Z.max 0 (Z.of_nat off + Z.of_nat n))
                           (Z.of_nat (String.length s))))
    with (off + n)%nat by lia.
  replace (Nat.min off (off + n)) with off by lia.
  replace (Nat.max off (off + n) - off)%nat with n by lia.
  reflexivity.
Qed.

(** A candidate and the match it comes from. *)
Lemma extractAmounts_origin (text : string) (m : AmountMatch) :
  In m (extractAmounts text) ->
  exists re off n g,
    In re amountRegexes
    /\ (1 <= n)%nat /\ (off + n <= String.length text)%nat
    /\ m_index m = Z.of_nat off
    /\ m_text m = take n (drop off text)
    /\ match_at re (drop off text) = Some (n, g)
    /\ m_amount m
       = parseFloat (remove_commas (match g with Some x => x | None => "" end)).
Proof.
  unfold extractAmounts. intros H.
  apply in_flat_map in H as (re & Hre & H).
  apply in_flat_map in H as (r & Hr & H).
  unfold execAll in Hr.
  apply scan_found in Hr as (off & n & _ & Hb & Hi & Hm & Ha).
  unfold candidate in H.
  destruct (negb _ && ltb zero _); [|contradiction].
  destruct H as [<-|[]]. cbn [m_index m_text m_amount].
  exists re, off, n, (m1 r). repeat split; auto.
  eapply amountRegexes_progress; eauto.
Qed.

End ScanMore.

(** X1: every candidate is a non-empty slice of the email: its index and
    the end of its text lie within the email, and its text is the text of
    the email between them. *)
Theorem candidate_is_slice (text : string) (m : AmountMatch) :
  In m (extractAmounts text) ->
  (0 <= m_index m)%Z
  /\ (1 <= String.length (m_text m))%nat
  /\ (m_index m + Z.of_nat (String.length (m_text m))
      <= Z.of_nat (String.length text))%Z
  /\ substring text (m_index m)
               (m_index m + Z.of_nat (String.length (m_text m)))
     = m_text m.
Proof.
  intros H.
  apply extractAmounts_origin in H
    as (re & off & n & g & _ & Hn & Hb & -> & -> & _ & _).
  assert (String.length (take n (drop off text)) = n) as Hlen
      by (apply length_take; rewrite length_drop; lia).
  rewrite Hlen. repeat split; try lia.
  now apply substring_slice.
Qed.

Lemma candidate_is_slice_witness :
  exists m,
    In m (extractAmounts paymentEmail)
    /\ m_index m = 5%Z
    /\ substring paymentEmail 5 22 = m_text m.
Proof.
  exists (mkAmount (of_Z 45) "payment of $45.00" 5).
  assert (In (mkAmount (of_Z 45) "payment of $45.00" 5)
             (extractAmounts paymentEmail)) as H
      by (vm_compute; right; left; reflexivity).
  split; [exact H|]. split; [reflexivity|].
  destruct (candidate_is_slice paymentEmail _ H) as (_ & _ & _ & Hs).
  exact Hs.
Defined.

Section ScanOrder.
Variable re : RegExp.

Lemma scan_ordered (s : string) :
  forall (i : Z) (skip : nat),
    ForallOrdPairs
      (fun a b => (index a + Z.of_nat (String.length (m0 a)) <= index b)%Z)
      (scan re s i skip).
Proof.
  induction s as [|x s IH]; intros i skip; cbn [scan].
  - destruct skip; [|constructor].
    destruct (match_at re "") as [[n c]|]; repeat constructor.
  - destruct skip as [|skip]; [|apply IH].
    destruct (match_at re (String x s)) as [[n c]|] eqn:E; [|apply IH].
    constructor; [|apply IH].
    apply Forall_forall. intros r Hr.
    apply scan_found in Hr as (off & k & Hs & _ & -> & _ & _).
    cbn [index m0].
    pose proof (match_at_minLength _ _ _ _ E) as [_ Hn].
    rewrite length_take by exact Hn. lia.
Qed.

Lemma candidates_ordered (l : list MatchResult) :
  ForallOrdPairs
    (fun a b => (index a + Z.of_nat (String.length (m0 a)) <= index b)%Z) l ->
  ForallOrdPairs
    (fun a b =>
       (m_index a + Z.of_nat (String.length (m_text a)) <= m_index b)%Z)
    (flat_map candidate l).
Proof.
  induction 1 as [|r l Hr _ IH]; cbn [flat_map]; [constructor|].
  unfold candidate at 1.
  destruct (negb _ && ltb zero _); [|exact IH].
  cbn [app]. constructor; [|exact IH].
  apply Forall_forall. intros m Hm.
  apply in_flat_map in Hm as (r' & Hr' & Hm).
  rewrite Forall_forall in Hr. specialize (Hr _ Hr').
  unfold candidate in Hm.
  destruct (negb _ && ltb zero _); [|contradiction].
  destruct Hm as [<-|[]]. exact Hr.
Qed.

End ScanOrder.

Section DigitFacts.

Lemma noDigit_append (a b : string) :
  noDigit (a +++ b) = noDigit a && noDigit b.
Proof. apply every_append. Qed.

Lemma needsDigit_digit (ic : bool) : needsDigit ic digit.
Proof.
  intros w c c' H. inversion H; subst. cbn.
  match goal with E : isDigit _ = true |- _ => now rewrite E end.
Qed.

Lemma needsDigit_seq_l (ic : bool) (r1 r2 : regex) :
  needsDigit ic r1 -> needsDigit ic (Seq r1 r2).
Proof.
  intros H1 w c c' H. inversion H; subst.
  rewrite noDigit_append. erewrite H1; eauto.
Qed.

Lemma needsDigit_seq_r (ic : bool) (r1 r2 : regex) :
  needsDigit ic r2 -> needsDigit ic (Seq r1 r2).
Proof.
  intros H2 w c c' H. inversion H; subst.
  rewrite noDigit_append. erewrite (H2 w2); eauto. apply andb_false_r.
Qed.

Lemma needsDigit_grp (ic : bool) (r : regex) :
  needsDigit ic r -> needsDigit ic (Grp r).
Proof. intros H1 w c c' H. inversion H; subst. eauto. Qed.

Lemma needsDigit_amountGroup (ic : bool) : needsDigit ic amountGroup.
Proof.
  unfold amountGroup. cbn [Cat Rep Times].
  apply needsDigit_grp.
  do 3 apply needsDigit_seq_l. apply needsDigit_digit.
Qed.

Lemma amountRegexes_needDigit :
  Forall (fun re => needsDigit (ignoreCase re) (source re)) amountRegexes.
Proof.
  unfold amountRegexes, amountTail.
  repeat constructor; cbn [source ignoreCase Cat];
    repeat first [ apply needsDigit_amountGroup
                 | apply needsDigit_seq_l; apply needsDigit_amountGroup
                 | apply needsDigit_seq_r ].
Qed.

Lemma scan_none (re : RegExp) (s : string) :
  (forall off, match_at re (drop off s) = None) ->
  forall i skip, scan re s i skip = [].
Proof.
  induction s as [|x s IH]; intros H i skip.
  - destruct skip; [|reflexivity]. cbn [scan].
    pose proof (H 0%nat) as H0. cbn [drop] in H0. now rewrite H0.
  - assert (forall off, match_at re (drop off s) = None) as H'
        by (intros off; apply (H (S off))).
    destruct skip; cbn [scan]; [|now apply IH].
    pose proof (H 0%nat) as H0. cbn [drop] in H0. rewrite H0. now apply IH.
Qed.

Lemma noDigit_no_match (re : RegExp) (s : string) :
  needsDigit (ignoreCase re) (source re) ->
  noDigit s = true -> match_at re s = None.
Proof.
  intros Hre Hs. destruct (match_at re s) as [[n c]|] eqn:E; [|reflexivity].
  apply match_at_sound in E as (w & s' & -> & _ & Hacc).
  rewrite noDigit_append, (Hre _ _ _ Hacc) in Hs. discriminate.
Qed.

End DigitFacts.

(** X3: a text without a decimal digit has no candidate, and the pipeline
    fails on it; so it does on the empty text and on white space. *)
Theorem digitless_text_fails (text : string) :
  noDigit text = true ->
  extractAmounts text = []
  /\ handleGetEmailExpense text = Throw failed.
Proof.
  intros H.
  assert (extractAmounts text = []) as E.
  { unfold extractAmounts.
    pose proof amountRegexes_needDigit as Hall. rewrite Forall_forall in Hall.
    induction amountRegexes as [|re res IH]; [reflexivity|].
    cbn [flat_map]. rewrite IH by (intros r Hr; apply Hall; now right).
    unfold execAll. rewrite scan_none; [reflexivity|].
    intros off. apply noDigit_no_match; [apply Hall; now left|].
    now apply every_drop. }
  split; [exact E|]. now apply handleGetEmailExpense_none.
Qed.

Lemma digitless_text_fails_witness :
  handleGetEmailExpense "hello world" = Throw failed
  /\ handleGetEmailExpense "" = Throw failed.
Proof.
  split.
  - apply (digitless_text_fails "hello world"). vm_compute. reflexivity.
  - apply (digitless_text_fails ""). reflexivity.
Defined.

Section GroupFacts.
Variable ic : bool.
Variable Q : string -> Prop.

Lemma accepts_group (r : regex) (w : string) (c c' : capture) :
  accepts ic r w c c' -> groupsSat ic Q r ->
  c' = c \/ exists g, c' = Some g /\ Q g.
Proof.
  induction 1 as [c|a x c Hx|p x c Hx|r1 r2 w1 w2 c c1 c2 H1 IH1 H2 IH2
                 |r1 r2 w c c' H1 IH1|r1 r2 w c c' H2 IH2
                 |r c|r w1 w2 c c1 c2 H1 IH1 Hne H2 IH2|r w c c' H1 IH1];
    cbn [groupsSat]; intros Hg; auto.
  - destruct Hg as [Hg1 Hg2].
    destruct (IH2 Hg2) as [->|Hs]; [auto|now right].
  - destruct Hg as [Hg1 _]. auto.
  - destruct Hg as [_ Hg2]. auto.
  - destruct (IH2 Hg) as [->|Hs]; [auto|now right].
  - right. exists w. split; [reflexivity|]. eapply Hg; eauto.
Qed.

End GroupFacts.

Section LiteralFacts.

Lemma remove_commas_append (a b : string) :
  remove_commas (a +++ b) = remove_commas a +++ remove_commas b.
Proof.
  induction a as [|c a IH]; cbn; [reflexivity|].
  destruct (code c =? 44)%nat; cbn; now rewrite IH.
Qed.

Lemma remove_commas_digits (w : string) :
  every digitOrComma w = true -> every isDigit (remove_commas w) = true.
Proof.
  induction w as [|c w IH]; cbn; [reflexivity|].
  intros H. apply andb_true_iff in H as [Hc H].
  destruct (code c =? 44)%nat eqn:E; [auto|].
  cbn. unfold digitOrComma in Hc. rewrite E, orb_false_r in Hc.
  now rewrite Hc, IH.
Qed.

Lemma chr_match_comma (ic : bool) (x : ascii) :
  chr_match ic "," x = true -> x = ","%char.
Proof.
  destruct ic, x as [[] [] [] [] [] [] [] []]; vm_compute; congruence.
Qed.

Lemma chr_match_point (ic : bool) (x : ascii) :
  chr_match ic "." x = true -> x = "."%char.
Proof.
  destruct ic, x as [[] [] [] [] [] [] [] []]; vm_compute; congruence.
Qed.

Lemma isDigit_not_comma (x : ascii) : isDigit x = true -> (code x =? 44)%nat = false.
Proof. destruct x as [[] [] [] [] [] [] [] []]; vm_compute; congruence. Qed.

Lemma accepts_digit (ic : bool) (w : string) (c c' : capture) :
  accepts ic digit w c c' -> exists x, w = String x "" /\ isDigit x = true.
Proof. intros H. inversion H; subst. eauto. Qed.

Lemma accepts_Eps (ic : bool) (w : string) (c c' : capture) :
  accepts ic Eps w c c' -> w = "".
Proof. intros H. now inversion H. Qed.

Lemma accepts_Seq (ic : bool) (r1 r2 : regex) (w : string) (c c' : capture) :
  accepts ic (Seq r1 r2) w c c' ->
  exists w1 w2 c1, w = w1 +++ w2 /\ accepts ic r1 w1 c c1
                   /\ accepts ic r2 w2 c1 c'.
Proof. intros H. inversion H; subst. eauto 6. Qed.

Lemma accepts_Alt (ic : bool) (r1 r2 : regex) (w : string) (c c' : capture) :
  accepts ic (Alt r1 r2) w c c' ->
  accepts ic r1 w c c' \/ accepts ic r2 w c c'.
Proof. intros H. inversion H; subst; auto. Qed.

(** The words of [\d{1,3}(?:,\d{3})*(?:\.\d{2})?]. *)
Lemma amountGroup_literal (ic : bool) :
  groupsSat ic amountLiteral amountGroup.
Proof.
  unfold amountGroup. cbn [groupsSat Cat]. intros w c c' H.
  apply accepts_Seq in H as (w1 & w23 & c1 & -> & H1 & H).
  apply accepts_Seq in H as (w2 & w3 & c2 & -> & H2 & H3).
  assert (every digitOrComma w1 = true) as E1.
  { eapply accepts_wordsOver; [exact H1|]. cbn.
    unfold digitOrComma. repeat split; auto; intros x ->; reflexivity. }
  assert (every digitOrComma w2 = true) as E2.
  { eapply accepts_wordsOver; [exact H2|]. cbn.
    unfold digitOrComma.
    repeat split; auto; intros x Hx;
      try (apply chr_match_comma in Hx; subst x; reflexivity);
      rewrite Hx; reflexivity. }
  assert (exists x rest, w1 = String x rest /\ isDigit x = true) as
      (x & rest & -> & Hx).
  { unfold Rep in H1. cbn [Times Nat.sub] in H1.
    apply accepts_Seq in H1 as (a & b & c3 & -> & Ha & _).
    apply accepts_Seq in Ha as (a1 & a2 & c4 & -> & Ha1 & Ha2).
    apply accepts_digit in Ha1 as (x & -> & Hx).
    apply accepts_Eps in Ha2 as ->. cbn. eauto. }
  exists (remove_commas (String x rest +++ w2)), (remove_commas w3).
  split; [now rewrite <- remove_commas_append, append_assoc|].
  split.
  { apply remove_commas_digits. rewrite every_append. now rewrite E1, E2. }
  split.
  { cbn [String.append remove_commas]. rewrite (isDigit_not_comma _ Hx).
    discriminate. }
  unfold Opt in H3. apply accepts_Alt in H3 as [H3|H3].
  - right. cbn [Cat] in H3.
    apply accepts_Seq in H3 as (p & dd & c3 & -> & Hp & Hdd).
    inversion Hp as [|a y c0 Hy| | | | | | |]; subst.
    apply chr_match_point in Hy. subst y.
    unfold Rep in Hdd. cbn [Times Nat.sub UpTo] in Hdd.
    apply accepts_Seq in Hdd as (a & b & c4 & -> & Ha & Hb).
    apply accepts_Eps in Hb as ->.
    apply accepts_Seq in Ha as (a1 & a2 & c5 & -> & Ha1 & Ha2).
    apply accepts_digit in Ha1 as (d1 & -> & Hd1).
    apply accepts_Seq in Ha2 as (a3 & a4 & c6 & -> & Ha3 & Ha4).
    apply accepts_digit in Ha3 as (d2 & -> & Hd2).
    apply accepts_Eps in Ha4 as ->.
    exists d1, d2. split; [exact Hd1|]. split; [exact Hd2|].
    cbn. now rewrite (isDigit_not_comma _ Hd1), (isDigit_not_comma _ Hd2).
  - left. apply accepts_Eps in H3 as ->. reflexivity.
Qed.

Lemma amountRegexes_literal :
  Forall (fun re => groupsSat (ignoreCase re) amountLiteral (source re))
         amountRegexes.
Proof.
  pose proof amountGroup_literal as Hg.
  unfold amountRegexes, amountTail, colonOrOf, currencyWord.
  repeat apply Forall_cons; try apply Forall_nil;
    cbn [source ignoreCase Cat Any Lit Opt Plus groupsSat ws];
    repeat match goal with |- _ /\ _ => split end;
    try exact I; apply Hg.
Qed.

End LiteralFacts.

Section ParseFacts.

Lemma digits_decimal (ds tail : string) :
  every isDigit ds = true ->
  match tail with String c _ => isDigit c = false | EmptyString => True end ->
  forall acc count,
    digits acc count (ds +++ tail)
    = (decimal acc ds, (count + String.length ds)%nat, tail).
Proof.
  intros Hds Htail. induction ds as [|c ds IH]; intros acc count.
  - cbn [String.append decimal String.length]. rewrite Nat.add_0_r.
    destruct tail as [|t tail]; [reflexivity|]. cbn [digits]. now rewrite Htail.
  - cbn in Hds. apply andb_true_iff in Hds as [Hc Hds].
    cbn [String.append digits decimal String.length]. rewrite Hc.
    rewrite IH by exact Hds. f_equal. f_equal. lia.
Qed.

Lemma decimal_nonneg (s : string) (acc : Z) : (0 <= acc -> 0 <= decimal acc s)%Z.
Proof.
  revert acc. induction s as [|c s IH]; intros acc H; cbn [decimal]; [exact H|].
  apply IH. lia.
Qed.

Lemma decimal_append (a b : string) (acc : Z) :
  decimal acc (a +++ b) = decimal (decimal acc a) b.
Proof. revert acc. induction a as [|c a IH]; intros acc; cbn; auto. Qed.

End ParseFacts.

Section ParseLiteral.

Lemma parseFloat_whole (whole : string) :
  every isDigit whole = true -> whole <> "" ->
  parseFloat whole = round_ratio (decimal 0 whole) 1.
Proof.
  intros Hd Hne. destruct whole as [|x rest]; [congruence|].
  cbn in Hd. apply andb_true_iff in Hd as [Hx Hrest].
  pose proof (digits_decimal rest "" Hrest I) as Hdig.
  rewrite append_nil_r in Hdig.
  unfold parseFloat. remember round_ratio as rr eqn:Err.
  destruct x as [[] [] [] [] [] [] [] []]; try discriminate Hx.
  all: simpl; rewrite Hdig; simpl.
  all: rewrite Z.mul_1_r; reflexivity.
Qed.

Lemma parseFloat_cents (whole : string) (d1 d2 : ascii) :
  every isDigit whole = true -> whole <> "" ->
  isDigit d1 = true -> isDigit d2 = true ->
  parseFloat (whole +++ String "." (String d1 (String d2 "")))
  = round_ratio (decimal 0 (whole +++ String d1 (String d2 ""))) 100.
Proof.
  intros Hd Hne H1 H2. destruct whole as [|x rest]; [congruence|].
  cbn in Hd. apply andb_true_iff in Hd as [Hx Hrest].
  pose proof (digits_decimal rest (String "." (String d1 (String d2 "")))
                             Hrest eq_refl) as Hdig.
  rewrite decimal_append.
  unfold parseFloat. remember round_ratio as rr eqn:Err.
  destruct x as [[] [] [] [] [] [] [] []]; try discriminate Hx.
  all: simpl; rewrite Hdig; simpl; rewrite H1, H2; simpl.
  all: reflexivity.
Qed.

End ParseLiteral.

Section GroupAmid.
Variable ic : bool.
Variable p : ascii -> bool.

Lemma noGroup_accepts (r : regex) (w : string) (c c' : capture) :
  accepts ic r w c c' -> noGroup r = true -> c' = c.
Proof.
  induction 1; cbn [noGroup]; intros Hr;
    try apply andb_true_iff in Hr as [Hr1 Hr2]; auto; try discriminate.
  - rewrite IHaccepts2, IHaccepts1; auto.
  - rewrite IHaccepts2, IHaccepts1; auto.
Qed.

Lemma groupAmid_grp (r : regex) : groupAmid ic p (Grp r).
Proof.
  intros w c c' H. inversion H; subst.
  exists "", w, "". rewrite append_nil_r. auto.
Qed.

Lemma groupAmid_seq_l (r1 r2 : regex) :
  wordsOver ic p r1 -> noGroup r1 = true -> groupAmid ic p r2 ->
  groupAmid ic p (Seq r1 r2).
Proof.
  intros Hw Hn H2 w c c' H. inversion H; subst.
  match goal with
  | H1 : accepts ic r1 ?w1 c ?c1, H3 : accepts ic r2 ?w2 ?c1 c' |- _ =>
      pose proof (accepts_wordsOver _ _ _ _ _ _ H1 Hw) as E1;
      destruct (H2 _ _ _ H3) as (a & g & b & -> & Ea & Eb & ->);
      exists (w1 +++ a), g, b
  end.
  rewrite every_append, E1, Ea, append_assoc. auto.
Qed.

Lemma groupAmid_seq_r (r1 r2 : regex) :
  groupAmid ic p r1 -> wordsOver ic p r2 -> noGroup r2 = true ->
  groupAmid ic p (Seq r1 r2).
Proof.
  intros H1 Hw Hn w c c' H. inversion H; subst.
  match goal with
  | H3 : accepts ic r1 ?w1 c ?c1, H4 : accepts ic r2 ?w2 ?c1 c' |- _ =>
      pose proof (accepts_wordsOver _ _ _ _ _ _ H4 Hw) as E2;
      pose proof (noGroup_accepts _ _ _ _ H4 Hn) as Ec;
      destruct (H1 _ _ _ H3) as (a & g & b & -> & Ea & Eb & ->);
      exists a, g, (b +++ w2)
  end.
  rewrite every_append, E2, Ea, Eb, !append_assoc. auto.
Qed.

End GroupAmid.

Section KeepFacts.

Lemma keep_append (p : ascii -> bool) (a b : string) :
  keep p (a +++ b) = keep p a +++ keep p b.
Proof.
  induction a as [|x a IH]; cbn; [reflexivity|].
  destruct (p x); cbn; now rewrite IH.
Qed.

Lemma occurs_append (x : ascii) (a b : string) :
  occurs x (a +++ b) = occurs x a || occurs x b.
Proof.
  induction a as [|y a IH]; cbn; [reflexivity|]. now rewrite IH, orb_assoc.
Qed.

Lemma keep_plain (s : string) :
  every notDigitPoint s = true ->
  keep isDigit s = "" /\ occurs "." s = false.
Proof.
  induction s as [|x s IH]; cbn; [auto|]. intros H.
  apply andb_true_iff in H as [Hx H]. destruct (IH H) as [-> ->].
  unfold notDigitPoint in Hx. apply andb_true_iff in Hx as [Hd Hp].
  apply negb_true_iff in Hd, Hp. now rewrite Hd, Hp.
Qed.

Lemma isDigit_not_point (x : ascii) :
  isDigit x = true -> Ascii.eqb x "." = false.
Proof. destruct x as [[] [] [] [] [] [] [] []]; vm_compute; congruence. Qed.

Lemma keep_digits (s : string) :
  every isDigit s = true -> keep isDigit s = s /\ occurs "." s = false.
Proof.
  induction s as [|x s IH]; cbn; [auto|]. intros H.
  apply andb_true_iff in H as [Hx H]. destruct (IH H) as [-> ->].
  now rewrite Hx, (isDigit_not_point _ Hx).
Qed.

Lemma comma_plain (x : ascii) :
  (code x =? 44)%nat = true -> isDigit x = false /\ Ascii.eqb x "." = false.
Proof. destruct x as [[] [] [] [] [] [] [] []]; vm_compute; intuition congruence. Qed.

Lemma keep_remove_commas (s : string) :
  keep isDigit (remove_commas s) = keep isDigit s
  /\ occurs "." (remove_commas s) = occurs "." s.
Proof.
  induction s as [|x s [IH1 IH2]]; cbn; [auto|].
  destruct (code x =? 44)%nat eqn:E.
  - destruct (comma_plain _ E) as [-> ->]. auto.
  - cbn. now rewrite IH1, IH2.
Qed.

Lemma canonChar_plain (x : ascii) :
  notDigitPoint (canonChar x) = notDigitPoint x.
Proof. destruct x as [[] [] [] [] [] [] [] []]; reflexivity. Qed.

Lemma chr_match_plain (ic : bool) (a x : ascii) :
  notDigitPoint a = true -> chr_match ic a x = true -> notDigitPoint x = true.
Proof.
  unfold chr_match. intros Ha H. destruct ic; apply Ascii.eqb_eq in H.
  - now rewrite <- canonChar_plain, <- H, canonChar_plain.
  - now subst.
Qed.

Lemma isSpace_plain (x : ascii) : isSpace x = true -> notDigitPoint x = true.
Proof. destruct x as [[] [] [] [] [] [] [] []]; vm_compute; congruence. Qed.

(** In every amount pattern the group is set by every match, and what the
    match consumes around it holds no digit and no point. *)
Lemma amountRegexes_amid :
  Forall (fun re => groupAmid (ignoreCase re) notDigitPoint (source re))
         amountRegexes.
Proof.
  unfold amountRegexes, amountTail, colonOrOf, currencyWord, amountGroup.
  repeat apply Forall_cons; try apply Forall_nil;
    cbn [source ignoreCase Cat];
    repeat first
           [ apply groupAmid_grp
           | apply groupAmid_seq_r;
             [apply groupAmid_grp| |reflexivity]
           | apply groupAmid_seq_l; [|reflexivity|] ];
    cbn [wordsOver Cat Any Lit Opt Plus ws];
    repeat match goal with |- _ /\ _ => split end;
    try exact I; try exact isSpace_plain;
    intros x; apply chr_match_plain; reflexivity.
Qed.

End KeepFacts.

(** X4: the amount of every candidate is read off its matched text: the
    digits of the text, in their order, give a positive whole number, and
    the amount is the number nearest to it when the text holds no point and
    the number nearest to its hundredth when the text holds one. So no
    sign, exponent or [Infinity] literal ever reaches [parseFloat] from the
    scan, and the words around the group add no digit and no point. *)
Theorem candidate_amount_decimal (text : string) (m : AmountMatch) :
  In m (extractAmounts text) ->
  (0 < decimal 0 (keep isDigit (m_text m)))%Z
  /\ m_amount m
     = round_ratio (decimal 0 (keep isDigit (m_text m)))
                   (if occurs "." (m_text m) then 100 else 1).
Proof.
  intros H. pose proof (extractAmounts_positive _ _ H) as Hpos.
  apply extractAmounts_origin in H
    as (re & off & n & g & Hre & _ & _ & _ & Ht & Hm & Ha).
  apply match_at_sound in Hm as (w & s' & Hs & Hn & Hacc).
  rewrite Hs, Hn, take_length_append in Ht.
  pose proof amountRegexes_literal as Hall. rewrite Forall_forall in Hall.
  pose proof amountRegexes_amid as Hamid. rewrite Forall_forall in Hamid.
  destruct (Hamid _ Hre _ _ _ Hacc) as (a & gw & b & Hw & Ea & Eb & Hg).
  destruct (accepts_group _ _ _ _ _ _ Hacc (Hall _ Hre))
    as [E|(gw' & E & whole & cents & Hlit & Hwhole & Hne & Hc)];
    [congruence|].
  assert (gw' = gw) as -> by congruence. subst g.
  destruct (keep_plain _ Ea) as [Ka Oa]. destruct (keep_plain _ Eb) as [Kb Ob].
  destruct (keep_remove_commas gw) as [Kg Og].
  destruct (keep_digits _ Hwhole) as [Kw Ow].
  rewrite Ht, Hw, !keep_append, !occurs_append, Ka, Kb, Oa, Ob, append_nil_r,
    orb_false_r.
  cbn [String.append orb]. rewrite <- Kg, <- Og, Hlit, keep_append,
                             occurs_append, Kw, Ow.
  cbn [orb]. rewrite Hlit in Ha.
  assert (forall n d, m_amount m = round_ratio (decimal 0 n) d ->
                      (0 < decimal 0 n)%Z) as Hk.
  { intros ds d Hv.
    pose proof (decimal_nonneg ds 0 (Z.le_refl 0)) as H0.
    destruct (Z.eq_dec (decimal 0 ds) 0) as [E0|]; [|lia].
    exfalso. rewrite E0 in Hv. rewrite Hv in Hpos.
    vm_compute in Hpos. discriminate. }
  destruct Hc as [->|(d1 & d2 & H1 & H2 & ->)].
  - rewrite append_nil_r, parseFloat_whole in Ha by assumption.
    cbn [keep occurs]. rewrite append_nil_r. eauto.
  - rewrite parseFloat_cents in Ha by assumption.
    cbn [keep occurs]. rewrite H1, H2. cbn [Ascii.eqb Bool.eqb orb]. eauto.
Qed.

Lemma candidate_amount_decimal_witness :
  (0 < decimal 0 (keep isDigit "$45.00"))%Z
  /\ parseFloat "45.00"
     = round_ratio (decimal 0 (keep isDigit "$45.00"))
                   (if occurs "." "$45.00" then 100 else 1).
Proof.
  apply (candidate_amount_decimal paymentEmail (mkAmount (of_Z 45) "$45.00" 16)).
  vm_compute. left. reflexivity.
Defined.

Section RatioFacts.

Lemma digits2_pos_lower (p : positive) :
  (2 ^ (Zpos (digits2_pos p) - 1) <= Zpos p)%Z.
Proof.
  induction p as [p IH|p IH|]; cbn [digits2_pos]; [| |cbn; lia].
  - rewrite Pos2Z.inj_succ.
    replace (Z.succ (Zpos (digits2_pos p)) - 1)%Z
      with (1 + (Zpos (digits2_pos p) - 1))%Z by lia.
    rewrite Z.pow_add_r by lia. change (2 ^ 1)%Z with 2%Z. lia.
  - rewrite Pos2Z.inj_succ.
    replace (Z.succ (Zpos (digits2_pos p)) - 1)%Z
      with (1 + (Zpos (digits2_pos p) - 1))%Z by lia.
    rewrite Z.pow_add_r by lia. change (2 ^ 1)%Z with 2%Z. lia.
Qed.

(** The nearest number to a positive fraction with a small denominator is
    positive: the quotient does not vanish. *)
Lemma round_ratio_positive (n d : Z) :
  (0 < n)%Z -> (0 < d <= 100)%Z -> ltb zero (round_ratio n d) = true.
Proof.
  intros Hn Hd. unfold round_ratio.
  destruct n as [|p|p]; try lia.
  unfold SFdiv_core_binary.
  set (d1 := Zdigits2 (Zpos p)). set (d2 := Zdigits2 d).
  assert (1 <= d1)%Z as Hd1 by (unfold d1; cbn; lia).
  assert (1 <= d2)%Z as Hd2 by (unfold d2; destruct d; cbn; lia).
  pose proof (digits2_pos_lower p) as Hlow. fold (Zdigits2 (Zpos p)) in Hlow.
  change (Zpos (digits2_pos p)) with d1 in Hlow.
  set (e' := Z.min (fexp prec emax (d1 + 0 - (d2 + 0))) (0 - 0)).
  set (s := (0 - 0 - e')%Z).
  assert (emin = (-1074)%Z) as Hemin by reflexivity.
  assert (emin <= e')%Z as He'.
  { unfold e'. pose proof (fexp_emin (d1 + 0 - (d2 + 0))). lia. }
  assert (0 <= s /\ 7 <= d1 - 1 + s)%Z as [Hs0 Hs7].
  { assert (prec = 53%Z) as Hprec by reflexivity.
    unfold s, e', fexp. change (SpecFloat.emin prec emax) with emin. lia. }
  set (m' := match s with
             | 0%Z => Zpos p
             | Zpos _ => Z.shiftl (Zpos p) s
             | Zneg _ => 0%Z
             end).
  assert (m' = Zpos p * 2 ^ s)%Z as Hm'.
  { unfold m'. destruct s as [|q|q] eqn:E; [cbn; lia| |lia].
    now rewrite Z.shiftl_mul_pow2 by lia. }
  assert (128 <= m')%Z as Hbig.
  { rewrite Hm'.
    assert (2 ^ 7 <= 2 ^ (d1 - 1 + s))%Z as H7
        by (apply Z.pow_le_mono_r; lia).
    rewrite Z.pow_add_r in H7 by lia. change (2 ^ 7)%Z with 128%Z in H7.
    assert (0 < 2 ^ s)%Z by (apply Z.pow_pos_nonneg; lia).
    apply (Z.le_trans _ (2 ^ (d1 - 1) * 2 ^ s)); [exact H7|].
    apply Z.mul_le_mono_nonneg_r; [lia|exact Hlow]. }
  pose proof (Z.div_str_pos m' d) as Hq. unfold Z.div in Hq.
  destruct (Z.div_eucl m' d) as [q r]. cbn [fst] in Hq.
  apply binary_round_aux_positive; [apply Hq; lia|exact He'].
Qed.

Lemma decimal_ge (s : string) (acc : Z) : (0 <= acc -> acc <= decimal acc s)%Z.
Proof.
  revert acc. induction s as [|c s IH]; intros acc H; cbn [decimal]; [lia|].
  specialize (IH (10 * acc + Z.of_nat (code c - 48))%Z). lia.
Qed.

End RatioFacts.

Section ScanVisits.
Variable re : RegExp.

(** The scan reports the match at [off] when no match that starts earlier
    reaches beyond [off]. *)
Lemma scan_visits (s : string) :
  forall (i : Z) (skip off n : nat) (c : capture),
    (skip <= off)%nat -> (off < String.length s)%nat ->
    match_at re (drop off s) = Some (n, c) ->
    (forall off' n' c',
        (off' < off)%nat -> match_at re (drop off' s) = Some (n', c') ->
        (off' + n' <= off)%nat) ->
    In (mkMatch (take n (drop off s)) c (i + Z.of_nat off)) (scan re s i skip).
Proof.
  induction s as [|x s IH]; intros i skip off n c Hskip Hoff Hm Hfree;
    [cbn in Hoff; lia|].
  assert (forall off1,
             off = S off1 ->
             forall off' n' c',
               (off' < off1)%nat -> match_at re (drop off' s) = Some (n', c') ->
               (off' + n' <= off1)%nat) as Hfree'.
  { intros off1 -> off' n' c' Hlt Hm'.
    specialize (Hfree (S off') n' c'). cbn [drop] in Hfree.
    specialize (Hfree ltac:(lia) Hm'). lia. }
  cbn [scan]. destruct skip as [|skip].
  - destruct (match_at re (String x s)) as [[n0 c0]|] eqn:E0.
    + destruct off as [|off1].
      * cbn [drop] in Hm |- *. rewrite E0 in Hm. injection Hm as <- <-.
        left. f_equal. lia.
      * right. cbn [drop] in Hm |- *.
        replace (i + Z.of_nat (S off1))%Z with (i + 1 + Z.of_nat off1)%Z by lia.
        apply IH; [|cbn in Hoff; lia|exact Hm|exact (Hfree' off1 eq_refl)].
        specialize (Hfree 0%nat n0 c0 ltac:(lia) E0). lia.
    + destruct off as [|off1].
      * cbn [drop] in Hm. congruence.
      * cbn [drop] in Hm |- *.
        replace (i + Z.of_nat (S off1))%Z with (i + 1 + Z.of_nat off1)%Z by lia.
        apply IH; [lia|cbn in Hoff; lia|exact Hm|exact (Hfree' off1 eq_refl)].
  - destruct off as [|off1]; [lia|]. cbn [drop] in Hm |- *.
    replace (i + Z.of_nat (S off1))%Z with (i + 1 + Z.of_nat off1)%Z by lia.
    apply IH; [lia|cbn in Hoff; lia|exact Hm|exact (Hfree' off1 eq_refl)].
Qed.

End ScanVisits.

Section Runs.

Lemma Forall2_map_self {A B : Type} (R : A -> B -> Prop) (f : A -> B)
      (l : list A) :
  (forall x, In x l -> R x (f x)) -> Forall2 R l (map f l).
Proof.
  induction l as [|x l IH]; intros H; cbn [map]; constructor.
  - apply H. now left.
  - apply IH. intros y Hy. apply H. now right.
Qed.

(** The candidates of one pattern are matches of that pattern, where they
    are said to be. *)
Lemma run_sound (re : RegExp) (text : string) (m : AmountMatch) :
  In m (flat_map candidate (execAll re text)) ->
  exists off g,
    m_index m = Z.of_nat off
    /\ match_at re (drop off text) = Some (String.length (m_text m), g)
    /\ m_text m = take (String.length (m_text m)) (drop off text)
    /\ m_amount m
       = parseFloat (remove_commas (match g with Some x => x | None => "" end)).
Proof.
  intros H. apply in_flat_map in H as (r & Hr & H).
  unfold execAll in Hr.
  apply scan_found in Hr as (off & n & _ & Hb & Hi & Hm & Ha).
  unfold candidate in H.
  destruct (negb _ && ltb zero _); [|contradiction].
  destruct H as [<-|[]]. cbn [m_index m_text m_amount].
  assert (String.length (m0 r) = n) as En.
  { rewrite Hm, length_take; [reflexivity|]. rewrite length_drop. lia. }
  exists off, (m1 r). rewrite En. repeat split; auto.
Qed.

(** A match of a pattern that no earlier match of the pattern reaches into
    is found by the scan, and gives a candidate when its amount is
    positive. *)
Lemma run_complete (re : RegExp) (text : string) (off n : nat) (g : capture) :
  (off < String.length text)%nat ->
  match_at re (drop off text) = Some (n, g) ->
  (forall off' n' g',
      (off' < off)%nat -> match_at re (drop off' text) = Some (n', g') ->
      (off' + n' <= off)%nat) ->
  ltb zero (parseFloat (remove_commas
                          (match g with Some x => x | None => "" end))) = true ->
  In (mkAmount (parseFloat (remove_commas
                              (match g with Some x => x | None => "" end)))
               (take n (drop off text)) (Z.of_nat off))
     (flat_map candidate (execAll re text)).
Proof.
  intros Hoff Hm Hfree Hpos.
  apply in_flat_map.
  exists (mkMatch (take n (drop off text)) g (0 + Z.of_nat off)). split.
  - unfold execAll. apply scan_visits; auto. lia.
  - unfold candidate. cbn [m0 m1 index].
    rewrite Hpos, (positive_not_NaN _ Hpos). cbn [negb andb Z.add]. now left.
Qed.

End Runs.

(** X2: the list of candidates is made of one run for each amount pattern,
    in the order of the pattern list. The candidates of the run of a
    pattern are matches of that pattern at their index, with the amount
    read from the group of the match; they come in the order of the text
    and do not overlap: each one ends before the next one starts. The run
    misses no match of its pattern that lies clear of the earlier matches
    of the pattern and has a positive amount; the first match of each
    pattern in the text is such a match. *)
Theorem candidates_in_text_order (text : string) :
  exists runs,
    extractAmounts text = List.concat runs
    /\ Forall2
         (fun re run =>
            ForallOrdPairs
              (fun a b =>
                 (m_index a + Z.of_nat (String.length (m_text a))
                  <= m_index b)%Z) run
            /\ (forall m,
                   In m run ->
                   exists off g,
                     m_index m = Z.of_nat off
                     /\ match_at re (drop off text)
                        = Some (String.length (m_text m), g)
                     /\ m_text m
                        = take (String.length (m_text m)) (drop off text)
                     /\ m_amount m
                        = parseFloat
                            (remove_commas
                               (match g with Some x => x | None => "" end)))
            /\ (forall off n g,
                   (off < String.length text)%nat ->
                   match_at re (drop off text) = Some (n, g) ->
                   (forall off' n' g',
                       (off' < off)%nat ->
                       match_at re (drop off' text) = Some (n', g') ->
                       (off' + n' <= off)%nat) ->
                   ltb zero
                       (parseFloat
                          (remove_commas
                             (match g with Some x => x | None => "" end)))
                   = true ->
                   In (mkAmount
                         (parseFloat
                            (remove_commas
                               (match g with Some x => x | None => "" end)))
                         (take n (drop off text)) (Z.of_nat off))
                      run))
         amountRegexes runs.
Proof.
  exists (map (fun re => flat_map candidate (execAll re text)) amountRegexes).
  split; [apply flat_map_concat_map|].
  apply Forall2_map_self. intros re _. split; [|split].
  - apply candidates_ordered, scan_ordered.
  - apply run_sound.
  - apply run_complete.
Qed.

Lemma candidates_in_text_order_witness :
  In (mkAmount (of_Z 12) "12 USD" 0) (extractAmounts "12 USD").
Proof.
  destruct (candidates_in_text_order "12 USD") as (runs & E & F).
  unfold amountRegexes in F.
  inversion F as [|re1 run1 res1 runs1 _ F1]; subst.
  inversion F1 as [|re2 run2 res2 runs2 (_ & _ & Hrun) _]; subst.
  rewrite E. cbn [List.concat]. apply in_or_app. right. apply in_or_app. left.
  apply (Hrun 0%nat 6%nat (Some "12")).
  - cbn. lia.
  - vm_compute. reflexivity.
  - intros off' n' g' Hlt. lia.
  - vm_compute. reflexivity.
Defined.

Section DollarFacts.

Lemma isDigit_not_space (x : ascii) : isDigit x = true -> isSpace x = false.
Proof. destruct x as [[] [] [] [] [] [] [] []]; vm_compute; congruence. Qed.

Lemma isDigit_notDollar (x : ascii) : isDigit x = true -> notDollar x = true.
Proof. destruct x as [[] [] [] [] [] [] [] []]; vm_compute; congruence. Qed.

Lemma isSpace_notDollar (x : ascii) : isSpace x = true -> notDollar x = true.
Proof. destruct x as [[] [] [] [] [] [] [] []]; vm_compute; congruence. Qed.

Lemma digit_value_positive (x : ascii) :
  isDigit x = true -> x <> "0"%char -> (1 <= Z.of_nat (code x - 48))%Z.
Proof.
  destruct x as [[] [] [] [] [] [] [] []]; vm_compute; congruence.
Qed.

Lemma drop_append_le (j : nat) (w s : string) :
  (j <= String.length w)%nat -> drop j (w +++ s) = drop j w +++ s.
Proof.
  revert w. induction j as [|j IH]; intros w H.
  - now destruct w, s.
  - destruct w as [|x w]; [cbn in H; lia|]. cbn [String.append drop].
    apply IH. cbn in H. lia.
Qed.

(** The first digit of a word of the amount group. *)
Lemma amountGroup_head (ic : bool) (g : string) (c c' : capture) :
  accepts ic amountGroup g c c' ->
  c' = Some g /\ amountLiteral g
  /\ exists x g', g = String x g' /\ isDigit x = true.
Proof.
  intros H. pose proof (amountGroup_literal ic) as Hlit.
  unfold amountGroup in *. cbn [groupsSat] in Hlit.
  inversion H as [| | | | | | | |r w c0 c0' Hbody]; subst.
  split; [reflexivity|]. split; [eapply Hlit; eauto|].
  cbn [Cat] in Hbody.
  apply accepts_Seq in Hbody as (w1 & w23 & c1 & -> & H1 & _).
  unfold Rep in H1. cbn [Times Nat.sub] in H1.
  apply accepts_Seq in H1 as (a & b & c3 & -> & Ha & _).
  apply accepts_Seq in Ha as (a1 & a2 & c4 & -> & Ha1 & Ha2).
  apply accepts_digit in Ha1 as (x & -> & Hx).
  apply accepts_Eps in Ha2 as ->. cbn. eauto.
Qed.

(** The words of [/\$\s*(..)/]: a dollar sign, white space, and the
    amount, which is group 1. *)
Lemma dollar_word (w : string) (c c' : capture) :
  accepts false (Cat [Chr "$"; Star ws; amountGroup]) w c c' ->
  exists sp g,
    w = String "$" (sp +++ g)
    /\ every isSpace sp = true
    /\ every notDollar (sp +++ g) = true
    /\ c' = Some g /\ amountLiteral g
    /\ exists x g', g = String x g' /\ isDigit x = true.
Proof.
  cbn [Cat]. intros H.
  apply accepts_Seq in H as (w1 & w23 & c1 & -> & H1 & H23).
  inversion H1 as [|a y c0 Hy| | | | | | |]; subst.
  change (Ascii.eqb "$" y = true) in Hy. apply Ascii.eqb_eq in Hy. subst y.
  assert (every notDollar w23 = true) as Hnd.
  { eapply accepts_wordsOver; [exact H23|].
    unfold amountGroup.
    cbn [wordsOver Cat Opt Rep Times UpTo Nat.sub ws digit].
    repeat match goal with |- _ /\ _ => split end;
      try exact I; try exact isDigit_notDollar; try exact isSpace_notDollar;
      intros x Hx;
      match type of Hx with
      | chr_match false ?a x = true => change (Ascii.eqb a x = true) in Hx
      end;
      apply Ascii.eqb_eq in Hx; subst x; reflexivity. }
  apply accepts_Seq in H23 as (sp & g & c2 & -> & Hsp & Hg).
  apply amountGroup_head in Hg as (-> & Hlit & Hhead).
  exists sp, g. split; [reflexivity|]. split.
  { eapply accepts_wordsOver; [exact Hsp|]. cbn. auto. }
  split; [exact Hnd|]. auto.
Qed.

(** The smallest amount word, for the digit [d]. *)
Lemma dollar_digit_accepted (d : ascii) :
  isDigit d = true ->
  exists c', accepts false (Cat [Chr "$"; Star ws; amountGroup])
                     (String "$" (String d "")) None c'.
Proof.
  intros Hd. exists (Some (String d "")). cbn [Cat].
  set (g := Some (String d "")).
  apply (acc_Seq false _ _ (String "$" "") (String d "") None None g).
  { apply acc_Chr. reflexivity. }
  apply (acc_Seq false _ _ "" (String d "") None None g).
  { apply acc_Star_nil. }
  unfold amountGroup, g. apply (acc_Grp false _ _ None None). cbn [Cat].
  apply (acc_Seq false _ _ (String d "") "" None None None).
  - unfold Rep. cbn [Times UpTo Nat.sub].
    apply (acc_Seq false _ _ (String d "") "" None None None).
    + apply (acc_Seq false _ _ (String d "") "" None None None).
      * now apply acc_Cls.
      * apply acc_Eps.
    + apply acc_Alt_r, acc_Eps.
  - apply (acc_Seq false _ _ "" "" None None None).
    + apply acc_Star_nil.
    + apply acc_Alt_r, acc_Eps.
Qed.

Lemma amountLiteral_positive (d : ascii) (g' : string) :
  isDigit d = true -> d <> "0"%char -> amountLiteral (String d g') ->
  ltb zero (parseFloat (remove_commas (String d g'))) = true.
Proof.
  intros Hd Hnz (whole & cents & Hg & Hw & Hne & Hc).
  rewrite Hg. cbn [remove_commas] in Hg.
  rewrite (isDigit_not_comma _ Hd) in Hg.
  destruct whole as [|x whole']; [congruence|].
  cbn [String.append] in Hg. injection Hg as <- _.
  assert (1 <= decimal 0 (String d whole'))%Z as Hpos.
  { cbn [decimal]. pose proof (digit_value_positive d Hd Hnz) as H1.
    pose proof (decimal_ge whole' (10 * 0 + Z.of_nat (code d - 48))). lia. }
  destruct Hc as [->|(d1 & d2 & H1 & H2 & ->)].
  - rewrite append_nil_r, parseFloat_whole by assumption.
    apply round_ratio_positive; lia.
  - rewrite parseFloat_cents by assumption.
    apply round_ratio_positive; [|lia].
    rewrite decimal_append.
    pose proof (decimal_ge (String d1 (String d2 ""))
                           (decimal 0 (String d whole'))). lia.
Qed.

End DollarFacts.

(** X5: wherever a dollar sign is directly followed by a digit from 1 to 9,
    the scan finds a candidate that starts at that dollar sign, and the
    pipeline succeeds: it fails on no text that contains such an amount. *)
Theorem dollar_amount_found (pre rest : string) (d : ascii) :
  isDigit d = true -> d <> "0"%char ->
  let text := pre +++ String "$" (String d rest) in
  (exists m, In m (extractAmounts text)
             /\ m_index m = Z.of_nat (String.length pre))
  /\ exists data, handleGetEmailExpense text = Ok data.
Proof.
  intros Hd Hnz text.
  set (re := mkRegExp (Cat [Chr "$"; Star ws; amountGroup]) false).
  assert (drop (String.length pre) text = String "$" (String d rest)) as Hdrop
      by apply drop_length_append.
  assert (exists m, In m (extractAmounts text)
                    /\ m_index m = Z.of_nat (String.length pre)) as Hcand.
  { destruct (dollar_digit_accepted d Hd) as (c0 & Hacc).
    destruct (match_at_complete re _ rest _ Hacc) as (n & c & Hm).
    cbn [String.append] in Hm.
    pose proof Hm as Hm'.
    apply match_at_sound in Hm' as (w & s' & Hs & Hn & Hw).
    apply dollar_word in Hw
      as (sp & g & -> & Hsp & _ & -> & Hlit & x & g' & -> & Hx).
    cbn [String.append] in Hs. injection Hs as Hs.
    destruct sp as [|y sp].
    2:{ cbn [String.append] in Hs. injection Hs as -> _.
        cbn in Hsp. rewrite (isDigit_not_space _ Hd) in Hsp. discriminate. }
    cbn [String.append] in Hs, Hlit. injection Hs as <- _.
    assert (In (mkMatch (take n (drop (String.length pre) text))
                        (Some (String d g'))
                        (0 + Z.of_nat (String.length pre)))
               (execAll re text)) as Hin.
    { apply scan_visits.
      - lia.
      - unfold text. rewrite length_append. cbn. lia.
      - now rewrite Hdrop.
      - intros off' n' c' Hlt Hm1.
        apply match_at_sound in Hm1 as (w1 & s1 & Hs1 & Hn1 & Hw1).
        apply dollar_word in Hw1 as (sp1 & g1 & -> & _ & Hnd & _).
        destruct (Nat.le_gt_cases (off' + n') (String.length pre))
          as [Hle|Hgt]; [exact Hle|exfalso].
        set (j := (String.length pre - off')%nat).
        assert (drop j (drop off' text) = String "$" (String d rest)) as Hj
            by (rewrite drop_drop; replace (off' + j)%nat
                  with (String.length pre) by (unfold j; lia);
                exact Hdrop).
        rewrite Hs1 in Hj. cbn [String.length] in Hn1.
        rewrite drop_append_le in Hj by (cbn [String.length]; unfold j; lia).
        destruct j as [|j'] eqn:Ej; [unfold j in Ej; lia|].
        cbn [drop] in Hj.
        pose proof (every_drop notDollar j' _ Hnd) as Hnd'.
        destruct (drop j' (sp1 +++ g1)) as [|z t] eqn:Ez.
        + pose proof (length_drop j' (sp1 +++ g1)) as Hl. rewrite Ez in Hl.
          cbn [String.length] in Hl. unfold j in Ej. lia.
        + cbn [String.append] in Hj. injection Hj as -> _.
          cbn in Hnd'. discriminate. }
    pose proof (amountLiteral_positive d g' Hd Hnz Hlit) as Hpos.
    eexists. split.
    - unfold extractAmounts. apply in_flat_map. exists re.
      split; [now left|]. apply in_flat_map. eexists. split; [exact Hin|].
      unfold candidate. cbn [m0 m1 index].
      rewrite Hpos, (positive_not_NaN _ Hpos). left. reflexivity.
    - cbn [m_index]. lia. }
  split; [exact Hcand|].
  destruct Hcand as (m & Hm & _).
  assert (extractAmounts text <> []) as Hne
      by (intros E; rewrite E in Hm; destruct Hm).
  destruct (handleGetEmailExpense_found text Hne) as (l & r & _ & _ & Hok).
  eauto.
Qed.

Lemma dollar_amount_found_witness :
  exists data, handleGetEmailExpense "Lunch $7 today" = Ok data.
Proof.
  apply (proj2 (dollar_amount_found "Lunch " " today" "7" eq_refl
                                    ltac:(discriminate))).
Defined.

(** ** Titles and windows *)

Section TrimFacts.

Lemma trimStart_drop (s : string) : exists k, trimStart s = drop k s.
Proof.
  induction s as [|c s [k IH]]; [now exists 0%nat|].
  cbn [trimStart]. destruct (isSpace c).
  - exists (S k). exact IH.
  - now exists 0%nat.
Qed.

Lemma trimEnd_take (s : string) : exists k, trimEnd s = take k s.
Proof.
  induction s as [|c s [k IH]]; [now exists 0%nat|].
  cbn [trimEnd]. destruct (trimEnd s) as [|d t] eqn:E.
  - destruct (isSpace c); [now exists 0%nat|].
    exists 1%nat. cbn [take]. now destruct s.
  - exists (S k). cbn [take]. now rewrite <- IH.
Qed.

Lemma infix_trim (s : string) : infix (trim s) s.
Proof.
  unfold trim.
  destruct (trimEnd_take (trimStart s)) as [k ->].
  destruct (trimStart_drop s) as [j ->].
  eapply infix_trans; [apply infix_take|apply infix_drop].
Qed.

Lemma trimStart_idempotent (s : string) : trimStart (trimStart s) = trimStart s.
Proof.
  induction s as [|c s IH]; [reflexivity|].
  cbn [trimStart]. destruct (isSpace c) eqn:E; [exact IH|].
  cbn [trimStart]. now rewrite E.
Qed.

Lemma trimEnd_idempotent (s : string) : trimEnd (trimEnd s) = trimEnd s.
Proof.
  induction s as [|c s IH]; [reflexivity|].
  cbn [trimEnd]. destruct (trimEnd s) as [|d t] eqn:E.
  - destruct (isSpace c) eqn:Ec; [reflexivity|].
    cbn [trimEnd]. now rewrite Ec.
  - cbn [trimEnd] in *. now rewrite IH.
Qed.

Lemma trim_commute (s : string) : trimStart (trimEnd s) = trimEnd (trimStart s).
Proof.
  induction s as [|c s IH]; [reflexivity|].
  cbn [trimStart trimEnd]. destruct (isSpace c) eqn:Ec.
  - destruct (trimEnd s) as [|d t] eqn:E.
    + now rewrite <- IH.
    + rewrite <- IH. cbn [trimStart]. now rewrite Ec.
  - destruct (trimEnd s) as [|d t] eqn:E; cbn [trimStart trimEnd];
      rewrite Ec, ?E; reflexivity.
Qed.

Lemma trim_idempotent (s : string) : trim (trim s) = trim s.
Proof.
  unfold trim.
  now rewrite trim_commute, trimEnd_idempotent, trimStart_idempotent.
Qed.

End TrimFacts.

Section TitleShape.

Lemma merchantPatterns_groups :
  Forall (fun re => groupsOver (ignoreCase re) nameChar (source re))
         merchantPatterns.
Proof.
  unfold merchantPatterns. repeat constructor; cbn; auto.
Qed.

Lemma isUpper_nameChar (x : ascii) : isUpper x = true -> nameChar x = true.
Proof. unfold nameChar. now intros ->. Qed.

Lemma businessNamePattern_words :
  wordsOver (ignoreCase businessNamePattern) nameChar
            (source businessNamePattern).
Proof.
  unfold businessNamePattern. cbn.
  repeat split; auto using isUpper_nameChar.
Qed.

(** Group 1 of a match is a piece of the text made of name characters. *)
Lemma match_at_group (re : RegExp) (s g : string) (n : nat) :
  groupsOver (ignoreCase re) nameChar (source re) ->
  match_at re s = Some (n, Some g) ->
  infix g s /\ every nameChar g = true.
Proof.
  intros Hre H. apply match_at_sound in H as (w & s' & -> & _ & Hacc).
  destruct (accepts_capture _ _ _ _ _ _ Hacc Hre) as [E|(g' & [= <-] & Hin & Hev)];
    [discriminate|].
  split; [now apply infix_append_l|exact Hev].
Qed.

Lemma merchantTitle_shape (patterns : list RegExp) (s t : string) :
  Forall (fun re => groupsOver (ignoreCase re) nameChar (source re)) patterns ->
  merchantTitle patterns s = Some t ->
  exists g, t = trim g /\ infix g s /\ every nameChar g = true.
Proof.
  intros Hall H.
  apply merchantTitle_Some in H as (re & r & g & Hre & Hs & Hg & ->).
  rewrite Forall_forall in Hall. specialize (Hall _ Hre).
  apply search_found in Hs as (off & n & _ & _ & _ & Hm).
  rewrite Hg in Hm. apply (match_at_group _ _ _ _ Hall) in Hm as [Hin Hev].
  exists g. repeat split; auto.
  eapply infix_trans; [exact Hin|apply infix_drop].
Qed.

Lemma businessName_shape (s : string) (m : MatchResult) (rest : list MatchResult) :
  execAll businessNamePattern s = m :: rest ->
  let g := match m1 m with Some g => g | None => m0 m end in
  infix g s /\ every nameChar g = true.
Proof.
  intros E.
  assert (In m (scan businessNamePattern s 0 0)) as Hin
      by (unfold execAll in E; rewrite E; now left).
  apply scan_found in Hin as (off & n & _ & _ & _ & Hm0 & Hm).
  cbn zeta. destruct (m1 m) as [g|] eqn:Eg.
  - apply match_at_group in Hm as [Hin Hev];
      [|apply businessNamePattern_words].
    split; [|exact Hev].
    eapply infix_trans; [exact Hin|apply infix_drop].
  - apply match_at_sound in Hm as (w & s' & Hs & Hn & Hacc).
    rewrite Hm0, Hs, Hn, take_length_append.
    split.
    + eapply infix_trans; [|apply (infix_drop off s)].
      rewrite Hs. apply infix_append_l, infix_refl.
    + eapply accepts_wordsOver; [exact Hacc|apply businessNamePattern_words].
Qed.

End TitleShape.

(** X6: whatever the window and the amount text, the title that [createTitle]
    returns is made of letters, digits, white space and ampersands only, has
    no white space at either end, and is either the fallback "Expense" or a
    piece of the window from which the amount text was removed. *)
Theorem createTitle_shape (text amountText : string) :
  every nameChar (createTitle text amountText) = true
  /\ trim (createTitle text amountText) = createTitle text amountText
  /\ (createTitle text amountText = "Expense"
      \/ infix (createTitle text amountText) (remove_first text amountText)).
Proof.
  unfold createTitle.
  destruct (merchantTitle merchantPatterns _) as [t|] eqn:E.
  - apply merchantTitle_shape in E as (g & -> & Hin & Hev);
      [|apply merchantPatterns_groups].
    split; [|split].
    + eapply every_infix; [apply infix_trim|exact Hev].
    + apply trim_idempotent.
    + right. eapply infix_trans; [apply infix_trim|exact Hin].
  - destruct (execAll businessNamePattern _) as [|m rest] eqn:Eb.
    + split; [reflexivity|]. split; [reflexivity|now left].
    + apply businessName_shape in Eb as [Hin Hev].
      split; [|split].
      * eapply every_infix; [apply infix_trim|exact Hev].
      * apply trim_idempotent.
      * right. eapply infix_trans; [apply infix_trim|exact Hin].
Qed.

Section LowerCaseFacts.

Lemma toLowerCase_length (s : string) :
  String.length (toLowerCase s) = String.length s.
Proof. induction s; cbn; congruence. Qed.

Lemma toLowerCase_append (a b : string) :
  toLowerCase (a +++ b) = toLowerCase a +++ toLowerCase b.
Proof. induction a; cbn; congruence. Qed.

Lemma noUpper_append (a b : string) :
  noUpper (a +++ b) = noUpper a && noUpper b.
Proof.
  induction a as [|c a IH]; cbn; [reflexivity|].
  now rewrite IH, andb_assoc.
Qed.

Lemma toLowerCase_stable (s : string) :
  every upperOrStable s = true -> noUpper s = true -> toLowerCase s = s.
Proof.
  induction s as [|c s IH]; cbn; [reflexivity|].
  intros H1 H2.
  apply andb_true_iff in H1 as [Hc H1]. apply andb_true_iff in H2 as [Hu H2].
  rewrite IH by assumption. f_equal.
  unfold upperOrStable in Hc. apply negb_true_iff in Hu. rewrite Hu in Hc.
  now apply Ascii.eqb_eq in Hc.
Qed.

Lemma chr_match_stable (ic : bool) (a x : ascii) :
  (code a <? 128)%nat = true -> chr_match ic a x = true ->
  upperOrStable x = true.
Proof.
  unfold chr_match. intros Ha H.
  assert ((code x <? 128)%nat = true) as Hx.
  { destruct ic.
    - apply Ascii.eqb_eq in H.
      assert ((code (canonChar a) <? 128)%nat = true) as Hca
          by (revert Ha; clear; destruct a as [[] [] [] [] [] [] [] []];
              vm_compute; congruence).
      rewrite H in Hca. revert Hca. clear.
      destruct x as [[] [] [] [] [] [] [] []]; vm_compute; congruence.
    - apply Ascii.eqb_eq in H. now subst. }
  revert Hx. clear.
  destruct x as [[] [] [] [] [] [] [] []]; vm_compute; congruence.
Qed.

Lemma isDigit_stable (x : ascii) : isDigit x = true -> upperOrStable x = true.
Proof. destruct x as [[] [] [] [] [] [] [] []]; vm_compute; congruence. Qed.

Lemma isSpace_stable (x : ascii) : isSpace x = true -> upperOrStable x = true.
Proof. destruct x as [[] [] [] [] [] [] [] []]; vm_compute; congruence. Qed.

Lemma amountRegexes_stable :
  Forall (fun re => wordsOver (ignoreCase re) upperOrStable (source re))
         amountRegexes.
Proof.
  unfold amountRegexes, amountTail, colonOrOf, currencyWord, amountGroup.
  repeat apply Forall_cons; try apply Forall_nil;
    cbn [source ignoreCase wordsOver Cat Any Lit Opt Plus Rep Times UpTo
         digit ws Nat.sub];
    repeat match goal with |- _ /\ _ => split end;
    try exact I; try exact isDigit_stable; try exact isSpace_stable;
    intros x; apply chr_match_stable; reflexivity.
Qed.

End LowerCaseFacts.

Section RemoveFacts.

Lemma prefix_append (p s : string) : prefix p (p +++ s) = true.
Proof.
  induction p as [|c p IH]; cbn; [now destruct s|].
  destruct (ascii_dec c c) as [_|N]; [exact IH|congruence].
Qed.

Lemma prefix_split (p s : string) :
  prefix p s = true -> s = p +++ drop (String.length p) s.
Proof.
  revert s. induction p as [|c p IH]; intros s H; [now destruct s|].
  destruct s as [|d s]; [discriminate|]. cbn in H.
  destruct (ascii_dec c d) as [<-|_]; [|discriminate].
  cbn. f_equal. now apply IH.
Qed.

Lemma remove_first_absent (text pattern : string) :
  noUpper text = true -> noUpper pattern = false ->
  remove_first text pattern = text.
Proof.
  intros Ht Hp.
  assert (forall s, noUpper s = true -> prefix pattern s = false) as Hno.
  { intros s Hs. destruct (prefix pattern s) eqn:E; [|reflexivity].
    apply prefix_split in E. rewrite E, noUpper_append in Hs.
    apply andb_true_iff in Hs as [Hs _]. congruence. }
  induction text as [|c text IH]; cbn [remove_first]; rewrite (Hno _ Ht);
    [reflexivity|].
  cbn in Ht. apply andb_true_iff in Ht as [_ Ht]. now rewrite IH.
Qed.

Lemma remove_first_length (text pattern : string) :
  infix pattern text ->
  (String.length (remove_first text pattern) + String.length pattern
   = String.length text)%nat.
Proof.
  intros (pre & post & ->). induction pre as [|c pre IH].
  - cbn [String.append].
    destruct (pattern +++ post) as [|d s] eqn:E; cbn [remove_first];
      rewrite <- E, prefix_append, length_drop, length_append; lia.
  - cbn [String.append remove_first].
    destruct (prefix pattern (String c (pre +++ pattern +++ post))) eqn:E.
    + rewrite length_drop. apply prefix_split in E.
      apply (f_equal String.length) in E. rewrite length_append, length_drop in E.
      lia.
    + cbn [String.length]. lia.
Qed.

End RemoveFacts.

Section WindowFacts.

Lemma take_add (a b : nat) (s : string) :
  take (a + b) s = take a s +++ take b (drop a s).
Proof.
  revert s. induction a as [|a IH]; intros s; cbn [Nat.add take drop].
  - now destruct s.
  - destruct s as [|c s]; cbn; [now destruct b|]. now rewrite IH.
Qed.

Lemma take_all (n : nat) (s : string) :
  (String.length s <= n)%nat -> take n s = s.
Proof.
  revert s. induction n as [|n IH]; intros [|c s]; cbn; intros; try lia; auto.
  rewrite IH; [reflexivity|lia].
Qed.

(** The window around the slice of [n] code units at [off]. *)
Lemma window_split (e : string) (off n : nat) :
  (off + n <= String.length e)%nat ->
  let lo := (off - 50)%nat in
  let hi := Nat.min (String.length e) (off + n + 50) in
  substring e (Z.max 0 (Z.of_nat off - 50))
              (Z.min (Z.of_nat (String.length e))
                     (Z.of_nat off + Z.of_nat n + 50))
  = take (off - lo) (drop lo e) +++ take n (drop off e)
    +++ take (hi - (off + n)) (drop (off + n) e)
  /\ e = take lo e +++ take (off - lo) (drop lo e) +++ take n (drop off e)
         +++ take (hi - (off + n)) (drop (off + n) e) +++ drop hi e.
Proof.
  intros H lo hi. split.
  - unfold substring.
    replace (Z.to_nat (Z.min (Z.max 0 (Z.max 0 (Z.of_nat off - 50)))
                             (Z.of_nat (String.length e)))) with lo by lia.
    replace (Z.to_nat (Z.min (Z.max 0 (Z.min (Z.of_nat (String.length e))
                                             (Z.of_nat off + Z.of_nat n + 50)))
                             (Z.of_nat (String.length e)))) with hi by lia.
    replace (Nat.min lo hi) with lo by lia.
    replace (Nat.max lo hi - lo)%nat
      with ((off - lo) + (n + (hi - (off + n))))%nat by lia.
    rewrite take_add, drop_drop, take_add, drop_drop.
    replace (lo + (off - lo))%nat with off by lia.
    reflexivity.
  - rewrite <- (take_drop lo e) at 1. f_equal.
    rewrite <- (take_drop (off - lo) (drop lo e)) at 1. f_equal.
    rewrite drop_drop. replace (lo + (off - lo))%nat with off by lia.
    rewrite <- (take_drop n (drop off e)) at 1. f_equal.
    rewrite drop_drop.
    rewrite <- (take_drop (hi - (off + n)) (drop (off + n) e)) at 1. f_equal.
    rewrite drop_drop. f_equal. lia.
Qed.

End WindowFacts.

(** X7: the window of a candidate is the lower-cased text of the email from
    up to 50 code units before the candidate's text to up to 50 after it:
    fewer than 50 only where the email begins or ends. *)
Theorem window_of_candidate (emailText : string) (m : AmountMatch) :
  In m (extractAmounts emailText) ->
  exists before pre post after,
    emailText = before +++ pre +++ m_text m +++ post +++ after
    /\ m_index m = Z.of_nat (String.length before + String.length pre)
    /\ (String.length pre <= 50)%nat
    /\ (before = "" \/ String.length pre = 50%nat)
    /\ (String.length post <= 50)%nat
    /\ (after = "" \/ String.length post = 50%nat)
    /\ surroundingText emailText m
       = toLowerCase pre +++ toLowerCase (m_text m) +++ toLowerCase post.
Proof.
  intros H.
  apply extractAmounts_origin in H
    as (re & off & n & g & _ & Hn & Hb & Hi & Ht & _ & _).
  assert (String.length (m_text m) = n) as Hlen
      by (rewrite Ht; apply length_take; rewrite length_drop; lia).
  destruct (window_split emailText off n Hb) as [Hw He].
  set (lo := (off - 50)%nat) in *.
  set (hi := Nat.min (String.length emailText) (off + n + 50)) in *.
  exists (take lo emailText), (take (off - lo) (drop lo emailText)),
         (take (hi - (off + n)) (drop (off + n) emailText)),
         (drop hi emailText).
  assert (String.length (take lo emailText) = lo) as L1
      by (apply length_take; lia).
  assert (String.length (take (off - lo) (drop lo emailText)) = (off - lo)%nat)
    as L2 by (apply length_take; rewrite length_drop; lia).
  assert (String.length (take (hi - (off + n)) (drop (off + n) emailText))
          = (hi - (off + n))%nat)
    as L3 by (apply length_take; rewrite length_drop; lia).
  rewrite L1, L2, L3, Ht.
  split; [exact He|]. split; [lia|]. split; [lia|]. split.
  { destruct (Nat.le_gt_cases off 50) as [Hle|Hgt]; [left|right; lia].
    replace lo with 0%nat by lia. now destruct emailText. }
  split; [lia|]. split.
  { destruct (Nat.le_gt_cases (String.length emailText) (off + n + 50))
      as [Hle|Hgt]; [left|right; lia].
    replace hi with (String.length emailText) by lia.
    pose proof (drop_length_append emailText "") as D.
    now rewrite append_nil_r in D. }
  unfold surroundingText. rewrite Hi, Hlen, Hw.
  now rewrite !toLowerCase_append.
Qed.

Lemma window_of_candidate_witness :
  exists before pre post after,
    paymentEmail = before +++ pre +++ "$45.00" +++ post +++ after
    /\ surroundingText paymentEmail (mkAmount (of_Z 45) "$45.00" 16)
       = toLowerCase pre +++ "$45.00" +++ toLowerCase post.
Proof.
  destruct (window_of_candidate paymentEmail (mkAmount (of_Z 45) "$45.00" 16))
    as (before & pre & post & after & He & _ & _ & _ & _ & _ & Hw).
  - vm_compute. left. reflexivity.
  - exists before, pre, post, after. split; [exact He|exact Hw].
Defined.

(** X8: the amount text is looked for, as it was matched, in the lower-cased
    window. A candidate's text with a letter in A-Z ("Total: $5", "5 USD")
    is therefore not found and nothing is removed before the title is
    derived; a text without one is removed once, in full. *)
Theorem amount_text_removal (emailText : string) (m : AmountMatch) :
  In m (extractAmounts emailText) ->
  (noUpper (m_text m) = false ->
   remove_first (surroundingText emailText m) (m_text m)
   = surroundingText emailText m)
  /\ (noUpper (m_text m) = true ->
      (String.length (remove_first (surroundingText emailText m) (m_text m))
       + String.length (m_text m)
       = String.length (surroundingText emailText m))%nat).
Proof.
  intros H. split; intros Hu.
  - apply remove_first_absent; [apply toLowerCase_noUpper|exact Hu].
  - apply remove_first_length.
    pose proof H as H'.
    apply extractAmounts_origin in H'
      as (re & off & n & g & Hre & Hn & Hb & Hi & Ht & Hm & _).
    assert (toLowerCase (m_text m) = m_text m) as Hst.
    { apply toLowerCase_stable; [|exact Hu].
      pose proof amountRegexes_stable as Hall. rewrite Forall_forall in Hall.
      apply match_at_sound in Hm as (w & s' & Hs & Hw & Hacc).
      rewrite Ht, Hs, Hw, take_length_append.
      eapply accepts_wordsOver; [exact Hacc|now apply Hall]. }
    assert (String.length (m_text m) = n) as Hlen
        by (rewrite Ht; apply length_take; rewrite length_drop; lia).
    destruct (window_split emailText off n Hb) as [Hw _].
    unfold surroundingText. rewrite Hi, Hlen, Hw, <- Ht.
    rewrite !toLowerCase_append, Hst.
    eexists _, _. reflexivity.
Qed.

Lemma amount_text_removal_witness :
  remove_first
    (surroundingText "Total: $5.00 for lunch" (mkAmount (of_Z 5) "Total: $5.00" 0))
    "Total: $5.00"
  = "total: $5.00 for lunch".
Proof.
  assert (In (mkAmount (of_Z 5) "Total: $5.00" 0)
             (extractAmounts "Total: $5.00 for lunch")) as H
      by (vm_compute; right; left; reflexivity).
  transitivity (surroundingText "Total: $5.00 for lunch"
                                (mkAmount (of_Z 5) "Total: $5.00" 0)).
  - exact (proj1 (amount_text_removal _ _ H) eq_refl).
  - reflexivity.
Defined.

(** ** The sort and the items *)

Section SortOrder.
Context {A : Type} (compare : A -> A -> number).

Lemma insert_Permutation (x : A) (l : list A) :
  Permutation (insert compare x l) (x :: l).
Proof.
  induction l as [|y l IH]; cbn [insert]; [reflexivity|].
  destruct (ltb zero (compare x y)); [|reflexivity].
  rewrite IH. apply perm_swap.
Qed.

Lemma sort_Permutation (l : list A) : Permutation (sort compare l) l.
Proof.
  induction l as [|x l IH]; cbn [sort fold_right]; [reflexivity|].
  fold (sort compare l). rewrite insert_Permutation. now constructor.
Qed.

(** An element only moves behind elements that the comparator puts
    before it. *)
Lemma insert_filter (same : A -> bool) (x : A) (l : list A) :
  (forall y, In y l -> same x = true -> same y = true ->
             ltb zero (compare x y) = false) ->
  filter same (insert compare x l) = filter same (x :: l).
Proof.
  induction l as [|y l IH]; intros Hsame; [reflexivity|].
  cbn [insert]. destruct (ltb zero (compare x y)) eqn:C; [|reflexivity].
  cbn [filter] in *. rewrite IH by (intros z Hz; apply Hsame; now right).
  destruct (same x) eqn:Ex, (same y) eqn:Ey; try reflexivity.
  rewrite (Hsame y) in C by (auto; now left). discriminate.
Qed.

Lemma sort_filter (same : A -> bool) (l : list A) :
  (forall x y, In x l -> In y l -> same x = true -> same y = true ->
               ltb zero (compare x y) = false) ->
  filter same (sort compare l) = filter same l.
Proof.
  induction l as [|x l IH]; intros Hsame; [reflexivity|].
  cbn [sort fold_right]. fold (sort compare l).
  rewrite insert_filter.
  - cbn [filter]. rewrite IH; [reflexivity|].
    intros a b Ha Hb. apply Hsame; now right.
  - intros y Hy. apply sort_In in Hy. apply Hsame; [now left|now right].
Qed.

Variable rank : A -> option Z.
Variable P : A -> Prop.
Hypothesis compare_rank :
  forall x y, P x -> P y ->
    (ltb zero (compare x y) = true <-> units_lt (rank x) (rank y)).

Lemma insert_sorted (x : A) (l : list A) :
  P x -> Forall P l ->
  StronglySorted (fun a b => ~ units_lt (rank a) (rank b)) l ->
  StronglySorted (fun a b => ~ units_lt (rank a) (rank b))
                 (insert compare x l).
Proof.
  intros Hx HP Hs. induction Hs as [|y l Hs IH Hy]; cbn [insert].
  - repeat constructor.
  - inversion HP as [|? ? Py Pl]; subst.
    destruct (ltb zero (compare x y)) eqn:C.
    + constructor; [now apply IH|].
      apply Forall_forall. intros z Hz. apply insert_In in Hz as [->|Hz].
      * apply units_lt_asym. now apply compare_rank.
      * rewrite Forall_forall in Hy. now apply Hy.
    + assert (~ units_lt (rank x) (rank y)) as Hxy
          by (intros H; apply compare_rank in H; auto; congruence).
      constructor; [now constructor|].
      constructor; [exact Hxy|].
      apply Forall_forall. intros z Hz. rewrite Forall_forall in Hy.
      apply (units_lt_cotrans _ (rank y)); auto.
Qed.

Lemma sort_sorted (l : list A) :
  Forall P l ->
  StronglySorted (fun a b => ~ units_lt (rank a) (rank b)) (sort compare l).
Proof.
  induction 1 as [|x l Hx Hl IH]; cbn [sort fold_right]; [constructor|].
  fold (sort compare l). apply insert_sorted; auto.
  apply Forall_forall. intros y Hy. apply sort_In in Hy.
  rewrite Forall_forall in Hl. auto.
Qed.

End SortOrder.

(** X9: the sort puts the candidates in descending order of amount and is
    stable: the sorted list is a permutation of the candidates, no
    candidate is followed by one of a greater amount, and the candidates of
    one amount stay in scan order. *)
Theorem candidates_sorted_descending (text : string) :
  let sorted := sortedAmounts (extractAmounts text) in
  Permutation sorted (extractAmounts text)
  /\ StronglySorted
       (fun a b => ltb zero (sub (m_amount b) (m_amount a)) = false
                   /\ ~ units_lt (units (m_amount a)) (units (m_amount b)))
       sorted
  /\ forall v, filter (fun m => eqb (m_amount m) v) sorted
               = filter (fun m => eqb (m_amount m) v) (extractAmounts text).
Proof.
  cbn zeta. unfold sortedAmounts.
  set (compare := fun a b : AmountMatch => sub (m_amount b) (m_amount a)).
  set (P := fun m : AmountMatch => In m (extractAmounts text)).
  assert (forall m, P m -> recordable (m_amount m)) as Hrec
      by (intros m Hm; now apply (extractAmounts_recordable text)).
  assert (forall x y, P x -> P y ->
            (ltb zero (compare x y) = true
             <-> units_lt (units (m_amount x)) (units (m_amount y)))) as Hcmp.
  { intros x y Hx Hy. destruct (Hrec x Hx), (Hrec y Hy).
    now apply sub_positive_iff. }
  assert (Forall P (extractAmounts text)) as HP
      by (apply Forall_forall; auto).
  split; [apply sort_Permutation|]. split.
  - pose proof (sort_sorted compare (fun m => units (m_amount m)) P Hcmp _ HP)
      as Hs.
    assert (Forall P (sort compare (extractAmounts text))) as HP'.
    { apply Forall_forall. intros m Hm. now apply sort_In in Hm. }
    induction Hs as [|a l Hs IH Ha]; constructor.
    + apply IH. now inversion HP'.
    + inversion HP' as [|? ? Pa Pl]; subst.
      rewrite Forall_forall in *. intros b Hb. split; [|now apply Ha].
      destruct (ltb zero (sub (m_amount b) (m_amount a))) eqn:C;
        [|reflexivity].
      exfalso. apply (Ha b Hb). apply (Hcmp a b); auto.
  - intros v. apply sort_filter. intros x y Hx Hy Ex Ey. unfold compare.
    destruct (Hrec x Hx) as [Px Qx], (Hrec y Hy) as [Py Qy].
    apply eqb_positive_eq in Ex; [|exact Px].
    apply eqb_positive_eq in Ey; [|exact Py].
    destruct (ltb zero (sub (m_amount y) (m_amount x))) eqn:C; [|reflexivity].
    apply sub_positive_iff in C; auto.
    rewrite Ex, Ey in C. now apply units_lt_irrefl in C.
Qed.

Section ItemFacts.

Lemma filter_length_le {A : Type} (f : A -> bool) (l : list A) :
  (List.length (filter f l) <= List.length l)%nat.
Proof.
  induction l as [|x l IH]; cbn; [lia|]. destruct (f x); cbn; lia.
Qed.

Lemma expenseItems_cases (emailText : string) (ms : list AmountMatch)
      (totalAmount : number) :
  expenseItems emailText ms totalAmount = [wholeEmail totalAmount]
  \/ exists f,
       expenseItems emailText ms totalAmount
       = map (lineItem emailText) (filter f ms).
Proof.
  unfold expenseItems.
  destruct (List.length _ =? 0)%nat; [now left|].
  destruct (1 <? List.length ms)%nat.
  - right. eexists. apply lineItems_filter.
  - right. exists (fun _ => false). cbn.
    induction ms as [|m ms IH]; [reflexivity|exact IH].
Qed.

End ItemFacts.

(** X10: on success every item stems from a candidate: it is the line item
    of a candidate, taken in scan order, or the whole-email item carrying
    the greatest candidate amount; there are at most as many items as
    candidates; and the total is the sum of the item amounts or, with a
    single item, possibly the greatest candidate amount. *)
Theorem items_from_candidates (emailText : string) (data : ExpenseData) :
  handleGetEmailExpense emailText = Ok data ->
  exists largest rest,
    sortedAmounts (extractAmounts emailText) = largest :: rest
    /\ In largest (extractAmounts emailText)
    /\ (items data = [wholeEmail (m_amount largest)]
        \/ exists f, items data
                     = map (lineItem emailText)
                           (filter f (extractAmounts emailText)))
    /\ Forall (fun it => exists m, In m (extractAmounts emailText)
                                   /\ amount it = m_amount m)
              (items data)
    /\ (1 <= List.length (items data) <= List.length (extractAmounts emailText))%nat
    /\ (total data = sumAmounts (items data)
        \/ List.length (items data) = 1%nat /\ total data = m_amount largest).
Proof.
  intros Hok.
  destruct (extractAmounts emailText) as [|c0 cs] eqn:E.
  { rewrite (handleGetEmailExpense_none _ E) in Hok. discriminate. }
  assert (extractAmounts emailText <> []) as Hne by (rewrite E; discriminate).
  destruct (handleGetEmailExpense_found emailText Hne)
    as (largest & rest & Hs & Hin & Hres).
  rewrite Hres in Hok. clear Hres. injection Hok as <-. cbn [items total].
  rewrite <- E in *. clear E c0 cs.
  exists largest, rest. split; [exact Hs|]. split; [exact Hin|].
  pose proof (expenseItems_cases emailText (extractAmounts emailText)
                                 (m_amount largest)) as Hcases.
  pose proof (expenseItems_nonempty emailText (extractAmounts emailText)
                                    (m_amount largest)) as Hnon.
  remember (expenseItems emailText (extractAmounts emailText)
                         (m_amount largest)) as its eqn:Eits.
  clear Eits.
  split; [exact Hcases|]. split; [|split].
  - destruct Hcases as [->|(f & ->)].
    + repeat constructor. exists largest. split; [exact Hin|reflexivity].
    + apply Forall_map, Forall_forall. intros m Hm.
      apply filter_In in Hm as [Hm _]. exists m. split; [exact Hm|reflexivity].
  - split.
    + destruct its; [congruence|]. cbn [List.length]. lia.
    + destruct Hcases as [->|(f & ->)].
      * clear - Hin. revert Hin. generalize (extractAmounts emailText).
        intros [|a l] H; [destruct H|cbn [List.length]; lia].
      * rewrite length_map. apply filter_length_le.
  - unfold finalTotal.
    destruct (ltb _ cent || (1 <? List.length its)%nat) eqn:C; [now left|].
    right. split; [|reflexivity].
    apply orb_false_iff in C as [_ C]. apply Nat.ltb_ge in C.
    destruct its as [|i [|j its]]; [congruence|reflexivity|cbn in C; lia].
Qed.

Lemma items_from_candidates_witness :
  exists data,
    handleGetEmailExpense repeatedTotalEmail = Ok data
    /\ (List.length (items data) <= 3)%nat.
Proof.
  eexists. split; [vm_compute; reflexivity|].
  destruct (items_from_candidates repeatedTotalEmail _ eq_refl)
    as (largest & rest & _ & _ & _ & _ & [_ Hle] & _).
  exact Hle.
Defined.

(** X11: the pipeline fails exactly when the scan yields no candidate, and
    every failure carries the one message "Failed to process the email
    text": the message of the inner error, "No expense amounts found in
    the email", never leaves the function. *)
Theorem text_pipeline_failure (emailText : string) :
  (extractAmounts emailText = []
   <-> handleGetEmailExpense emailText = Throw failed)
  /\ (forall message,
         handleGetEmailExpense emailText = Throw message ->
         message = failed /\ extractAmounts emailText = []).
Proof.
  assert (forall message,
             handleGetEmailExpense emailText = Throw message ->
             message = failed /\ extractAmounts emailText = []) as Hthrow.
  { intros message H.
    destruct (extractAmounts emailText) as [|c cs] eqn:E.
    - rewrite (handleGetEmailExpense_none _ E) in H. now injection H as <-.
    - assert (extractAmounts emailText <> []) as Hne
          by (rewrite E; discriminate).
      destruct (handleGetEmailExpense_found emailText Hne)
        as (largest & rest & _ & _ & Hres).
      rewrite Hres in H. discriminate. }
  split; [|exact Hthrow]. split.
  - apply handleGetEmailExpense_none.
  - intros H. now apply Hthrow in H.
Qed.

Lemma text_pipeline_failure_witness :
  handleGetEmailExpense "no amount here" = Throw failed.
Proof.
  apply (proj1 (proj1 (text_pipeline_failure "no amount here"))).
  vm_compute. reflexivity.
Defined.

(** ** Keywords *)

Section KeywordFacts.

Lemma includes_infix (text keyword : string) :
  includes text keyword = true <-> infix keyword text.
Proof.
  split.
  - induction text as [|c text IH]; cbn [includes].
    + destruct (prefix keyword "") eqn:E; [|discriminate]. intros _.
      apply prefix_split in E. exists "", (drop (String.length keyword) "").
      exact E.
    + destruct (prefix keyword (String c text)) eqn:E.
      * intros _. apply prefix_split in E.
        exists "", (drop (String.length keyword) (String c text)). exact E.
      * intros H. destruct (IH H) as (pre & post & ->).
        now exists (String c pre), post.
  - intros (pre & post & ->). induction pre as [|c pre IH].
    + cbn [String.append].
      destruct (keyword +++ post) eqn:E; cbn [includes];
        now rewrite <- E, prefix_append.
    + cbn [String.append includes]. rewrite IH. now destruct (prefix _ _).
Qed.

(** A text that contains a keyword contains every piece of it. *)
Lemma includes_piece (text keyword piece : string) :
  infix piece keyword -> includes text keyword = true ->
  includes text piece = true.
Proof.
  intros Hp H. apply includes_infix. apply includes_infix in H.
  eapply infix_trans; eauto.
Qed.

(** The table look-up of both classifiers. *)
Lemma find_precedence (table before after : list (string * list string))
      (category keyword : string) (keywords : list string) (text : string) :
  table = before ++ (category, keywords) :: after ->
  In keyword keywords -> includes text keyword = true ->
  exists c ks,
    find (fun entry => existsb (includes text) (snd entry)) table = Some (c, ks)
    /\ In c (map fst before ++ [category]).
Proof.
  intros -> Hk Hinc. induction before as [|[c0 ks0] before IH].
  - cbn [app find snd].
    replace (existsb (includes text) keywords) with true.
    + exists category, keywords. split; [reflexivity|now left].
    + symmetry. apply existsb_exists. eauto.
  - cbn [app find snd]. destruct (existsb (includes text) ks0).
    + exists c0, ks0. split; [reflexivity|now left].
    + destruct IH as (c & ks & -> & Hc). exists c, ks.
      split; [reflexivity|now right].
Qed.

Lemma find_entry (table : list (string * list string)) (text : string) :
  match find (fun entry => existsb (includes text) (snd entry)) table with
  | Some (c, ks) => In (c, ks) table /\ exists k, In k ks /\ includes text k = true
  | None => forall c ks k, In (c, ks) table -> In k ks -> includes text k = false
  end.
Proof.
  destruct (find _ table) as [[c ks]|] eqn:E.
  - apply find_some in E as [Hin Hex]. split; [exact Hin|].
    apply existsb_exists in Hex. exact Hex.
  - intros c ks k Hin Hk.
    pose proof (find_none _ _ E _ Hin) as H. cbn [snd] in H.
    destruct (includes text k) eqn:Ek; [|reflexivity].
    assert (existsb (includes text) ks = true) as Hex
        by (apply existsb_exists; eauto).
    congruence.
Qed.

End KeywordFacts.

(** X12: a keyword yields its own category or one that stands earlier in
    the table, never a later one. *)
Theorem determineCategory_precedence
        (text : string) (before after : list (string * list string))
        (category keyword : string) (keywords : list string) :
  categoryKeywords = before ++ (category, keywords) :: after ->
  In keyword keywords ->
  includes text keyword = true ->
  In (determineCategory text) (map fst before ++ [category]).
Proof.
  intros Ht Hk Hinc. unfold determineCategory.
  destruct (find_precedence _ _ _ _ _ _ _ Ht Hk Hinc) as (c & ks & -> & Hc).
  exact Hc.
Qed.

Lemma determineCategory_precedence_witness :
  In (determineCategory "your monthly rent is due") ["food"; "rent"].
Proof.
  apply (determineCategory_precedence
           "your monthly rent is due"
           [("food", ["food"; "restaurant"; "meal"; "lunch"; "dinner";
                      "breakfast"; "cafe"; "grocery"; "groceries"; "takeout";
                      "doordash"; "uber eats"; "grubhub"])]
           (tl (tl categoryKeywords)) "rent" "rent"
           ["rent"; "lease"; "housing"; "apartment"; "mortgage"; "property"]).
  - reflexivity.
  - now left.
  - vm_compute. reflexivity.
Defined.

(** X13: two keywords of the table can never select their own category,
    whatever the text: "car rental" (travel) contains "rent", and
    "subscription" is listed for utility before it is listed for
    entertainment. Every other keyword, taken alone as the text, yields its
    own category. *)
Theorem determineCategory_shadowed :
  (forall text,
      includes text "car rental" = true ->
      determineCategory text = "food" \/ determineCategory text = "rent")
  /\ (forall text,
         includes text "subscription" = true ->
         In (determineCategory text) ["food"; "rent"; "travel"; "utility"])
  /\ (forall category keywords keyword,
         In (category, keywords) categoryKeywords ->
         In keyword keywords ->
         determineCategory keyword
         = if String.eqb keyword "car rental" then "rent"
           else if String.eqb keyword "subscription" then "utility"
           else category).
Proof.
  split; [|split].
  - intros text H.
    apply (includes_piece _ _ "rent") in H; [|exists "car ", "al"; reflexivity].
    unfold determineCategory.
    destruct (find_precedence categoryKeywords
                [hd ("", []) categoryKeywords] (tl (tl categoryKeywords))
                "rent" "rent" _ text eq_refl (or_introl eq_refl) H)
      as (c & ks & -> & Hc).
    cbn in Hc. intuition.
  - intros text H. unfold determineCategory.
    destruct (find_precedence categoryKeywords
                (firstn 3 categoryKeywords) (skipn 4 categoryKeywords)
                "utility" "subscription" _ text eq_refl
                (or_intror (or_intror (or_intror (or_intror (or_intror
                   (or_intror (or_intror (or_intror (or_introl eq_refl)))))))))
                H)
      as (c & ks & -> & Hc).
    exact Hc.
  - intros category keywords keyword Hc Hk. cbn in Hc.
    repeat (destruct Hc as [[= <- <-]|Hc];
            [cbn in Hk;
             repeat (destruct Hk as [<-|Hk]; [vm_compute; reflexivity|]);
             contradiction|]).
    contradiction.
Qed.

Lemma determineCategory_shadowed_witness :
  determineCategory "car rental at the airport" = "rent"
  /\ In (determineCategory "your netflix subscription")
        ["food"; "rent"; "travel"; "utility"].
Proof.
  destruct determineCategory_shadowed as (H1 & H2 & _).
  split.
  - destruct (H1 "car rental at the airport" eq_refl) as [E|E];
      [vm_compute in E; discriminate|exact E].
  - exact (H2 "your netflix subscription" eq_refl).
Defined.

Section SpendTypeFacts.

Lemma keywordToCategory_keys :
  Forall (fun entry => (String.length (fst entry) =? 0)%nat = false
                       /\ In (fst entry) expenseTypeEnum)
         keywordToCategory.
Proof.
  apply Forall_forall. intros [c ks] H. cbn in H.
  repeat (destruct H as [[= <- <-]|H];
          [split; [reflexivity|];
           cbn [fst expenseTypeEnum In];
           repeat (first [left; reflexivity|right])|]).
  contradiction.
Qed.

Lemma getSpendType_find (transactionHead : string) :
  getSpendType transactionHead
  = match find (fun cat => existsb (includes (toLowerCase transactionHead))
                                   (snd cat))
               keywordToCategory with
    | Some (category, _) => category
    | None => "unknown"
    end.
Proof.
  unfold getSpendType. cbn zeta.
  destruct (find _ keywordToCategory) as [[c ks]|] eqn:E; [|reflexivity].
  apply find_some in E as [Hin _].
  pose proof keywordToCategory_keys as Hall. rewrite Forall_forall in Hall.
  destruct (Hall _ Hin) as [Hlen _]. cbn [fst] in Hlen. now rewrite Hlen.
Qed.

End SpendTypeFacts.

(** X14: [getSpendType] returns, for every head, one of the twelve values
    that the [enum] of the user schema admits for the type of an expense;
    it does not distinguish upper and lower case; and it returns "unknown"
    when no keyword of its table occurs in the lower-cased head. *)
Theorem getSpendType_closed (transactionHead : string) :
  In (getSpendType transactionHead) expenseTypeEnum
  /\ getSpendType (toLowerCase transactionHead) = getSpendType transactionHead
  /\ ((forall category keywords keyword,
          In (category, keywords) keywordToCategory ->
          In keyword keywords ->
          includes (toLowerCase transactionHead) keyword = false) ->
      getSpendType transactionHead = "unknown").
Proof.
  split; [|split].
  - rewrite getSpendType_find.
    destruct (find _ keywordToCategory) as [[c ks]|] eqn:E.
    + apply find_some in E as [Hin _].
      pose proof keywordToCategory_keys as Hall. rewrite Forall_forall in Hall.
      exact (proj2 (Hall _ Hin)).
    + cbn. tauto.
  - unfold getSpendType. cbn zeta. now rewrite toLowerCase_idempotent.
  - intros Hnone. rewrite getSpendType_find.
    pose proof (find_entry keywordToCategory (toLowerCase transactionHead)) as H.
    destruct (find _ keywordToCategory) as [[c ks]|]; [|reflexivity].
    destruct H as (Hin & k & Hk & Hinc).
    rewrite (Hnone _ _ _ Hin Hk) in Hinc. discriminate.
Qed.

Lemma getSpendType_closed_witness : getSpendType "Expense from email" = "unknown".
Proof.
  apply (proj2 (proj2 (getSpendType_closed "Expense from email"))).
  intros category keywords keyword Hc Hk. cbn in Hc.
  repeat (destruct Hc as [[= <- <-]|Hc];
          [cbn in Hk;
           repeat (destruct Hk as [<-|Hk]; [vm_compute; reflexivity|]);
           contradiction|]).
  contradiction.
Defined.

(** X15: in the table of [getSpendType] a keyword yields its own category or
    an earlier one. Two keywords can therefore never select their own
    category: "car rental" (travel) contains "rent" and "trainer" (fitness)
    contains "train" (travel). Every other keyword, taken alone as the
    head, yields its own category. *)
Theorem getSpendType_shadowed :
  (forall head before after category keywords keyword,
      keywordToCategory = before ++ (category, keywords) :: after ->
      In keyword keywords ->
      includes (toLowerCase head) keyword = true ->
      In (getSpendType head) (map fst before ++ [category]))
  /\ (forall head,
         includes (toLowerCase head) "car rental" = true ->
         getSpendType head = "food" \/ getSpendType head = "rent")
  /\ (forall head,
         includes (toLowerCase head) "trainer" = true ->
         In (getSpendType head) ["food"; "rent"; "utility"; "travel"])
  /\ (forall category keywords keyword,
         In (category, keywords) keywordToCategory ->
         In keyword keywords ->
         getSpendType keyword
         = if String.eqb keyword "car rental" then "rent"
           else if String.eqb keyword "trainer" then "travel"
           else category).
Proof.
  assert (forall head before after category keywords keyword,
      keywordToCategory = before ++ (category, keywords) :: after ->
      In keyword keywords ->
      includes (toLowerCase head) keyword = true ->
      In (getSpendType head) (map fst before ++ [category])) as Hprec.
  { intros head before after category keywords keyword Ht Hk Hinc.
    rewrite getSpendType_find.
    destruct (find_precedence _ _ _ _ _ _ _ Ht Hk Hinc) as (c & ks & -> & Hc).
    exact Hc. }
  split; [exact Hprec|]. split; [|split].
  - intros head H.
    apply (includes_piece _ _ "rent") in H; [|exists "car ", "al"; reflexivity].
    pose proof (Hprec head [hd ("", []) keywordToCategory]
                      (tl (tl keywordToCategory)) "rent" _ "rent"
                      eq_refl (or_introl eq_refl) H) as Hc.
    cbn in Hc. intuition.
  - intros head H.
    apply (includes_piece _ _ "train") in H; [|exists "", "er"; reflexivity].
    exact (Hprec head (firstn 3 keywordToCategory) (skipn 4 keywordToCategory)
                 "travel" _ "train" eq_refl (or_intror (or_introl eq_refl)) H).
  - intros category keywords keyword Hc Hk. cbn in Hc.
    repeat (destruct Hc as [[= <- <-]|Hc];
            [cbn in Hk;
             repeat (destruct Hk as [<-|Hk]; [vm_compute; reflexivity|]);
             contradiction|]).
    contradiction.
Qed.

Lemma getSpendType_shadowed_witness :
  In (getSpendType "Personal Trainer") ["food"; "rent"; "utility"; "travel"]
  /\ getSpendType "Car Rental" = "rent".
Proof.
  destruct getSpendType_shadowed as (_ & H1 & H2 & _).
  split.
  - exact (H2 "Personal Trainer" eq_refl).
  - destruct (H1 "Car Rental" eq_refl) as [E|E];
      [vm_compute in E; discriminate|exact E].
Defined.

(** ** The normalisation of a bill *)

Section NormaliseFacts.
Variable s2n : string -> number.
Variable o2n : jsval -> option number.

Lemma has_key_assign (key key' : string) (x : jsval)
      (properties : list (string * jsval)) :
  has_key key' (assign key x properties)
  = has_key key' properties || String.eqb key key'.
Proof.
  unfold has_key. induction properties as [|[k v] rest IH]; cbn.
  - now rewrite orb_false_r.
  - destruct (String.eqb k key) eqn:E; cbn.
    + apply String.eqb_eq in E. subst k.
      destruct (String.eqb key key'), (existsb _ rest); reflexivity.
    + rewrite IH. now rewrite orb_assoc.
Qed.

(** Writing to a property the value that it has changes nothing. *)
Lemma assign_present (key : string) (properties : list (string * jsval)) :
  has_key key properties = true ->
  assign key (lookup key properties) properties = properties.
Proof.
  unfold has_key. induction properties as [|[k v] rest IH]; cbn; [discriminate|].
  destruct (String.eqb k key) eqn:E; cbn; [reflexivity|].
  intros H. now rewrite IH.
Qed.

Lemma assign_again (key : string) (x : jsval)
      (properties : list (string * jsval)) :
  has_key key properties = true -> lookup key properties = x ->
  assign key x properties = properties.
Proof. intros H <-. now apply assign_present. Qed.

Lemma validHeads_lower (h : string) : In h validHeads -> toLowerCase h = h.
Proof.
  cbn. intros H.
  repeat (destruct H as [<-|H]; [reflexivity|]). contradiction.
Qed.

Lemma normalised_head_valid (h : string) :
  In (if existsb (String.eqb (toLowerCase h)) validHeads
      then toLowerCase h else "unknown") validHeads.
Proof.
  destruct (existsb _ validHeads) eqn:E.
  - apply existsb_exists in E as (x & Hx & E).
    apply String.eqb_eq in E. now subst.
  - cbn. tauto.
Qed.

(** The callback of [map] leaves its own results as they are. *)
Lemma normalizeItem_fixed (item item' : jsval) :
  normalizeItem s2n o2n item = Some item' ->
  normalizeItem s2n o2n item' = Some item'.
Proof.
  intros H. apply normalizeItem_Some in H as (a & h & _ & Hh & ->).
  destruct (get_defined_object item "head") as (ps & ->);
    [now rewrite Hh|].
  pose proof (normalised_head_valid h) as Hv.
  set (h' := if existsb (String.eqb (toLowerCase h)) validHeads
             then toLowerCase h else "unknown") in *.
  apply normalizeItem_Some. exists a, h'.
  cbn [set get].
  rewrite lookup_assign_other, lookup_assign_same by discriminate.
  rewrite lookup_assign_same.
  split; [reflexivity|]. split; [reflexivity|].
  rewrite (validHeads_lower _ Hv).
  replace (existsb (String.eqb h') validHeads) with true.
  2:{ symmetry. apply existsb_exists. exists h'. split; [exact Hv|].
      apply String.eqb_refl. }
  f_equal.
  remember (assign "head" (JStr h') (assign "amount" (JNum a) ps)) as X eqn:EX.
  assert (assign "amount" (JNum a) X = X) as ->.
  { apply assign_again; subst X.
    - rewrite !has_key_assign. cbn. now rewrite orb_true_r.
    - rewrite lookup_assign_other by discriminate. apply lookup_assign_same. }
  symmetry. apply assign_again; subst X.
  - rewrite has_key_assign. cbn. now rewrite orb_true_r.
  - apply lookup_assign_same.
Qed.

Lemma mapM_fixed {A : Type} (f : A -> option A) (l l' : list A) :
  (forall x y, f x = Some y -> f y = Some y) ->
  mapM f l = Some l' -> mapM f l' = Some l'.
Proof.
  intros Hf H. apply mapM_Forall2 in H. apply mapM_Forall2.
  induction H as [|x y l l' Hxy _ IH]; constructor; eauto.
Qed.

Lemma normalizeItem_rest (item item' : jsval) (key : string) :
  normalizeItem s2n o2n item = Some item' ->
  key <> "amount" -> key <> "head" ->
  get item' key = get item key.
Proof.
  intros H Ha Hh. apply normalizeItem_Some in H as (a & h & _ & Hhead & ->).
  destruct (get_defined_object item "head") as (ps & ->);
    [now rewrite Hhead|].
  cbn [set get]. now rewrite !lookup_assign_other by auto.
Qed.

Lemma normalizeItem_amount (item item' : jsval) :
  normalizeItem s2n o2n item = Some item' ->
  exists a, Number s2n o2n (get item "amount") = Some a
            /\ get item' "amount" = JNum a.
Proof.
  intros H. apply normalizeItem_Some in H as (a & h & Ha & Hhead & ->).
  destruct (get_defined_object item "head") as (ps & ->);
    [now rewrite Hhead|].
  exists a. split; [exact Ha|].
  cbn [set get]. rewrite lookup_assign_other by discriminate.
  apply lookup_assign_same.
Qed.

End NormaliseFacts.

(** X16: the normalisation of a parsed bill leaves its own result as it is:
    a returned bill whose total is still truthy (not 0 and not [NaN]) is
    accepted when it is checked again, and is returned unchanged. *)
Theorem invoice_normalisation_idempotent
        (s2n : string -> number) (o2n : jsval -> option number)
        (parsedData out : jsval) :
  handleGetInvoiceData s2n o2n parsedData = Ok out ->
  truthy (get out "total") = true ->
  handleGetInvoiceData s2n o2n out = Ok out.
Proof.
  intros Hok Ht'.
  apply handleGetInvoiceData_Ok in Hok
    as (t & its & its' & _ & Ht & Hi & Hne & _ & Hmap & ->).
  destruct (truthy_get_object _ _ Ht) as (ps & ->).
  cbn [set get] in *.
  rewrite lookup_assign_other, lookup_assign_same in Ht' by discriminate.
  apply handleGetInvoiceData_Ok. exists t, its', its'.
  cbn [set get truthy Number].
  rewrite lookup_assign_other, !lookup_assign_same by discriminate.
  split; [reflexivity|]. split; [exact Ht'|]. split; [reflexivity|].
  split.
  { apply mapM_Forall2 in Hmap. inversion Hmap; subst; congruence. }
  split; [reflexivity|]. split.
  { eapply mapM_fixed; [|exact Hmap]. apply normalizeItem_fixed. }
  f_equal.
  remember (assign "items" (JArr its') (assign "total" (JNum t) ps)) as X eqn:EX.
  assert (assign "total" (JNum t) X = X) as ->.
  { apply assign_again; subst X.
    - rewrite !has_key_assign. cbn. now rewrite orb_true_r.
    - rewrite lookup_assign_other by discriminate. apply lookup_assign_same. }
  symmetry. apply assign_again; subst X.
  - rewrite has_key_assign. cbn. now rewrite orb_true_r.
  - apply lookup_assign_same.
Qed.

Lemma invoice_normalisation_idempotent_witness :
  exists out,
    handleGetInvoiceData (fun _ => NaN) (fun _ => None) lunchBill = Ok out
    /\ handleGetInvoiceData (fun _ => NaN) (fun _ => None) out = Ok out.
Proof.
  eexists. split; [reflexivity|].
  apply (invoice_normalisation_idempotent
           (fun _ => NaN) (fun _ => None) lunchBill); reflexivity.
Defined.

(** X17: the normalisation rewrites four properties only. Every property of
    the parsed bill other than [total] and [items] is returned as it was;
    the items keep their number and order; every property of an item other
    than [amount] and [head] (its title, say) is returned as it was; and
    the amount of an item becomes its conversion to a number. *)
Theorem invoice_rest_preserved
        (s2n : string -> number) (o2n : jsval -> option number)
        (parsedData out : jsval) :
  handleGetInvoiceData s2n o2n parsedData = Ok out ->
  (forall key, key <> "total" -> key <> "items" ->
               get out key = get parsedData key)
  /\ exists its its',
       get parsedData "items" = JArr its
       /\ get out "items" = JArr its'
       /\ List.length its' = List.length its
       /\ Forall2
            (fun item item' =>
               (forall key, key <> "amount" -> key <> "head" ->
                            get item' key = get item key)
               /\ exists a,
                    Number s2n o2n (get item "amount") = Some a
                    /\ get item' "amount" = JNum a)
            its its'.
Proof.
  intros Hok.
  apply handleGetInvoiceData_Ok in Hok
    as (t & its & its' & _ & Ht & Hi & _ & _ & Hmap & ->).
  destruct (truthy_get_object _ _ Ht) as (ps & ->).
  cbn [set get] in *. split.
  - intros key H1 H2. now rewrite !lookup_assign_other by auto.
  - exists its, its'. split; [exact Hi|].
    rewrite lookup_assign_same. split; [reflexivity|].
    apply mapM_Forall2 in Hmap. split.
    + symmetry. eapply Forall2_length. exact Hmap.
    + eapply Forall2_impl; [|exact Hmap]. cbn.
      intros item item' H. split.
      * intros key Ha Hh. eapply normalizeItem_rest; eauto.
      * eapply normalizeItem_amount; eauto.
Qed.

Lemma invoice_rest_preserved_witness :
  exists out,
    handleGetInvoiceData (fun _ => NaN) (fun _ => None) lunchBill = Ok out
    /\ forall key, key <> "total" -> key <> "items" ->
                   get out key = get lunchBill key.
Proof.
  eexists. split; [reflexivity|].
  exact (proj1 (invoice_rest_preserved (fun _ => NaN) (fun _ => None)
                                       lunchBill _ eq_refl)).
Defined.

(** ** The body of an email *)

Section BodyFacts.
Variable base64ToUtf8 : jsval -> completion string.

Lemma plainTextData_Some (part data : jsval) :
  plainTextData part = Returns (Some data) -> plainTextPart part data.
Proof.
  unfold plainTextData, member, bind.
  destruct part; try discriminate;
    match goal with
    | |- context [match get ?p "mimeType" with _ => _ end] =>
        destruct (get p "mimeType") as [| | | |s| |] eqn:E; try discriminate
    end;
    destruct (String.eqb s "text/plain") eqn:Es; try discriminate;
    cbn [andb];
    match goal with
    | |- context [truthy (get ?p "body")] =>
        destruct (truthy (get p "body")); try discriminate
    end;
    cbn [andb];
    match goal with
    | |- context [truthy ?d] => destruct (truthy d) eqn:Ed; try discriminate
    end;
    intros [= <-]; apply String.eqb_eq in Es; subst s;
    repeat split; auto.
Qed.

Lemma plainTextData_None (part : jsval) :
  plainTextData part = Returns None -> noPlainText part.
Proof.
  intros H data (Hm & -> & Hd). revert H.
  assert (truthy (get part "body") = true) as Hb.
  { destruct (get_defined_object (get part "body") "data") as (ps & ->);
      [intros E; rewrite E in Hd; discriminate|reflexivity]. }
  unfold plainTextData, member, bind.
  destruct part; try discriminate; rewrite Hm, Hb, Hd; discriminate.
Qed.

Lemma firstPlainText_Some (parts : list jsval) (data : jsval) :
  firstPlainText parts = Returns (Some data) ->
  exists pre part post,
    parts = pre ++ part :: post
    /\ Forall noPlainText pre /\ plainTextPart part data.
Proof.
  induction parts as [|p parts IH]; cbn [firstPlainText]; [discriminate|].
  destruct (plainTextData p) as [[d|]|] eqn:E; cbn [bind]; try discriminate.
  - intros [= <-]. exists [], p, parts.
    split; [reflexivity|]. split; [constructor|].
    now apply plainTextData_Some.
  - intros H. destruct (IH H) as (pre & part & post & -> & Hpre & Hp).
    exists (p :: pre), part, post.
    split; [reflexivity|]. split; [|exact Hp].
    constructor; [now apply plainTextData_None|exact Hpre].
Qed.

Lemma firstPlainText_None (parts : list jsval) :
  firstPlainText parts = Returns None -> Forall noPlainText parts.
Proof.
  induction parts as [|p parts IH]; cbn [firstPlainText]; [constructor|].
  destruct (plainTextData p) as [[d|]|] eqn:E; cbn [bind]; try discriminate.
  intros H. constructor; [now apply plainTextData_None|auto].
Qed.

Lemma nestedPlainText_Some (parts : list jsval) (data : jsval) :
  nestedPlainText parts = Returns (Some data) ->
  exists part nested nestedPart,
    In part parts
    /\ iterate (get part "parts") = Returns nested
    /\ In nestedPart nested
    /\ plainTextPart nestedPart data.
Proof.
  induction parts as [|p parts IH]; cbn [nestedPlainText]; [discriminate|].
  assert (nestedPlainText parts = Returns (Some data) ->
          exists part nested nestedPart,
            In part (p :: parts)
            /\ iterate (get part "parts") = Returns nested
            /\ In nestedPart nested
            /\ plainTextPart nestedPart data) as Hrest.
  { intros H. destruct (IH H) as (part & nested & np & Hin & Hrest).
    exists part, nested, np. split; [now right|exact Hrest]. }
  destruct (member p "parts") as [v|] eqn:Em; cbn [bind]; [|discriminate].
  assert (v = get p "parts") as ->
      by (unfold member in Em; destruct p; try discriminate;
          injection Em as <-; reflexivity).
  destruct (truthy (get p "parts")); [|exact Hrest].
  destruct (iterate (get p "parts")) as [nested|] eqn:Ei; cbn [bind];
    [|discriminate].
  destruct (firstPlainText nested) as [[d|]|] eqn:Ef; cbn [bind];
    try discriminate; [|exact Hrest].
  intros [= <-].
  apply firstPlainText_Some in Ef as (pre & np & post & -> & _ & Hp).
  exists p, (pre ++ np :: post), np.
  split; [now left|]. split; [exact Ei|]. split; [apply in_elt|exact Hp].
Qed.

Lemma overParts_Some (payload : jsval)
      (loop : list jsval -> completion (option jsval)) (r : option jsval) :
  overParts payload loop = Returns r ->
  (truthy (get payload "parts") = false /\ r = None)
  \/ exists parts,
       iterate (get payload "parts") = Returns parts /\ loop parts = Returns r.
Proof.
  unfold overParts. destruct (truthy (get payload "parts")).
  - destruct (iterate _) as [parts|]; cbn [bind]; [|discriminate].
    intros H. right. eauto.
  - intros [= <-]. now left.
Qed.

Lemma decoded_Some (data : jsval) (body : string) :
  decoded base64ToUtf8 data = Returns (Some body) ->
  base64ToUtf8 data = Returns body.
Proof.
  unfold decoded. destruct (base64ToUtf8 data); cbn [bind]; congruence.
Qed.

Lemma otherPart_noPlain (part : jsval) :
  otherPart part -> plainTextData part = Returns None.
Proof.
  intros ((ps & ->) & Hm). unfold plainTextData, member, bind.
  destruct (get (JObj ps) "mimeType") as [| | | |s| |] eqn:E; try reflexivity.
  destruct (String.eqb s "text/plain") eqn:Es; [|reflexivity].
  apply String.eqb_eq in Es. congruence.
Qed.

Lemma firstPlainText_other (parts : list jsval) :
  Forall otherPart parts -> firstPlainText parts = Returns None.
Proof.
  induction 1 as [|p parts Hp _ IH]; [reflexivity|].
  cbn [firstPlainText]. now rewrite (otherPart_noPlain _ Hp).
Qed.

End BodyFacts.

(** X18: the body that [extractEmailBody] returns is always the decoded data
    of one of three places, tried in this order: the first part directly
    under the payload that is of type text/plain and has data; the body of
    the payload itself, when no such part exists; a text/plain part with
    data one level further down, when the payload has no data either. No
    other part is ever read: not a part of another type, and not a part
    more than two levels below the payload. *)
Theorem extractEmailBody_source
        (base64ToUtf8 : jsval -> completion string)
        (message : jsval) (body : string) :
  extractEmailBody base64ToUtf8 message = Returns (Some body) ->
  let payload := get message "payload" in
  exists data,
    base64ToUtf8 data = Returns body
    /\ truthy data = true
    /\ ((exists pre part post,
            iterate (get payload "parts") = Returns (pre ++ part :: post)
            /\ Forall noPlainText pre
            /\ plainTextPart part data)
        \/ (data = get (get payload "body") "data"
            /\ forall parts, iterate (get payload "parts") = Returns parts ->
                             Forall noPlainText parts)
        \/ (truthy (get (get payload "body") "data") = false
            /\ exists parts part nested nestedPart,
                 iterate (get payload "parts") = Returns parts
                 /\ Forall noPlainText parts
                 /\ In part parts
                 /\ iterate (get part "parts") = Returns nested
                 /\ In nestedPart nested
                 /\ plainTextPart nestedPart data)).
Proof.
  intros H. cbn zeta. set (payload := get message "payload").
  unfold extractEmailBody in H.
  destruct (member message "payload") as [v|] eqn:Em; cbn [bind] in H;
    [|discriminate].
  assert (v = payload) as ->
      by (unfold member in Em; destruct message; try discriminate;
          injection Em as <-; reflexivity).
  destruct (truthy payload) eqn:Ep; cbn [negb] in H; [|discriminate].
  destruct (overParts payload firstPlainText) as [[d|]|] eqn:E1;
    cbn [bind] in H; [| |discriminate].
  - apply overParts_Some in E1 as [[_ [=]]|(parts & Hi & Hf)].
    apply firstPlainText_Some in Hf as (pre & part & post & -> & Hpre & Hp).
    exists d. split; [now apply decoded_Some|].
    split; [apply Hp|]. left. exists pre, part, post. auto.
  - assert (forall parts, iterate (get payload "parts") = Returns parts ->
                          Forall noPlainText parts) as Hnone.
    { intros parts Hi.
      apply overParts_Some in E1 as [[Ht _]|(parts' & Hi' & Hf)].
      - destruct (get payload "parts"); cbn in Ht, Hi; try discriminate.
        + destruct s; [|discriminate]. injection Hi as <-. constructor.
      - rewrite Hi in Hi'. injection Hi' as <-.
        now apply firstPlainText_None. }
    destruct (truthy (get payload "body")
              && truthy (get (get payload "body") "data")) eqn:Eb.
    + apply andb_true_iff in Eb as [_ Eb].
      exists (get (get payload "body") "data").
      split; [now apply decoded_Some|]. split; [exact Eb|].
      right. left. split; [reflexivity|exact Hnone].
    + assert (truthy (get (get payload "body") "data") = false) as Ed.
      { apply andb_false_iff in Eb as [Eb|Eb]; [|exact Eb].
        destruct (get payload "body"); cbn in Eb |- *; try reflexivity;
          discriminate. }
      destruct (overParts payload nestedPlainText) as [[d|]|] eqn:E2;
        cbn [bind] in H; try discriminate.
      apply overParts_Some in E2 as [[_ [=]]|(parts & Hi & Hn)].
      apply nestedPlainText_Some in Hn
        as (part & nested & np & Hin & Hni & Hnp & Hp).
      exists d. split; [now apply decoded_Some|]. split; [apply Hp|].
      right. right. split; [exact Ed|].
      exists parts, part, nested, np.
      split; [exact Hi|]. split; [now apply Hnone|].
      split; [exact Hin|]. split; [exact Hni|]. split; [exact Hnp|exact Hp].
Qed.

Lemma extractEmailBody_source_witness :
  exists data,
    plainDecoder data = Returns "Total: $5.00" /\ truthy data = true.
Proof.
  destruct (extractEmailBody_source plainDecoder alternativeMessage
                                    "Total: $5.00" eq_refl)
    as (data & Hd & Ht & _).
  exists data. split; assumption.
Defined.

(** X19: when the payload carries no data of its own and no part within two
    levels below it is of type text/plain, [extractEmailBody] returns
    [null], whatever lies deeper: a text/plain part three levels down is
    not found. *)
Theorem extractEmailBody_depth
        (base64ToUtf8 : jsval -> completion string)
        (message : jsval) (properties : list (string * jsval))
        (parts : list jsval) :
  get message "payload" = JObj properties ->
  get (JObj properties) "parts" = JArr parts ->
  truthy (get (get (JObj properties) "body") "data") = false ->
  Forall (fun part =>
            otherPart part
            /\ (truthy (get part "parts") = false
                \/ exists nested,
                     get part "parts" = JArr nested /\ Forall otherPart nested))
         parts ->
  extractEmailBody base64ToUtf8 message = Returns None.
Proof.
  intros Hp Hparts Hdata Hall. unfold extractEmailBody.
  assert (member message "payload" = Returns (JObj properties)) as ->.
  { unfold member. destruct message; cbn in Hp; try discriminate.
    now rewrite <- Hp. }
  cbn [bind truthy negb]. unfold overParts. rewrite Hparts.
  cbn [truthy iterate bind].
  rewrite firstPlainText_other
    by (eapply Forall_impl; [|exact Hall]; cbn; tauto).
  cbn [bind]. rewrite Hdata, andb_false_r.
  assert (nestedPlainText parts = Returns None) as ->; [|reflexivity].
  clear Hparts. induction Hall as [|p parts [Hp' Hn] _ IH]; [reflexivity|].
  cbn [nestedPlainText].
  destruct Hp' as ((ps & ->) & _). cbn [member bind].
  destruct Hn as [Hf|(nested & Hn & Ho)].
  - now rewrite Hf.
  - rewrite Hn. cbn [truthy iterate bind].
    now rewrite (firstPlainText_other _ Ho).
Qed.

Lemma extractEmailBody_depth_witness :
  extractEmailBody plainDecoder deepMessage = Returns None.
Proof.
  apply (extractEmailBody_depth plainDecoder deepMessage
           [ ("mimeType", JStr "multipart/mixed");
             ("parts",
              JArr [ multipart "multipart/related"
                       [ multipart "multipart/alternative"
                           [ textPart "Total: $5.00" ] ] ]) ]
           [ multipart "multipart/related"
               [ multipart "multipart/alternative"
                   [ textPart "Total: $5.00" ] ] ]).
  - reflexivity.
  - reflexivity.
  - reflexivity.
  - apply Forall_cons; [|apply Forall_nil]. split.
    + split; [eexists; reflexivity|cbn; discriminate].
    + right. eexists. split; [reflexivity|].
      apply Forall_cons; [|apply Forall_nil].
      split; [eexists; reflexivity|cbn; discriminate].
Defined.

(** ** The reader *)

Section ReaderFacts.
Variable base64ToUtf8 : jsval -> completion string.
Variable store : Type.
Variable findOne : store -> string -> string -> completion bool.
Variable save : store -> string -> string -> completion store.
Variable getMessage : string -> completion jsval.
Variable stored : store -> string -> string -> Prop.
Hypothesis sound : storeSound store findOne save stored.

(** What one run of the loop adds. *)
Lemma processMessages_adds (userId : string) (messages : list string) :
  forall (db db' : store) (acc results : list ProcessedExpense),
    processMessages base64ToUtf8 store findOne save getMessage
                    userId messages db acc = (db', Returns results) ->
    exists new,
      results = acc ++ new
      /\ NoDup (map messageId new)
      /\ (forall r, In r new ->
            In (messageId r) messages
            /\ ~ stored db (messageId r) userId
            /\ exists fullMessage emailBody,
                 getMessage (messageId r) = Returns fullMessage
                 /\ extractEmailBody base64ToUtf8 fullMessage
                    = Returns (Some emailBody)
                 /\ emailBody <> ""
                 /\ handleGetEmailExpense emailBody = Ok (expense r))
      /\ (forall id u,
            stored db' id u
            <-> stored db id u \/ (u = userId /\ In id (map messageId new))).
Proof.
  destruct sound as [Hfind Hsave].
  induction messages as [|id rest IH]; intros db db' acc results H.
  - cbn [processMessages] in H. injection H as <- <-.
    exists []. rewrite app_nil_r. split; [reflexivity|].
    split; [constructor|]. split; [intros r []|].
    intros id u. cbn. tauto.
  - cbn [processMessages] in H.
    assert (processMessages base64ToUtf8 store findOne save getMessage
                            userId rest db acc = (db', Returns results) ->
            exists new,
              results = acc ++ new
              /\ NoDup (map messageId new)
              /\ (forall r, In r new ->
                    In (messageId r) (id :: rest)
                    /\ ~ stored db (messageId r) userId
                    /\ exists fullMessage emailBody,
                         getMessage (messageId r) = Returns fullMessage
                         /\ extractEmailBody base64ToUtf8 fullMessage
                            = Returns (Some emailBody)
                         /\ emailBody <> ""
                         /\ handleGetEmailExpense emailBody = Ok (expense r))
              /\ (forall id u,
                    stored db' id u
                    <-> stored db id u
                        \/ (u = userId /\ In id (map messageId new))))
      as Hskip.
    { intros H'. destruct (IH _ _ _ _ H') as (new & E & Hnd & Hall & Hst).
      exists new. repeat split; auto; try apply Hst.
      - right. now apply Hall.
      - now apply Hall.
      - now apply Hall. }
    destruct (findOne db id userId) as [[|]|] eqn:Ef; [auto|idtac|discriminate].
    assert (~ stored db id userId) as Hnot.
    { intros Hs. apply (Hfind _ _ _ _ Ef) in Hs. discriminate. }
    destruct (getMessage id) as [fullMessage|] eqn:Eg; [|auto].
    destruct (extractEmailBody base64ToUtf8 fullMessage) as [[emailBody|]|]
      eqn:Eb; [|auto|auto].
    destruct (String.length emailBody =? 0)%nat eqn:El; [auto|].
    destruct (handleGetEmailExpense emailBody) as [expenseData|msg] eqn:Eh;
      [|auto].
    destruct (save db id userId) as [db1|] eqn:Es; [|auto].
    pose proof (Hsave _ _ _ _ Es) as Hdb1.
    destruct (IH _ _ _ _ H) as (new & E & Hnd & Hall & Hst).
    exists (mkProcessed id expenseData :: new).
    split; [now rewrite E, <- app_assoc|]. split; [|split].
    + cbn [map messageId]. constructor; [|exact Hnd].
      intros Hin. apply in_map_iff in Hin as (r & Hr & Hin).
      destruct (Hall r Hin) as (_ & Hn & _). apply Hn.
      apply Hdb1. right. now split.
    + intros r [<-|Hr].
      * cbn [messageId expense]. split; [now left|]. split; [exact Hnot|].
        exists fullMessage, emailBody. repeat split; auto.
        intros ->. discriminate.
      * destruct (Hall r Hr) as (Hin & Hn & Hex).
        split; [now right|]. split; [|exact Hex].
        intros Hs. apply Hn. apply Hdb1. now left.
    + intros id' u. rewrite Hst, Hdb1. cbn [map messageId In].
      intuition (subst; auto).
Qed.

End ReaderFacts.

Section ReaderExpenses.
Variable base64ToUtf8 : jsval -> completion string.
Variable store : Type.
Variable findOne : store -> string -> string -> completion bool.
Variable save : store -> string -> string -> completion store.
Variable getMessage : string -> completion jsval.

Lemma processMessages_expenses (listed : list string) (userId : string)
      (messages : list string) :
  incl messages listed ->
  forall (db db' : store) (acc results : list ProcessedExpense),
    processMessages base64ToUtf8 store findOne save getMessage
                    userId messages db acc = (db', Returns results) ->
    Forall (fromPipeline base64ToUtf8 getMessage listed) acc ->
    Forall (fromPipeline base64ToUtf8 getMessage listed) results.
Proof.
  induction messages as [|id rest IH]; intros Hincl db db' acc results H Hacc.
  - cbn [processMessages] in H. now injection H as <- <-.
  - cbn [processMessages] in H.
    assert (incl rest listed) as Hrest
        by (intros x Hx; apply Hincl; now right).
    specialize (IH Hrest).
    destruct (findOne db id userId) as [[|]|]; [eauto| |discriminate].
    destruct (getMessage id) as [fullMessage|] eqn:Eg; [|eauto].
    destruct (extractEmailBody base64ToUtf8 fullMessage) as [[emailBody|]|]
      eqn:Eb; [|eauto|eauto].
    destruct (String.length emailBody =? 0)%nat eqn:El; [eauto|].
    destruct (handleGetEmailExpense emailBody) as [expenseData|msg] eqn:Eh;
      [|eauto].
    destruct (save db id userId) as [db1|]; [|eauto].
    apply (IH _ _ _ _ H). apply Forall_app. split; [exact Hacc|].
    constructor; [|constructor]. split.
    + cbn [messageId]. apply Hincl. now left.
    + cbn [messageId expense]. exists fullMessage, emailBody.
      repeat split; auto. intros ->. discriminate.
Qed.

End ReaderExpenses.

Section ListStore.

Lemma listStore_sound :
  storeSound (list (string * string)) listFindOne listSave listStored.
Proof.
  split.
  - intros db id u b [= <-]. unfold listStored. split.
    + intros H. apply existsb_exists in H as ([i v] & Hin & H).
      apply andb_true_iff in H as [H1 H2].
      apply String.eqb_eq in H1, H2. cbn in H1, H2. now subst.
    + intros H. apply existsb_exists. exists (id, u). split; [exact H|].
      cbn. now rewrite !String.eqb_refl.
  - intros db id u db' [= <-] id' u'. unfold listStored.
    rewrite in_app_iff. cbn. intuition congruence.
Qed.

End ListStore.

Section ReaderSaves.
Variable base64ToUtf8 : jsval -> completion string.
Variable store : Type.
Variable findOne : store -> string -> string -> completion bool.
Variable save : store -> string -> string -> completion store.
Variable getMessage : string -> completion jsval.
Variable stored : store -> string -> string -> Prop.
Hypothesis sound : storeSound store findOne save stored.

(** What the loop has saved when it ends, whether it ends with the list of
    entries or with an exception of [findOne]. *)
Lemma processMessages_saves (userId : string) (messages : list string) :
  forall (db db' : store) (acc : list ProcessedExpense)
         (outcome : completion (list ProcessedExpense)),
    processMessages base64ToUtf8 store findOne save getMessage
                    userId messages db acc = (db', outcome) ->
    exists new,
      (outcome = Returns (acc ++ new) \/ outcome = Raises)
      /\ NoDup (map messageId new)
      /\ (forall r, In r new -> ~ stored db (messageId r) userId)
      /\ (forall id u,
            stored db' id u
            <-> stored db id u \/ (u = userId /\ In id (map messageId new)))
      /\ (forall r,
            In r new ->
            fromPipeline base64ToUtf8 getMessage messages r
            /\ exists db1 db2,
                 findOne db1 (messageId r) userId = Returns false
                 /\ save db1 (messageId r) userId = Returns db2).
Proof.
  destruct sound as [Hfind Hsave].
  induction messages as [|id rest IH]; intros db db' acc outcome H.
  - cbn [processMessages] in H. injection H as <- <-.
    exists []. rewrite app_nil_r. split; [now left|].
    split; [constructor|]. split; [intros r []|].
    split; [|intros r []]. intros id u. cbn. tauto.
  - assert (forall db0,
               processMessages base64ToUtf8 store findOne save getMessage
                               userId rest db0 acc = (db', outcome) ->
               exists new,
                 (outcome = Returns (acc ++ new) \/ outcome = Raises)
                 /\ NoDup (map messageId new)
                 /\ (forall r, In r new -> ~ stored db0 (messageId r) userId)
                 /\ (forall id' u,
                       stored db' id' u
                       <-> stored db0 id' u
                           \/ (u = userId /\ In id' (map messageId new)))
                 /\ (forall r,
                       In r new ->
                       fromPipeline base64ToUtf8 getMessage (id :: rest) r
                       /\ exists db1 db2,
                            findOne db1 (messageId r) userId = Returns false
                            /\ save db1 (messageId r) userId = Returns db2))
      as Hskip.
    { intros db0 H0.
      destruct (IH _ _ _ _ H0) as (new & Hout & Hnd & Hall & Hst & Hfrom).
      exists new. repeat (split; [assumption|]).
      intros r Hr. destruct (Hfrom r Hr) as [[Hin Hex] Hs].
      split; [|exact Hs]. split; [now right|exact Hex]. }
    cbn [processMessages] in H.
    destruct (findOne db id userId) as [[|]|] eqn:Ef.
    + now apply Hskip.
    + assert (~ stored db id userId) as Hnot.
      { intros Hs. apply (Hfind _ _ _ _ Ef) in Hs. discriminate. }
      destruct (getMessage id) as [fullMessage|] eqn:Eg; [|now apply Hskip].
      destruct (extractEmailBody base64ToUtf8 fullMessage) as [[emailBody|]|]
        eqn:Eb; [|now apply Hskip|now apply Hskip].
      destruct (String.length emailBody =? 0)%nat eqn:El; [now apply Hskip|].
      destruct (handleGetEmailExpense emailBody) as [expenseData|msg] eqn:Eh;
        [|now apply Hskip].
      destruct (save db id userId) as [db1|] eqn:Es; [|now apply Hskip].
      pose proof (Hsave _ _ _ _ Es) as Hdb1.
      destruct (IH _ _ _ _ H) as (new & Hout & Hnd & Hall & Hst & Hfrom).
      exists (mkProcessed id expenseData :: new).
      split; [|split; [|split; [|split]]].
      * destruct Hout as [-> | ->]; [left|now right].
        now rewrite <- app_assoc.
      * cbn [map messageId]. constructor; [|exact Hnd].
        intros Hin. apply in_map_iff in Hin as (r & Hr & Hin).
        apply (Hall r Hin). apply Hdb1. right. now split.
      * intros r [<-|Hr]; [exact Hnot|].
        intros Hs. apply (Hall r Hr). apply Hdb1. now left.
      * intros id' u. rewrite Hst, Hdb1. cbn [map messageId In].
        intuition (subst; auto).
      * intros r [<-|Hr].
        -- cbn [messageId]. split; [|eauto]. split; [now left|].
           cbn [messageId expense]. exists fullMessage, emailBody.
           repeat split; auto. intros ->. discriminate.
        -- destruct (Hfrom r Hr) as [[Hin Hex] Hs].
           split; [|exact Hs]. split; [now right|exact Hex].
    + injection H as <- <-. exists []. split; [now right|].
      split; [constructor|]. split; [intros r []|].
      split; [|intros r []]. intros id' u. cbn. tauto.
Qed.

End ReaderSaves.

Section FailingStore.

Lemma failingStore_sound :
  storeSound (list (string * string)) failingFindOne listSave listStored.
Proof.
  destruct listStore_sound as [Hfind Hsave]. split; [|exact Hsave].
  intros db id u b. unfold failingFindOne.
  destruct (String.eqb id "m2"); [discriminate|apply Hfind].
Qed.

End FailingStore.

(** X20: whatever way one run of [readEmailsFromSender] ends, the
    collection gains exactly the messages that the run saved: each of them
    once, none of them recorded for the user before, and nothing else.
    Every saved message was listed, was fetched, had a body that is not
    empty and from which [handleGetEmailExpense] read the expense, and was
    saved by a [save] that succeeded after a [findOne] that found nothing:
    a message that could not be fetched, had no body or no amount, or could
    not be saved is not recorded. When the run returns, the saved messages
    are exactly the entries of its result, in that order. When it throws
    (the listing or a [findOne] failed), they stay recorded although no
    result is returned. *)
Theorem reader_records_saved
        (base64ToUtf8 : jsval -> completion string) (store : Type)
        (findOne : store -> string -> string -> completion bool)
        (save : store -> string -> string -> completion store)
        (listMessages : string -> number -> completion (option (list string)))
        (getMessage : string -> completion jsval)
        (stored : store -> string -> string -> Prop)
        (userId fromEmail : string) (maxResults : number)
        (db db' : store) (outcome : completion (list ProcessedExpense)) :
  storeSound store findOne save stored ->
  readEmailsFromSender base64ToUtf8 store findOne save listMessages getMessage
                       userId fromEmail maxResults db
  = (db', outcome) ->
  exists saved,
    (outcome = Returns saved \/ outcome = Raises)
    /\ NoDup (map messageId saved)
    /\ (forall id u,
          stored db' id u
          <-> stored db id u \/ (u = userId /\ In id (map messageId saved)))
    /\ (forall r,
          In r saved ->
          ~ stored db (messageId r) userId
          /\ stored db' (messageId r) userId
          /\ (exists listed,
                 listMessages (emailQuery fromEmail) maxResults
                 = Returns (Some listed)
                 /\ In (messageId r) listed)
          /\ (exists fullMessage emailBody,
                 getMessage (messageId r) = Returns fullMessage
                 /\ extractEmailBody base64ToUtf8 fullMessage
                    = Returns (Some emailBody)
                 /\ emailBody <> ""
                 /\ handleGetEmailExpense emailBody = Ok (expense r))
          /\ (exists db1 db2,
                 findOne db1 (messageId r) userId = Returns false
                 /\ save db1 (messageId r) userId = Returns db2)).
Proof.
  intros Hsound H. unfold readEmailsFromSender in H.
  assert (forall o, (db, o) = (db', outcome) ->
                    o = Returns [] \/ o = Raises ->
                    exists saved : list ProcessedExpense,
                      (outcome = Returns saved \/ outcome = Raises)
                      /\ NoDup (map messageId saved)
                      /\ (forall id u,
                            stored db' id u
                            <-> stored db id u
                                \/ (u = userId
                                    /\ In id (map messageId saved)))
                      /\ (forall r, In r saved -> False)) as Hnone.
  { intros o [= <- <-] Ho. exists [].
    split; [destruct Ho as [-> | ->]; auto|].
    split; [constructor|]. split; [|intros r []].
    intros id u. cbn. tauto. }
  assert (forall o, (db, o) = (db', outcome) ->
                    o = Returns [] \/ o = Raises ->
                    exists saved,
                      (outcome = Returns saved \/ outcome = Raises)
                      /\ NoDup (map messageId saved)
                      /\ (forall id u,
                            stored db' id u
                            <-> stored db id u
                                \/ (u = userId
                                    /\ In id (map messageId saved)))
                      /\ (forall r,
                            In r saved ->
                            ~ stored db (messageId r) userId
                            /\ stored db' (messageId r) userId
                            /\ (exists listed,
                                   listMessages (emailQuery fromEmail)
                                                maxResults
                                   = Returns (Some listed)
                                   /\ In (messageId r) listed)
                            /\ (exists fullMessage emailBody,
                                   getMessage (messageId r)
                                   = Returns fullMessage
                                   /\ extractEmailBody base64ToUtf8
                                                       fullMessage
                                      = Returns (Some emailBody)
                                   /\ emailBody <> ""
                                   /\ handleGetEmailExpense emailBody
                                      = Ok (expense r))
                            /\ (exists db1 db2,
                                   findOne db1 (messageId r) userId
                                   = Returns false
                                   /\ save db1 (messageId r) userId
                                      = Returns db2))) as Hnone'.
  { intros o Ho Hcase.
    destruct (Hnone o Ho Hcase) as (saved & H1 & H2 & H3 & H4).
    exists saved. repeat (split; [assumption|]).
    intros r Hr. destruct (H4 r Hr). }
  clear Hnone.
  destruct (listMessages _ _) as [response|] eqn:El;
    [|apply (Hnone' _ H); now right].
  destruct (List.length _ =? 0)%nat; [apply (Hnone' _ H); now left|].
  destruct response as [listed|];
    [|cbn [processMessages] in H; apply (Hnone' _ H); now left].
  apply (processMessages_saves _ _ _ _ _ stored Hsound) in H
    as (new & Hout & Hnd & Hall & Hst & Hfrom).
  cbn [app] in Hout. exists new. split; [exact Hout|].
  split; [exact Hnd|]. split; [exact Hst|].
  intros r Hr. destruct (Hfrom r Hr) as [[Hin Hex] Hs].
  split; [now apply Hall|]. split.
  { apply Hst. right. split; [reflexivity|]. now apply in_map. }
  split; [exists listed; auto|]. split; [exact Hex|exact Hs].
Qed.

Lemma reader_records_saved_witness :
  (let run := readEmailsFromSender plainDecoder _ listFindOne listSave
                                   sampleList sampleGet
                                   "u1" defaultFromEmail (of_Z 20)
                                   [("m0", "u1")] in
   map fst (fst run) = ["m0"; "m1"]
   /\ (exists results,
         snd run = Returns results /\ map messageId results = ["m1"])
   /\ exists saved,
        (snd run = Returns saved \/ snd run = Raises)
        /\ NoDup (map messageId saved)
        /\ (forall id u,
              listStored (fst run) id u
              <-> listStored [("m0", "u1")] id u
                  \/ (u = "u1" /\ In id (map messageId saved)))
        /\ (forall r, In r saved ->
              ~ listStored [("m0", "u1")] (messageId r) "u1"
              /\ listStored (fst run) (messageId r) "u1"))
  /\ (let run := readEmailsFromSender plainDecoder _ failingFindOne listSave
                                      sampleList sampleGet
                                      "u1" defaultFromEmail (of_Z 20) [] in
      fst run = [("m1", "u1")]
      /\ snd run = Raises
      /\ exists saved,
           (snd run = Returns saved \/ snd run = Raises)
           /\ NoDup (map messageId saved)
           /\ (forall id u,
                 listStored (fst run) id u
                 <-> listStored [] id u
                     \/ (u = "u1" /\ In id (map messageId saved)))
           /\ (forall r, In r saved ->
                 ~ listStored [] (messageId r) "u1"
                 /\ listStored (fst run) (messageId r) "u1")).
Proof.
  split; intros run.
  - split; [reflexivity|].
    split; [eexists; split; reflexivity|].
    destruct (reader_records_saved
                plainDecoder _ listFindOne listSave sampleList sampleGet
                listStored "u1" defaultFromEmail (of_Z 20) [("m0", "u1")]
                (fst run) (snd run) listStore_sound eq_refl)
      as (saved & Hout & Hnd & Hst & Hall).
    exists saved. repeat (split; [assumption|]).
    intros r Hr. destruct (Hall r Hr) as (Hn & Hs & _). now split.
  - split; [reflexivity|]. split; [reflexivity|].
    destruct (reader_records_saved
                plainDecoder _ failingFindOne listSave sampleList sampleGet
                listStored "u1" defaultFromEmail (of_Z 20) []
                (fst run) (snd run) failingStore_sound eq_refl)
      as (saved & Hout & Hnd & Hst & Hall).
    exists saved. repeat (split; [assumption|]).
    intros r Hr. destruct (Hall r Hr) as (Hn & Hs & _). now split.
Defined.

(** X21: every entry that [readEmailsFromSender] returns belongs to a listed
    message and carries the expense that [handleGetEmailExpense] reads from
    the body that [extractEmailBody] finds in that message; the body is not
    empty, and the expense has at least one item. *)
Theorem reader_expenses_from_pipeline
        (base64ToUtf8 : jsval -> completion string) (store : Type)
        (findOne : store -> string -> string -> completion bool)
        (save : store -> string -> string -> completion store)
        (listMessages : string -> number -> completion (option (list string)))
        (getMessage : string -> completion jsval)
        (userId fromEmail : string) (maxResults : number)
        (db db' : store) (results : list ProcessedExpense) :
  readEmailsFromSender base64ToUtf8 store findOne save listMessages getMessage
                       userId fromEmail maxResults db
  = (db', Returns results) ->
  forall r, In r results ->
    (exists listed,
        listMessages (emailQuery fromEmail) maxResults = Returns (Some listed)
        /\ In (messageId r) listed)
    /\ (exists fullMessage emailBody,
           getMessage (messageId r) = Returns fullMessage
           /\ extractEmailBody base64ToUtf8 fullMessage
              = Returns (Some emailBody)
           /\ emailBody <> ""
           /\ handleGetEmailExpense emailBody = Ok (expense r))
    /\ items (expense r) <> [].
Proof.
  intros H r Hr. unfold readEmailsFromSender in H.
  destruct (listMessages _ _) as [response|] eqn:El; [|discriminate].
  destruct (List.length _ =? 0)%nat.
  { injection H as <- <-. destruct Hr. }
  destruct response as [listed|];
    [|cbn [processMessages] in H; injection H as <- <-; destruct Hr].
  apply (processMessages_expenses _ _ _ _ _ listed) in H;
    [|apply incl_refl|constructor].
  rewrite Forall_forall in H. destruct (H r Hr) as [Hin Hex].
  split; [eauto|]. split; [exact Hex|].
  destruct Hex as (fullMessage & emailBody & _ & _ & _ & Hok).
  destruct (extractAmounts emailBody) as [|c cs] eqn:E.
  { rewrite (handleGetEmailExpense_none _ E) in Hok. discriminate. }
  assert (extractAmounts emailBody <> []) as Hne by (rewrite E; discriminate).
  destruct (handleGetEmailExpense_found emailBody Hne)
    as (largest & rest & _ & _ & Hres).
  rewrite Hres in Hok. injection Hok as <-. cbn [items].
  apply expenseItems_nonempty.
Qed.

Lemma reader_expenses_from_pipeline_witness :
  exists db' r,
    readEmailsFromSender plainDecoder _ listFindOne listSave
                         sampleList sampleGet
                         "u1" defaultFromEmail (of_Z 20) []
    = (db', Returns [r])
    /\ items (expense r) <> [].
Proof.
  eexists. eexists. split; [vm_compute; reflexivity|].
  refine (proj2 (proj2 (reader_expenses_from_pipeline
                          plainDecoder _ listFindOne listSave
                          sampleList sampleGet
                          "u1" defaultFromEmail (of_Z 20) [] _ _
                          eq_refl _ (or_introl eq_refl)))).
Defined.

(** X22: a message returned by one run is not returned by the next run for
    the same user, whatever the mail service answers then. *)
Theorem reader_never_repeats
        (store : Type)
        (findOne : store -> string -> string -> completion bool)
        (save : store -> string -> string -> completion store)
        (stored : store -> string -> string -> Prop)
        (decode1 decode2 : jsval -> completion string)
        (list1 list2 : string -> number -> completion (option (list string)))
        (get1 get2 : string -> completion jsval)
        (userId from1 from2 : string) (max1 max2 : number)
        (db db1 db2 : store) (results1 results2 : list ProcessedExpense) :
  storeSound store findOne save stored ->
  readEmailsFromSender decode1 store findOne save list1 get1
                       userId from1 max1 db
  = (db1, Returns results1) ->
  readEmailsFromSender decode2 store findOne save list2 get2
                       userId from2 max2 db1
  = (db2, Returns results2) ->
  forall r1 r2, In r1 results1 -> In r2 results2 ->
                messageId r1 <> messageId r2.
Proof.
  intros Hsound H1 H2 r1 r2 Hr1 Hr2 E.
  unfold readEmailsFromSender in H1, H2.
  destruct (list1 _ _) as [resp1|]; [|discriminate].
  destruct (list2 _ _) as [resp2|]; [|discriminate].
  destruct (List.length _ =? 0)%nat in H1;
    [injection H1 as <- <-; destruct Hr1|].
  destruct (List.length _ =? 0)%nat in H2;
    [injection H2 as <- <-; destruct Hr2|].
  apply (processMessages_adds _ _ _ _ _ stored Hsound) in H1
    as (new1 & -> & _ & _ & Hst1).
  apply (processMessages_adds _ _ _ _ _ stored Hsound) in H2
    as (new2 & -> & _ & Hall2 & _).
  cbn [app] in *.
  destruct (Hall2 r2 Hr2) as (_ & Hn & _). apply Hn. rewrite <- E.
  apply Hst1. right. split; [reflexivity|]. now apply in_map.
Qed.

Lemma reader_never_repeats_witness :
  exists db1 results1 db2 results2,
    readEmailsFromSender plainDecoder _ listFindOne listSave
                         sampleList sampleGet
                         "u1" defaultFromEmail (of_Z 20) []
    = (db1, Returns results1)
    /\ readEmailsFromSender plainDecoder _ listFindOne listSave
                            laterList laterGet
                            "u1" defaultFromEmail (of_Z 20) db1
       = (db2, Returns results2)
    /\ map messageId results1 = ["m1"]
    /\ map messageId results2 = ["m4"]
    /\ forall r1 r2, In r1 results1 -> In r2 results2 ->
                     messageId r1 <> messageId r2.
Proof.
  eexists. eexists. eexists. eexists.
  split; [vm_compute; reflexivity|]. split; [vm_compute; reflexivity|].
  split; [reflexivity|]. split; [reflexivity|].
  exact (reader_never_repeats _ listFindOne listSave listStored
           plainDecoder plainDecoder sampleList laterList sampleGet laterGet
           "u1" defaultFromEmail defaultFromEmail (of_Z 20) (of_Z 20)
           [] _ _ _ _ listStore_sound eq_refl eq_refl).
Defined.

(** * Upper and lower case *)

Section LowerText.

Lemma take_lower (n : nat) (s : string) :
  take n (toLowerCase s) = toLowerCase (take n s).
Proof.
  revert s. induction n as [|n IH]; intros [|x s]; cbn; auto. now rewrite IH.
Qed.

Lemma drop_lower (n : nat) (s : string) :
  drop n (toLowerCase s) = toLowerCase (drop n s).
Proof. revert s. induction n as [|n IH]; intros [|x s]; cbn; auto. Qed.

Lemma substring_lower (s : string) (i j : Z) :
  substring (toLowerCase s) i j = toLowerCase (substring s i j).
Proof.
  unfold substring. now rewrite toLowerCase_length, drop_lower, take_lower.
Qed.

Lemma canonChar_lowerChar (x : ascii) : canonChar (lowerChar x) = canonChar x.
Proof. destruct x as [[] [] [] [] [] [] [] []]; reflexivity. Qed.

Lemma chr_match_lower (a x : ascii) :
  chr_match true a (lowerChar x) = chr_match true a x.
Proof. unfold chr_match. now rewrite canonChar_lowerChar. Qed.

Lemma dollar_lower (x : ascii) :
  chr_match false "$" (lowerChar x) = chr_match false "$" x.
Proof. destruct x as [[] [] [] [] [] [] [] []]; reflexivity. Qed.

Lemma comma_lower (x : ascii) :
  chr_match false "," (lowerChar x) = chr_match false "," x.
Proof. destruct x as [[] [] [] [] [] [] [] []]; reflexivity. Qed.

Lemma point_lower (x : ascii) :
  chr_match false "." (lowerChar x) = chr_match false "." x.
Proof. destruct x as [[] [] [] [] [] [] [] []]; reflexivity. Qed.

Lemma isDigit_lower (x : ascii) : isDigit (lowerChar x) = isDigit x.
Proof. destruct x as [[] [] [] [] [] [] [] []]; reflexivity. Qed.

Lemma isSpace_lower (x : ascii) : isSpace (lowerChar x) = isSpace x.
Proof. destruct x as [[] [] [] [] [] [] [] []]; reflexivity. Qed.

Lemma isComma_lower (x : ascii) :
  (code (lowerChar x) =? 44)%nat = (code x =? 44)%nat.
Proof. destruct x as [[] [] [] [] [] [] [] []]; reflexivity. Qed.

Lemma remove_commas_lower (s : string) :
  remove_commas (toLowerCase s) = toLowerCase (remove_commas s).
Proof.
  induction s as [|x s IH]; cbn [toLowerCase remove_commas]; [reflexivity|].
  rewrite isComma_lower, IH. now destruct (code x =? 44)%nat.
Qed.

Lemma isDigit_lowerChar (x : ascii) : isDigit x = true -> lowerChar x = x.
Proof. destruct x as [[] [] [] [] [] [] [] []]; vm_compute; congruence. Qed.

Lemma digits_lower (s : string) : every isDigit s = true -> toLowerCase s = s.
Proof.
  induction s as [|x s IH]; cbn; [reflexivity|]. intros H.
  apply andb_true_iff in H as [Hx H]. now rewrite IH, isDigit_lowerChar.
Qed.

Lemma amountLiteral_lower (g : string) :
  amountLiteral g -> remove_commas (toLowerCase g) = remove_commas g.
Proof.
  intros (whole & cents & E & Hw & _ & Hc).
  rewrite remove_commas_lower, E, toLowerCase_append, (digits_lower _ Hw).
  f_equal. destruct Hc as [->|(d1 & d2 & H1 & H2 & ->)]; [reflexivity|].
  cbn [toLowerCase].
  rewrite (isDigit_lowerChar _ H1), (isDigit_lowerChar _ H2). reflexivity.
Qed.

End LowerText.

Section LowerMatcher.
Context {A B : Type}.
Variable ic : bool.
Variable F : A -> B.

Lemma star_loop_lower
      (body : string -> capture -> (string -> capture -> option A) -> option A)
      (body' : string -> capture -> (string -> capture -> option B) -> option B) :
  (forall s c k k',
      (forall s1 c1,
        k' (toLowerCase s1) (option_map toLowerCase c1)
        = option_map F (k s1 c1)) ->
      body' (toLowerCase s) (option_map toLowerCase c) k'
      = option_map F (body s c k)) ->
  forall n s c k k',
    (forall s1 c1,
        k' (toLowerCase s1) (option_map toLowerCase c1)
        = option_map F (k s1 c1)) ->
    star_loop body' n (toLowerCase s) (option_map toLowerCase c) k'
    = option_map F (star_loop body n s c k).
Proof.
  intros Hbody. induction n as [|n IH]; intros s c k k' Hk; cbn [star_loop].
  - apply Hk.
  - rewrite (Hbody s c
               (fun s' c' =>
                  if (String.length s' <? String.length s)%nat
                  then star_loop body n s' c' k else None)).
    + destruct (body s c _); cbn [option_map]; [reflexivity|apply Hk].
    + intros s' c'. rewrite !toLowerCase_length.
      destruct (String.length s' <? String.length s)%nat; [|reflexivity].
      now apply IH.
Qed.

Lemma rmatch_lower (r : regex) :
  caseBlind ic r ->
  forall s c k k',
    (forall s1 c1,
        k' (toLowerCase s1) (option_map toLowerCase c1)
        = option_map F (k s1 c1)) ->
    rmatch ic r (toLowerCase s) (option_map toLowerCase c) k'
    = option_map F (rmatch ic r s c k).
Proof.
  induction r as [|a|p|r1 IH1 r2 IH2|r1 IH1 r2 IH2|r1 IH1|r1 IH1];
    cbn [caseBlind]; intros Hr s c k k' Hk; cbn [rmatch].
  - apply Hk.
  - destruct s as [|x s]; [reflexivity|]. cbn [toLowerCase]. rewrite Hr.
    destruct (chr_match ic a x); [apply Hk|reflexivity].
  - destruct s as [|x s]; [reflexivity|]. cbn [toLowerCase]. rewrite Hr.
    destruct (p x); [apply Hk|reflexivity].
  - destruct Hr as [H1 H2]. apply IH1; [exact H1|].
    intros s' c'. now apply IH2.
  - destruct Hr as [H1 H2]. rewrite (IH1 H1 s c k k' Hk).
    destruct (rmatch ic r1 s c k); cbn [option_map]; [reflexivity|].
    now apply IH2.
  - rewrite toLowerCase_length. apply star_loop_lower; [|exact Hk].
    intros s' c' k1 k1' Hk1. now apply IH1.
  - apply IH1; [exact Hr|]. intros s' c'.
    rewrite !toLowerCase_length, take_lower. apply (Hk s' (Some _)).
Qed.

End LowerMatcher.

Section LowerScan.
Variable re : RegExp.
Hypothesis blind : caseBlind (ignoreCase re) (source re).

Lemma match_at_lower (s : string) :
  match_at re (toLowerCase s)
  = option_map (fun nc => (fst nc, option_map toLowerCase (snd nc)))
               (match_at re s).
Proof.
  unfold match_at.
  apply (rmatch_lower (ignoreCase re)
                      (fun nc => (fst nc, option_map toLowerCase (snd nc)))
                      (source re) blind s None).
  intros s' c'. now rewrite !toLowerCase_length.
Qed.

Lemma scan_lower (s : string) :
  forall (i : Z) (skip : nat),
    scan re (toLowerCase s) i skip = map lowerMatch (scan re s i skip).
Proof.
  induction s as [|x s IH]; intros i skip.
  - change (toLowerCase "") with "". cbn [scan].
    destruct skip; [|reflexivity].
    pose proof (match_at_lower "") as E. change (toLowerCase "") with "" in E.
    destruct (match_at re "") as [[n c]|]; [|reflexivity].
    cbn [option_map fst snd] in E. injection E as E.
    cbn [map]. unfold lowerMatch. cbn [m0 m1 index]. rewrite <- E.
    now destruct n.
  - destruct skip as [|skip].
    + pose proof (match_at_lower (String x s)) as E.
      cbn [toLowerCase] in E |- *. cbn [scan]. rewrite E.
      destruct (match_at re (String x s)) as [[n c]|]; cbn [option_map fst snd].
      * cbn [map]. rewrite IH. f_equal. unfold lowerMatch. cbn [m0 m1 index].
        f_equal. exact (take_lower n (String x s)).
      * apply IH.
    + cbn [toLowerCase scan]. apply IH.
Qed.

End LowerScan.

Section LowerAmounts.

Lemma amountRegexes_caseBlind :
  Forall (fun re => caseBlind (ignoreCase re) (source re)) amountRegexes.
Proof.
  unfold amountRegexes, amountTail, colonOrOf, currencyWord, amountGroup.
  repeat apply Forall_cons; try apply Forall_nil;
    cbn [source ignoreCase caseBlind Cat Any Lit Opt Plus Rep Times UpTo
         digit ws Nat.sub];
    repeat match goal with |- _ /\ _ => split end;
    try exact I; try exact isDigit_lower; try exact isSpace_lower;
    try exact dollar_lower; try exact comma_lower; try exact point_lower;
    intros x; apply chr_match_lower.
Qed.

Lemma candidate_lower (r : MatchResult) :
  match m1 r with Some g => amountLiteral g | None => True end ->
  candidate (lowerMatch r) = map lowerAmount (candidate r).
Proof.
  intros Hg. unfold candidate, lowerMatch. cbn [m0 m1 index].
  assert (remove_commas
            (match option_map toLowerCase (m1 r) with
             | Some g => g | None => "" end)
          = remove_commas (match m1 r with Some g => g | None => "" end)) as E.
  { destruct (m1 r) as [g|]; [|reflexivity]. now apply amountLiteral_lower. }
  rewrite E. destruct (negb _ && ltb zero _); reflexivity.
Qed.

Lemma scan_literal (re : RegExp) (text : string) (r : MatchResult) :
  In re amountRegexes -> In r (execAll re text) ->
  match m1 r with Some g => amountLiteral g | None => True end.
Proof.
  intros Hre Hr. unfold execAll in Hr.
  apply scan_found in Hr as (off & n & _ & _ & _ & _ & Hm).
  apply match_at_sound in Hm as (w & s' & _ & _ & Hacc).
  pose proof amountRegexes_literal as Hall. rewrite Forall_forall in Hall.
  destruct (accepts_group _ _ _ _ _ _ Hacc (Hall _ Hre))
    as [->|(g & -> & Hg)]; [exact I|exact Hg].
Qed.

Lemma candidates_lower (l : list MatchResult) :
  (forall r, In r l ->
             match m1 r with Some g => amountLiteral g | None => True end) ->
  flat_map candidate (map lowerMatch l)
  = map lowerAmount (flat_map candidate l).
Proof.
  induction l as [|r l IH]; intros H; [reflexivity|].
  cbn [map flat_map]. rewrite map_app, candidate_lower, IH; auto.
  - intros r' Hr'. apply H. now right.
  - apply H. now left.
Qed.

(** The candidates of the lower-cased text are those of the text, at the
    same places and with the same amounts. *)
Lemma extractAmounts_lower (text : string) :
  extractAmounts (toLowerCase text) = map lowerAmount (extractAmounts text).
Proof.
  unfold extractAmounts.
  pose proof amountRegexes_caseBlind as Hb. rewrite Forall_forall in Hb.
  assert (forall re, In re amountRegexes -> In re amountRegexes) as Hin by auto.
  revert Hb Hin. generalize amountRegexes at 1 2 4 5. intros res Hb Hin.
  induction res as [|re res IH]; [reflexivity|].
  cbn [flat_map]. rewrite map_app, IH.
  - f_equal. unfold execAll. rewrite scan_lower by (apply Hb; now left).
    apply candidates_lower. intros r Hr.
    apply (scan_literal re text); [apply Hin; now left|exact Hr].
  - intros r Hr. apply Hb. now right.
  - intros r Hr. apply Hin. now right.
Qed.

Lemma insert_map {A B : Type} (f : A -> B) (compare : A -> A -> number)
      (compare' : B -> B -> number) (x : A) (l : list A) :
  (forall a b, compare' (f a) (f b) = compare a b) ->
  insert compare' (f x) (map f l) = map f (insert compare x l).
Proof.
  intros H. induction l as [|y l IH]; cbn [map insert]; [reflexivity|].
  rewrite H. destruct (ltb zero (compare x y)); cbn [map]; [|reflexivity].
  now rewrite IH.
Qed.

Lemma sortedAmounts_lower (l : list AmountMatch) :
  sortedAmounts (map lowerAmount l) = map lowerAmount (sortedAmounts l).
Proof.
  unfold sortedAmounts, sort.
  induction l as [|x l IH]; cbn [map fold_right]; [reflexivity|].
  rewrite IH. now apply insert_map.
Qed.

Lemma surroundingText_lower (emailText : string) (m m' : AmountMatch) :
  m_index m' = m_index m ->
  String.length (m_text m') = String.length (m_text m) ->
  surroundingText (toLowerCase emailText) m' = surroundingText emailText m.
Proof.
  intros Hi Hl. unfold surroundingText.
  now rewrite Hi, Hl, toLowerCase_length, substring_lower,
    toLowerCase_idempotent.
Qed.

Lemma lineItem_lower (emailText : string) (m : AmountMatch) :
  amount (lineItem (toLowerCase emailText) (lowerAmount m))
  = amount (lineItem emailText m)
  /\ head (lineItem (toLowerCase emailText) (lowerAmount m))
     = head (lineItem emailText m).
Proof.
  unfold lineItem. cbn [amount head]. split; [reflexivity|].
  rewrite (surroundingText_lower emailText m); [reflexivity|reflexivity|].
  apply toLowerCase_length.
Qed.

Lemma lineItems_lower (emailText : string) (ms : list AmountMatch)
      (totalAmount : number) :
  map (fun item => (amount item, head item))
      (lineItems (toLowerCase emailText) (map lowerAmount ms) totalAmount)
  = map (fun item => (amount item, head item))
        (lineItems emailText ms totalAmount).
Proof.
  unfold lineItems. rewrite length_map.
  generalize (2 <? List.length ms)%nat. intros many.
  induction ms as [|m ms IH]; [reflexivity|].
  cbn [map flat_map]. rewrite !map_app, IH. f_equal.
  cbn [lowerAmount m_amount].
  destruct (many && eqb (m_amount m) totalAmount); [reflexivity|].
  cbn [map]. destruct (lineItem_lower emailText m) as [-> ->]. reflexivity.
Qed.

Lemma expenseItems_lower (emailText : string) (ms : list AmountMatch)
      (totalAmount : number) :
  map (fun item => (amount item, head item))
      (expenseItems (toLowerCase emailText) (map lowerAmount ms) totalAmount)
  = map (fun item => (amount item, head item))
        (expenseItems emailText ms totalAmount).
Proof.
  unfold expenseItems. rewrite length_map.
  assert (forall l l' : list ExpenseItem,
             map (fun item => (amount item, head item)) l
             = map (fun item => (amount item, head item)) l' ->
             map (fun item => (amount item, head item))
                 (if (List.length l =? 0)%nat
                  then [wholeEmail totalAmount] else l)
             = map (fun item => (amount item, head item))
                   (if (List.length l' =? 0)%nat
                    then [wholeEmail totalAmount] else l')) as Hk.
  { intros l l' E.
    assert (List.length l = List.length l') as ->.
    { pose proof (f_equal (@List.length _) E) as El.
      now rewrite !length_map in El. }
    destruct (List.length l' =? 0)%nat; [reflexivity|exact E]. }
  apply Hk. destruct (1 <? List.length ms)%nat; [|reflexivity].
  apply lineItems_lower.
Qed.

Lemma sumAmounts_amounts (l : list ExpenseItem) :
  sumAmounts l = fold_left add (map amount l) zero.
Proof.
  unfold sumAmounts. generalize zero.
  induction l as [|it l IH]; intros acc; cbn [map fold_left]; auto.
Qed.

Lemma finalTotal_amounts (l l' : list ExpenseItem) (totalAmount : number) :
  map amount l = map amount l' ->
  finalTotal l totalAmount = finalTotal l' totalAmount.
Proof.
  intros E. unfold finalTotal.
  rewrite !sumAmounts_amounts, E.
  replace (List.length l) with (List.length l'); [reflexivity|].
  pose proof (f_equal (@List.length _) E) as El.
  now rewrite !length_map in El.
Qed.

Lemma amounts_of_pairs (l l' : list ExpenseItem) :
  map (fun item => (amount item, head item)) l
  = map (fun item => (amount item, head item)) l' ->
  map amount l = map amount l' /\ map head l = map head l'.
Proof.
  intros E. split.
  - apply (f_equal (map fst)) in E. now rewrite !map_map in E.
  - apply (f_equal (map snd)) in E. now rewrite !map_map in E.
Qed.

(** The pipeline reads the same amounts and categories from a text and
    from its lower-case form. *)
Lemma handleGetEmailExpense_lower (emailText : string) :
  amountsAndHeads (handleGetEmailExpense (toLowerCase emailText))
  = amountsAndHeads (handleGetEmailExpense emailText).
Proof.
  unfold handleGetEmailExpense.
  rewrite extractAmounts_lower, length_map, sortedAmounts_lower.
  destruct (List.length (extractAmounts emailText) =? 0)%nat; [reflexivity|].
  destruct (sortedAmounts (extractAmounts emailText)) as [|largest rest];
    [reflexivity|].
  cbn [map lowerAmount m_amount amountsAndHeads total items].
  pose proof (expenseItems_lower emailText (extractAmounts emailText)
                                 (m_amount largest)) as E.
  rewrite E. f_equal. f_equal.
  apply finalTotal_amounts. now apply amounts_of_pairs.
Qed.

End LowerAmounts.

(** [determineCategory] on its own compares its argument as it is: a
    capitalised keyword is not found. The function is private to its
    module, and its one caller hands it a lower-cased window. *)
Lemma determineCategory_compares_as_is :
  determineCategory "Lunch at Subway" = "unknown"
  /\ determineCategory (toLowerCase "Lunch at Subway") = "food".
Proof. split; vm_compute; reflexivity. Qed.


